(** * Atlas renderer: frame-state structures of [src/renderer/atlas/common.h]

    A shallow embedding of the structures declared in [common.h] - the
    geometry helpers, [Buffer], the generational settings, the [FontFace]
    handle with its soft-font sentinel, [ShapedRow] and [RenderingPayload] -
    and of the scroll reuse of the row cache that [RenderingPayload] carries,
    followed by the properties established about them.

    Conventions.
    - Fixed-width integers are [Z] (or [N] for addresses and sizes); every
      place where C++ arithmetic is done at a fixed width has the wrap-around
      written out ([wrap_s], [wrap_u]).
    - An [f32] is its IEEE-754 binary32 bit pattern; only comparisons are
      needed, and they are defined on the pattern.
    - Member functions that mutate objects run in a small state-and-failure
      monad over a store of objects, so that two references naming the same
      object really alias. *)

From Stdlib Require Import ZArith NArith Lia Bool.
From stdpp Require Import base numbers option list.

Local Open Scope Z_scope.

(* ===================================================================== *)
(** ** Fixed-width integers *)
(* ===================================================================== *)

(** Value of a [w]-bit unsigned integer holding the low [w] bits of [x]. *)
Definition wrap_u (w : Z) (x : Z) : Z := x mod 2 ^ w.

(** Value of a [w]-bit two's-complement integer holding the low [w] bits
    of [x]. *)
Definition wrap_s (w : Z) (x : Z) : Z := (x + 2 ^ (w - 1)) mod 2 ^ w - 2 ^ (w - 1).

Definition u8 := Z.
Definition u16 := Z.
Definition i16 := Z.
Definition u32 := Z.
Definition i32 := Z.

Definition u16_max : Z := 65535.
Definition i32_min : Z := -2147483648.
Definition i32_max : Z := 2147483647.

Definition is_u16 (x : Z) : Prop := 0 <= x <= u16_max.
Definition is_i32 (x : Z) : Prop := i32_min <= x <= i32_max.

(** [til::CoordType] is declared outside this header (in [til]) as
    [int32_t]; [int] is 32 bits wide on every target of the renderer. *)
Definition CoordType := Z.
Definition int_bits : Z := 32.

(* ===================================================================== *)
(** ** [f32]: binary32 bit patterns and their comparison *)
(* ===================================================================== *)

Definition f32 := N.

Definition f32_sign (b : f32) : bool := N.testbit b 31.
Definition f32_exponent (b : f32) : N := N.land (N.shiftr b 23) 255.
Definition f32_fraction (b : f32) : N := N.land b 8388607.

Definition f32_is_nan (b : f32) : bool :=
  (f32_exponent b =? 255)%N && negb (f32_fraction b =? 0)%N.

(** Sign-magnitude patterns order like this integer; [+0] and [-0] both
    map to [0]. *)
Definition f32_key (b : f32) : Z :=
  let m := Z.of_N (N.land b 2147483647) in
  if f32_sign b then - m else m.

(** [a < b] on [float]: false as soon as one side is a NaN. *)
Definition f32_lt (a b : f32) : bool :=
  negb (f32_is_nan a || f32_is_nan b) && (f32_key a <? f32_key b).

(** [a >= b] on [float]: false as soon as one side is a NaN. *)
Definition f32_ge (a b : f32) : bool :=
  negb (f32_is_nan a || f32_is_nan b) && (f32_key a >=? f32_key b).

Definition f32_zero : f32 := 0%N.
Definition f32_one : f32 := 1065353216%N.       (* 0x3f800000 *)
Definition f32_quiet_nan : f32 := 2143289344%N. (* 0x7fc00000 *)

(* ===================================================================== *)
(** ** [vec2], [vec4], [rect], [range] *)
(* ===================================================================== *)

(** The comparison operators [rect] uses on its element type. *)
Class Ordered (T : Type) := {
  op_lt : T -> T -> bool;
  op_ge : T -> T -> bool
}.

(** An element type is totally ordered when [>=] is the negation of [<]. *)
Class TotalOrdered (T : Type) `{Ordered T} :=
  ge_is_not_lt : forall a b : T, op_ge a b = negb (op_lt a b).

(** All integer element types ([u16], [i16], [u32], [i32]) compare as
    integers. *)
#[export] Instance Z_Ordered : Ordered Z := {| op_lt := Z.ltb; op_ge := Z.geb |}.

#[export] Instance f32_Ordered : Ordered f32 := {| op_lt := f32_lt; op_ge := f32_ge |}.

Record vec2 (T : Type) := mk_vec2 { vx : T; vy : T }.
Record vec4 (T : Type) := mk_vec4 { v4x : T; v4y : T; v4z : T; v4w : T }.
Record rect (T : Type) := mk_rect { left : T; top : T; right : T; bottom : T }.
Record range (T : Type) := mk_range { range_start : T; range_end : T }.

Arguments mk_vec2 {T} _ _.
Arguments vx {T} _.
Arguments vy {T} _.
Arguments mk_vec4 {T} _ _ _ _.
Arguments mk_rect {T} _ _ _ _.
Arguments left {T} _.
Arguments top {T} _.
Arguments right {T} _.
Arguments bottom {T} _.
Arguments mk_range {T} _ _.

Definition u16x2 := vec2 u16.
Definition u16r := rect u16.
Definition i16r := rect i16.
Definition u32r := rect u32.
Definition i32r := rect i32.
Definition f32r := rect f32.

Section Rect.
Context {T : Type} `{Ordered T}.

(** [rect::empty] *)
Definition empty (r : rect T) : bool :=
  op_ge (left r) (right r) || op_ge (top r) (bottom r).

(** [rect::non_empty] *)
Definition non_empty (r : rect T) : bool :=
  op_lt (left r) (right r) && op_lt (top r) (bottom r).

End Rect.

(** No coordinate of the rectangle is a NaN. *)
Definition nan_free (r : f32r) : Prop :=
  f32_is_nan (left r) = false /\ f32_is_nan (top r) = false /\
  f32_is_nan (right r) = false /\ f32_is_nan (bottom r) = false.

(* ===================================================================== *)
(** ** A state-and-failure monad for member functions *)
(* ===================================================================== *)

(** Outcome of running a member function: it returns, it throws
    [std::bad_alloc], or it steps outside defined behaviour. *)
Inductive Res (A : Type) : Type :=
| Ok (a : A)
| Throw
| Undefined.

Arguments Ok {A} _.
Arguments Throw {A}.
Arguments Undefined {A}.

Definition M (S A : Type) : Type := S -> Res (A * S).

Definition ret {S A} (a : A) : M S A := fun s => Ok (a, s).

Definition bind {S A B} (m : M S A) (k : A -> M S B) : M S B :=
  fun s => match m s with
           | Ok (a, s') => k a s'
           | Throw => Throw
           | Undefined => Undefined
           end.

Definition throw {S A} : M S A := fun _ => Throw.
Definition undefined {S A} : M S A := fun _ => Undefined.
Definition gets {S A} (f : S -> A) : M S A := fun s => Ok (f s, s).
Definition modify {S} (f : S -> S) : M S unit := fun s => Ok (tt, f s).

#[export] Instance M_ret {S} : MRet (M S) := fun A => @ret S A.
#[export] Instance M_bind {S} : MBind (M S) := fun A B k m => @bind S A B m k.

(* ===================================================================== *)
(** ** [Buffer<T, Alignment>]: a fixed-size, move-only heap array *)
(* ===================================================================== *)

(** What [Buffer] needs to know about its element type: its size, and
    what default-initialisation does. The header instantiates [Buffer] with
    element types of two kinds. [u32] and [ShapedRow*] are trivial: default-
    initialisation stores nothing, the element is left uninitialised, and
    the destructor does nothing ([default_init = None]). [ShapedRow] is a
    class type: its default constructor makes a value [v], and its
    destructor has to run ([default_init = Some v]). *)
Class Element (T : Type) := {
  sizeof : positive;        (* [sizeof(T)] *)
  default_init : option T
}.

(** [__STDCPP_DEFAULT_NEW_ALIGNMENT__] of the 64-bit build. *)
Definition STDCPP_DEFAULT_NEW_ALIGNMENT : N := 16%N.

Definition size_t_bits : Z := 64.

Module Buffer.

(** A [T*]: null, or the [index]-th element slot of a block of storage
    obtained from [operator new]. *)
Inductive ptr :=
| null
| slot (block : nat) (index : N).

#[export] Instance ptr_eq_dec : EqDecision ptr.
Proof. solve_decision. Defined.

(** [p + n]; adding a positive offset to the null pointer is undefined. *)
Definition ptr_add (p : ptr) (n : N) : option ptr :=
  match p with
  | null => if (n =? 0)%N then Some null else None
  | slot b i => Some (slot b (i + n)%N)
  end.

Record t := mk { _data : ptr; _size : N }.

Section Members.
Context {T : Type} `{Element T}.
Variable Alignment : N.

(** Storage returned by [operator new]: its size in bytes, the alignment
    it was requested with ([None] for the plain overload), and one cell per
    element slot, holding the value of the element there; [None] for a slot
    that holds no value: raw storage, or an element of a trivial type that
    has not been given one. *)
Record Block := mk_Block {
  bytes : N;
  align : option N;
  cells : list (option T)
}.

(** What the run-time system is seen to do on behalf of a buffer. *)
Inductive Event :=
| Destroyed (block : nat) (index : N)   (* [std::destroy_n] ended an element *)
| Freed (block : nat).                  (* [operator delete] *)

(** The [Buffer] objects of the program (by identity; [None] once their
    lifetime has ended), the free store ([None] for a block given back),
    the bytes the free store can still hand out, and the events so far. *)
Record World := mk_World {
  objs : list (option t);
  heap : list (option Block);
  avail : N;
  trace : list Event
}.

Definition set_objs (f : list (option t) -> list (option t)) (w : World) : World :=
  {| objs := f (objs w); heap := heap w; avail := avail w; trace := trace w |}.

Definition set_heap (f : list (option Block) -> list (option Block)) (w : World) : World :=
  {| objs := objs w; heap := f (heap w); avail := avail w; trace := trace w |}.

Definition log (es : list Event) (w : World) : World :=
  {| objs := objs w; heap := heap w; avail := avail w; trace := trace w ++ es |}.

(** *** The free store *)

(** [::operator new(bytes)] and [::operator new(bytes, align_val_t)]: a
    fresh block, never the null pointer; [std::bad_alloc] when the store
    cannot supply the bytes. *)
Definition operator_new (n : N) (a : option N) : M World ptr := fun w =>
  if (n <=? avail w)%N then
    Ok (slot (length (heap w)) 0,
        {| objs := objs w;
           heap := heap w ++ [Some (mk_Block n a
                     (replicate (N.to_nat (n / Npos sizeof)) None))];
           avail := (avail w - n)%N;
           trace := trace w |})
  else Throw.

(** [::operator delete(p)] and [::operator delete(p, align_val_t)]: no
    effect on the null pointer; otherwise [p] must be the start of a block
    that is still allocated and was obtained with the same alignment. *)
Definition operator_delete (p : ptr) (a : option N) : M World unit := fun w =>
  match p with
  | null => Ok (tt, w)
  | slot b i =>
      match heap w !! b with
      | Some (Some blk) =>
          if decide (i = 0%N /\ align blk = a) then
            Ok (tt, {| objs := objs w;
                       heap := <[b := None]> (heap w);
                       avail := (avail w + bytes blk)%N;
                       trace := trace w ++ [Freed b] |})
          else Undefined
      | _ => Undefined
      end
  end.

(** The cells [index, index + n) of the block [p] points into; an empty
    range needs no storage. *)
Definition cells_at (w : World) (p : ptr) (n : nat) : option (list (option T)) :=
  if decide (n = 0%nat) then Some []
  else match p with
       | null => None
       | slot b i =>
           match heap w !! b with
           | Some (Some blk) =>
               if decide (N.to_nat i + n <= length (cells blk))%nat
               then Some (take n (drop (N.to_nat i) (cells blk)))
               else None
           | _ => None
           end
       end.

(** Overwrite the cells starting at [p] with [cs]; they must lie inside
    the block. *)
Definition put_cells (p : ptr) (cs : list (option T)) : M World unit := fun w =>
  match cs, p with
  | [], _ => Ok (tt, w)
  | _, null => Undefined
  | _, slot b i =>
      match heap w !! b with
      | Some (Some blk) =>
          if decide (N.to_nat i + length cs <= length (cells blk))%nat
          then Ok (tt, set_heap (<[b := Some (mk_Block (bytes blk) (align blk)
                         (take (N.to_nat i) (cells blk) ++ cs ++
                          drop (N.to_nat i + length cs) (cells blk)))]>) w)
          else Undefined
      | _ => Undefined
      end
  end.

(** Read the [n] elements starting at [p]. Every one of them must hold a
    value: reading raw storage, or an element that was never given a value,
    is undefined. *)
Definition read_n (p : ptr) (n : N) : M World (list T) := fun w =>
  match cells_at w p (N.to_nat n) ≫= mapM id with
  | Some xs => Ok (xs, w)
  | None => Undefined
  end.

(** [*p] *)
Definition read (p : ptr) : M World T :=
  xs ← read_n p 1;
  match xs with
  | [x] => mret x
  | _ => undefined
  end.

(** [std::uninitialized_default_construct_n(p, n)]. For a class type the
    default constructor runs on each of the [n] slots, which must lie inside
    the block. For a trivial type nothing is written: the storage is left
    as [operator new] returned it. *)
Definition uninitialized_default_construct_n (p : ptr) (n : N) : M World unit :=
  match default_init with
  | Some v => put_cells p (replicate (N.to_nat n) (Some v))
  | None => mret tt
  end.

(** [std::uninitialized_copy_n(src, n, dst)] *)
Definition uninitialized_copy_n (src : ptr) (n : N) (dst : ptr) : M World unit :=
  xs ← read_n src n;
  put_cells dst (Some <$> xs).

(** [std::destroy_n(p, n)]: ends the [n] elements, first to last. For a
    class type the destructor of each runs, so they must all be alive. For a
    trivial type there is no destructor to run and the storage is not
    touched. *)
Definition destroy_n (p : ptr) (n : N) : M World unit :=
  match default_init with
  | Some _ => read_n p n;; put_cells p (replicate (N.to_nat n) None)
  | None => mret tt
  end;;
  match p with
  | null => mret tt
  | slot b i => modify (log ((fun k => Destroyed b (i + N.of_nat k)%N) <$> seq 0 (N.to_nat n)))
  end.

(** *** Fields of a buffer object *)

Definition load (this : nat) : M World t := fun w =>
  match objs w !! this with
  | Some (Some b) => Ok (b, w)
  | _ => Undefined
  end.

Definition store (this : nat) (b : t) : M World unit := fun w =>
  match objs w !! this with
  | Some (Some _) => Ok (tt, set_objs (<[this := Some b]>) w)
  | _ => Undefined
  end.

(** Begin the lifetime of a new buffer object and return its identity. *)
Definition construct (b : t) : M World nat := fun w =>
  Ok (length (objs w), set_objs (fun os => os ++ [Some b]) w).

Definition end_lifetime (this : nat) : M World unit := fun w =>
  match objs w !! this with
  | Some (Some _) => Ok (tt, set_objs (<[this := None]>) w)
  | _ => Undefined
  end.

Definition set_data (this : nat) (p : ptr) : M World unit :=
  b ← load this; store this (mk p (_size b)).

Definition set_size (this : nat) (n : N) : M World unit :=
  b ← load this; store this (mk (_data b) n).

(** [std::exchange(other._data, p)] *)
Definition exchange_data (other : nat) (p : ptr) : M World ptr :=
  b ← load other; set_data other p;; mret (_data b).

(** [std::exchange(other._size, n)] *)
Definition exchange_size (other : nat) (n : N) : M World N :=
  b ← load other; set_size other n;; mret (_size b).

(** *** Members *)

(** [static T* allocate(size_t size)]; the byte count [size * sizeof(T)]
    is computed in [size_t]. *)
Definition allocate (size : N) : M World ptr :=
  if (size =? 0)%N then mret null
  else
    let n := Z.to_N (wrap_u size_t_bits (Z.of_N size * Zpos sizeof)) in
    if (Alignment <=? STDCPP_DEFAULT_NEW_ALIGNMENT)%N
    then operator_new n None
    else operator_new n (Some Alignment).

(** [static void deallocate(T* data)] *)
Definition deallocate (data : ptr) : M World unit :=
  if (Alignment <=? STDCPP_DEFAULT_NEW_ALIGNMENT)%N
  then operator_delete data None
  else operator_delete data (Some Alignment).

(** [void destroy()] *)
Definition destroy (this : nat) : M World unit :=
  b ← load this;
  destroy_n (_data b) (_size b);;
  deallocate (_data b).

(** [constexpr Buffer() noexcept = default] *)
Definition Buffer_default : M World nat := construct (mk null 0).

(** [explicit Buffer(size_t size)] *)
Definition Buffer_size (size : N) : M World nat :=
  d ← allocate size;
  this ← construct (mk d size);
  uninitialized_default_construct_n d size;;
  mret this.

(** [Buffer(const T* data, size_t size)] *)
Definition Buffer_copy_n (data : ptr) (size : N) : M World nat :=
  d ← allocate size;
  this ← construct (mk d size);
  uninitialized_copy_n data size d;;
  mret this.

(** [~Buffer()] *)
Definition Buffer_destroy (this : nat) : M World unit :=
  destroy this;;
  end_lifetime this.

(** [Buffer(Buffer&& other) noexcept] *)
Definition Buffer_move (other : nat) : M World nat :=
  d ← exchange_data other null;
  s ← exchange_size other 0;
  construct (mk d s).

(** [Buffer& operator=(Buffer&& other) noexcept] *)
Definition assign_move (this other : nat) : M World unit :=
  destroy this;;
  d ← exchange_data other null;
  set_data this d;;
  s ← exchange_size other 0;
  set_size this s.

(** [explicit operator bool() const noexcept] *)
Definition operator_bool (this : nat) : M World bool :=
  b ← load this; mret (bool_decide (_data b <> null)).

(** [T* data() noexcept] *)
Definition data (this : nat) : M World ptr :=
  b ← load this; mret (_data b).

(** [size_t size() const noexcept] *)
Definition size (this : nat) : M World N :=
  b ← load this; mret (_size b).

(** [T* begin() noexcept] *)
Definition begin (this : nat) : M World ptr :=
  b ← load this; mret (_data b).

(** [T* end() noexcept]: [_data + _size]. *)
Definition end_ (this : nat) : M World ptr :=
  b ← load this;
  match ptr_add (_data b) (_size b) with
  | Some e => mret e
  | None => undefined
  end.

(** [T& operator[](size_t index)]; [assert(index < _size)]. *)
Definition operator_index (this : nat) (index : N) : M World T :=
  b ← load this;
  if (index <? _size b)%N then
    match ptr_add (_data b) index with
    | Some p => read p
    | None => undefined
    end
  else undefined.

(** [for (p = first; p != last; ++p)], collecting the elements visited;
    [fuel] bounds the number of iterations. *)
Fixpoint visit (fuel : nat) (p last : ptr) : M World (list T) :=
  if decide (p = last) then mret []
  else match fuel with
       | O => undefined
       | S fuel' =>
           x ← read p;
           match ptr_add p 1 with
           | Some p' => xs ← visit fuel' p' last; mret (x :: xs)
           | None => undefined
           end
       end.

(** Iteration from [begin()] to [end()]. *)
Definition iterate (fuel : nat) (this : nat) : M World (list T) :=
  first ← begin this;
  last ← end_ this;
  visit fuel first last.

(** Every way the header lets a program create, overwrite or end a
    buffer. *)
Inductive op :=
| Default
| Size (size : N)
| CopyN (data : ptr) (size : N)
| Move (other : nat)
| AssignMove (this other : nat)
| Destroy (this : nat).

Definition run (o : op) : M World unit :=
  match o with
  | Default => Buffer_default;; mret tt
  | Size n => Buffer_size n;; mret tt
  | CopyN p n => Buffer_copy_n p n;; mret tt
  | Move other => Buffer_move other;; mret tt
  | AssignMove this other => assign_move this other
  | Destroy this => Buffer_destroy this
  end.

(** The states a program reaches from one without buffers by the
    operations above. *)
Inductive reachable : World -> Prop :=
| reachable_start (w : World) : objs w = [] -> reachable w
| reachable_step (o : op) (w w' : World) :
    reachable w -> run o w = Ok (tt, w') -> reachable w'.

(** The buffer object [i], when it is alive. *)
Definition object (w : World) (i : nat) : option t :=
  match objs w !! i with
  | Some (Some b) => Some b
  | _ => None
  end.

(** [size() == 0] exactly when [data() == nullptr]. *)
Definition consistent (b : t) : Prop := _size b = 0%N <-> _data b = null.

Definition all_consistent (w : World) : Prop :=
  Forall (fun o => match o with Some b => consistent b | None => True end) (objs w).

(** [p] points to [xs]: reading [length xs] elements at [p] gives [xs]. *)
Definition array_at (w : World) (p : ptr) (xs : list T) : Prop :=
  cells_at w p (length xs) = Some (Some <$> xs).

(** The alignment argument of the [operator new] overload in use. *)
Definition new_alignment : option N :=
  if (Alignment <=? STDCPP_DEFAULT_NEW_ALIGNMENT)%N then None else Some Alignment.

(** The cells of a block are [n] constructed elements. For a trivial type
    nothing is asked: its elements may be uninitialised. *)
Definition constructed (B : Block) (n : N) : Prop :=
  match default_init with
  | Some _ => exists xs, cells B = Some <$> xs /\ length xs = N.to_nat n
  | None => True
  end.

(** The buffer [b] owns its storage: it is empty, or [_data] is the start
    of an allocated block, obtained with the alignment [deallocate] will
    name, whose cells are the [_size] elements. *)
Definition owns (w : World) (b : t) : Prop :=
  match _data b with
  | null => _size b = 0%N
  | slot blk i =>
      i = 0%N /\ _size b <> 0%N /\
      exists B, heap w !! blk = Some (Some B) /\
        align B = new_alignment /\
        constructed B (_size b)
  end.

(** No two live buffers point into the same block. *)
Definition separate (w : World) : Prop :=
  forall (i j : nat) (b c : t) (blk : nat) (k k' : N),
    i <> j -> object w i = Some b -> object w j = Some c ->
    _data b = slot blk k -> _data c <> slot blk k'.

(** Exclusive ownership: every live buffer owns its storage, and no block
    is owned twice. *)
Definition exclusive (w : World) : Prop :=
  (forall (i : nat) (b : t), object w i = Some b -> owns w b) /\ separate w.

(** Assigning a buffer to itself is not a supported use. *)
Definition supported (o : op) : Prop :=
  match o with
  | AssignMove this other => this <> other
  | _ => True
  end.

(** The states reached by supported operations only. *)
Inductive reachable_supported : World -> Prop :=
| supported_start (w : World) : objs w = [] -> reachable_supported w
| supported_step (o : op) (w w' : World) :
    reachable_supported w -> supported o -> run o w = Ok (tt, w') ->
    reachable_supported w'.

End Members.

Arguments World T : clear implicits.
Arguments Block T : clear implicits.

End Buffer.

(** [u32] elements ([Buffer<u32, 32> backgroundBitmap]): four bytes, left
    uninitialised by default-initialisation. *)
#[export] Instance u32_Element : Element u32 := {| sizeof := 4; default_init := None |}.

(* ===================================================================== *)
(** ** [FontFace]: a COM handle with a soft-font sentinel *)
(* ===================================================================== *)

(** A raw pointer is its address; [nullptr] is address [0]. *)
Definition pointer := N.
Definition nullptr : pointer := 0%N.

(** [IDWriteFontFace] is declared by DirectWrite; the only thing the header
    depends on is the size of one such object, by which [ptr + 1] advances. *)
Class Platform := { sizeof_IDWriteFontFace : positive }.

(** The 64-bit build: an interface object is one vtable pointer. *)
Definition x64 : Platform := {| sizeof_IDWriteFontFace := 8 |}.

Module FontFace.

(** The two reference-count entry points of [IUnknown]. *)
Inductive RefCall :=
| AddRef (p : pointer)
| Release (p : pointer).

Definition callee (c : RefCall) : pointer :=
  match c with AddRef p => p | Release p => p end.

Record t := mk { _ptr : pointer }.

(** The handles alive in the program (indexed by identity; [None] once
    destroyed) and the reference-count calls made so far, oldest first. *)
Record World := mk_World { faces : list (option t); calls : list RefCall }.

Definition World0 : World := {| faces := []; calls := [] |}.

Section Members.
Context `{Platform}.

(** [static_cast<IDWriteFontFace*>(p) + k] *)
Definition ptr_add (p : pointer) (k : N) : pointer :=
  (p + k * Npos sizeof_IDWriteFontFace)%N.

(** [#define IDWriteFontFace_SoftFont (static_cast<IDWriteFontFace*>(nullptr) + 1)] *)
Definition IDWriteFontFace_SoftFont : pointer := ptr_add nullptr 1.

Definition load (this : nat) : M World t := fun w =>
  match faces w !! this with
  | Some (Some f) => Ok (f, w)
  | _ => Undefined
  end.

Definition store (this : nat) (f : t) : M World unit := fun w =>
  match faces w !! this with
  | Some (Some _) => Ok (tt, {| faces := <[this := Some f]> (faces w); calls := calls w |})
  | _ => Undefined
  end.

(** Begin the lifetime of a new handle object and return its identity. *)
Definition construct (f : t) : M World nat := fun w =>
  Ok (length (faces w), {| faces := faces w ++ [Some f]; calls := calls w |}).

Definition end_lifetime (this : nat) : M World unit := fun w =>
  match faces w !! this with
  | Some (Some _) => Ok (tt, {| faces := <[this := None]> (faces w); calls := calls w |})
  | _ => Undefined
  end.

Definition call (c : RefCall) : M World unit :=
  modify (fun w => {| faces := faces w; calls := calls w ++ [c] |}).

(** [IDWriteFontFace* get() const] *)
Definition get (this : nat) : M World pointer :=
  f ← load this; mret (_ptr f).

(** [bool is_proper_font() const]: [_ptr > IDWriteFontFace_SoftFont]. *)
Definition is_proper (p : pointer) : bool := (IDWriteFontFace_SoftFont <? p)%N.

Definition is_proper_font (this : nat) : M World bool :=
  f ← load this; mret (is_proper (_ptr f)).

(** [void _addRef() const] *)
Definition _addRef (this : nat) : M World unit :=
  b ← is_proper_font this;
  if (b : bool) then (f ← load this; call (AddRef (_ptr f))) else mret tt.

(** [void _release() const] *)
Definition _release (this : nat) : M World unit :=
  b ← is_proper_font this;
  if (b : bool) then (f ← load this; call (Release (_ptr f))) else mret tt.

(** [IDWriteFontFace* detach()] *)
Definition detach (this : nat) : M World pointer :=
  f ← load this;
  let tmp := _ptr f in
  store this (mk nullptr);;
  mret tmp.

(** [void attach(IDWriteFontFace* other)] *)
Definition attach (this : nat) (other : pointer) : M World unit :=
  _release this;;
  store this (mk other).

(** [FontFace() = default] *)
Definition FontFace_default : M World nat := construct (mk nullptr).

(** [FontFace(IDWriteFontFace* ptr)] *)
Definition FontFace_ptr (ptr : pointer) : M World nat :=
  this ← construct (mk ptr);
  _addRef this;;
  mret this.

(** [FontFace(const FontFace& other)], delegating to [FontFace(other.get())]. *)
Definition FontFace_copy (other : nat) : M World nat :=
  p ← get other;
  FontFace_ptr p.

(** [FontFace(FontFace&& other)]: [_ptr{ other.detach() }]. *)
Definition FontFace_move (other : nat) : M World nat :=
  p ← detach other;
  construct (mk p).

(** [FontFace(const wil::com_ptr<IDWriteFontFace>& other)]; the smart
    pointer is given by the raw pointer it holds. *)
Definition FontFace_com_ptr_copy (other : pointer) : M World nat :=
  FontFace_ptr other.

(** [FontFace(wil::com_ptr<IDWriteFontFace>&& other)]: the pointer is
    taken over as it is (and the smart pointer left null). *)
Definition FontFace_com_ptr_move (other : pointer) : M World nat :=
  construct (mk other).

(** [FontFace& operator=(const FontFace& other)] *)
Definition assign_copy (this other : nat) : M World unit :=
  _release this;;
  p ← get other;
  store this (mk p);;
  _addRef this.

(** [FontFace& operator=(FontFace&& other)] *)
Definition assign_move (this other : nat) : M World unit :=
  _release this;;
  p ← detach other;
  store this (mk p).

(** [~FontFace()] *)
Definition destroy (this : nat) : M World unit :=
  _release this;;
  end_lifetime this.

(** Every way the header lets a program create, overwrite or end a
    handle. *)
Inductive op :=
| Default
| FromPtr (ptr : pointer)
| FromComPtrCopy (ptr : pointer)
| FromComPtrMove (ptr : pointer)
| Copy (other : nat)
| Move (other : nat)
| AssignCopy (this other : nat)
| AssignMove (this other : nat)
| Attach (this : nat) (ptr : pointer)
| Detach (this : nat)
| Destroy (this : nat).

Definition run (o : op) : M World unit :=
  match o with
  | Default => FontFace_default;; mret tt
  | FromPtr p => FontFace_ptr p;; mret tt
  | FromComPtrCopy p => FontFace_com_ptr_copy p;; mret tt
  | FromComPtrMove p => FontFace_com_ptr_move p;; mret tt
  | Copy other => FontFace_copy other;; mret tt
  | Move other => FontFace_move other;; mret tt
  | AssignCopy this other => assign_copy this other
  | AssignMove this other => assign_move this other
  | Attach this p => attach this p
  | Detach this => detach this;; mret tt
  | Destroy this => destroy this
  end.

(** The calls [_release] and [_addRef] make on a handle that stores [p]
    (shown below to be what the member functions do). *)
Definition release_calls (p : pointer) : list RefCall :=
  if is_proper p then [Release p] else [].

Definition addRef_calls (p : pointer) : list RefCall :=
  if is_proper p then [AddRef p] else [].

End Members.

(** The handle objects an operation names. *)
Definition operands (o : op) : list nat :=
  match o with
  | Default | FromPtr _ | FromComPtrCopy _ | FromComPtrMove _ => []
  | Copy other | Move other => [other]
  | AssignCopy this other | AssignMove this other => [this; other]
  | Attach this _ | Detach this | Destroy this => [this]
  end.

(** The raw pointer an operation is given, if any. *)
Definition raw_argument (o : op) : list pointer :=
  match o with
  | FromPtr p | FromComPtrCopy p | FromComPtrMove p | Attach _ p => [p]
  | _ => []
  end.

(** The pointer stored in handle [i], when it is alive. *)
Definition stored (w : World) (i : nat) : option pointer :=
  match faces w !! i with
  | Some (Some f) => Some (_ptr f)
  | _ => None
  end.

(** Every operand of the operation is a live handle. *)
Definition alive (w : World) (o : op) : Prop :=
  Forall (fun i => is_Some (stored w i)) (operands o).

(** The pointer values an operation gets to see: those stored in its
    operands, and its raw argument. *)
Definition pointers_involved (w : World) (o : op) : list pointer :=
  omap (stored w) (operands o) ++ raw_argument o.

(** The pointer stored in handle [i] before the operation. *)
Definition held (w : World) (i : nat) : pointer := default nullptr (stored w i).

(** Summary of the reference-count calls of each operation, in order
    (shown below to be what [run] appends to the log). *)
Definition refcount_calls `{Platform} (w : World) (o : op) : list RefCall :=
  match o with
  | Default | FromComPtrMove _ | Move _ | Detach _ => []
  | FromPtr p | FromComPtrCopy p => addRef_calls p
  | Copy other => addRef_calls (held w other)
  | AssignCopy this other => release_calls (held w this) ++ addRef_calls (held w other)
  | AssignMove this _ | Attach this _ | Destroy this => release_calls (held w this)
  end.

End FontFace.

(* ===================================================================== *)
(** ** Generational settings *)
(* ===================================================================== *)

(** Modelled from the spec: [til::generation_t] is declared in
    [til/generational.h], which is not part of this header. The spec
    describes it as a version number that consumers remember and compare,
    [0] standing for "never observed". *)
Definition generation_t := u32.

(** Modelled from the spec: [til::generational<T>], declared in the same
    missing header, is described as a value paired with a generation number;
    the generation is given at construction, read without being changed, and
    incremented by every mutating access. *)
Record generational (T : Type) := mk_generational {
  _generation : generation_t;
  _value : T
}.

Arguments mk_generational {T} _ _.
Arguments _generation {T} _.
Arguments _value {T} _.

(** Modelled from the spec: reading the generation does not change it. *)
Definition generation {T} (g : generational T) : generation_t := _generation g.

(** Modelled from the spec: read access to the wrapped value ([s->...]). *)
Definition deref {T} (g : generational T) : T := _value g.

(** Modelled from the spec: a mutating access increments the generation
    (a 32-bit counter). *)
Definition write {T} (f : T -> T) (g : generational T) : generational T :=
  {| _generation := wrap_u 32 (_generation g + 1); _value := f (_value g) |}.

(** Modelled from the spec: comparison of a generation with the one a
    consumer remembers. *)
Definition generation_eqb (a b : generation_t) : bool := a =? b.

(** A smart COM pointer ([wil::com_ptr]) and a window handle, by address. *)
Definition com_ptr := pointer.
Definition HWND := pointer.

(** A [std::wstring], by its UTF-16 code units. *)
Definition wstring := list u16.

Record TargetSettings := mk_TargetSettings {
  hwnd : HWND;
  enableTransparentBackground : bool;
  useSoftwareRendering : bool
}.

Definition TargetSettings_default : TargetSettings :=
  {| hwnd := nullptr; enableTransparentBackground := false;
     useSoftwareRendering := false |}.

(** [D2D1_TEXT_ANTIALIAS_MODE_CLEARTYPE] of Direct2D. *)
Definition D2D1_TEXT_ANTIALIAS_MODE_CLEARTYPE : u8 := 1.
Definition DefaultAntialiasingMode : u8 := D2D1_TEXT_ANTIALIAS_MODE_CLEARTYPE.

Record DWRITE_FONT_FEATURE := { nameTag : u32; parameter : u32 }.
Record DWRITE_FONT_AXIS_VALUE := { axisTag : u32; axisValue : f32 }.
Record til_size := { width : CoordType; height : CoordType }.

Record FontSettings := mk_FontSettings {
  fontCollection : com_ptr;
  fontFamily : com_ptr;
  fontName : wstring;
  fontFeatures : list DWRITE_FONT_FEATURE;
  fontAxisValues : list DWRITE_FONT_AXIS_VALUE;
  fontSize : f32;
  advanceScale : f32;
  cellSize : u16x2;
  fontWeight : u16;
  baseline : u16;
  descender : u16;
  underlinePos : u16;
  underlineWidth : u16;
  strikethroughPos : u16;
  strikethroughWidth : u16;
  doubleUnderlinePos : u16x2;
  thinLineWidth : u16;
  dpi : u16;
  antialiasingMode : u8;
  softFontPattern : list u16;
  softFontCellSize : til_size;
  softFontCenteringHint : N
}.

Definition FontSettings_default : FontSettings :=
  {| fontCollection := nullptr; fontFamily := nullptr; fontName := [];
     fontFeatures := []; fontAxisValues := [];
     fontSize := f32_zero; advanceScale := f32_zero;
     cellSize := mk_vec2 0 0;
     fontWeight := 0; baseline := 0; descender := 0;
     underlinePos := 0; underlineWidth := 0;
     strikethroughPos := 0; strikethroughWidth := 0;
     doubleUnderlinePos := mk_vec2 0 0;
     thinLineWidth := 0; dpi := 96;
     antialiasingMode := DefaultAntialiasingMode;
     softFontPattern := [];
     softFontCellSize := {| width := 0; height := 0 |};
     softFontCenteringHint := 0%N |}.

Record CursorSettings := mk_CursorSettings {
  cursorColor : u32;
  cursorType : u16;
  heightPercentage : u16
}.

Definition CursorSettings_default : CursorSettings :=
  {| cursorColor := 4294967295; cursorType := 0; heightPercentage := 20 |}.

Record MiscellaneousSettings := mk_MiscellaneousSettings {
  backgroundColor : u32;
  selectionColor : u32;
  customPixelShaderPath : wstring;
  useRetroTerminalEffect : bool
}.

Definition MiscellaneousSettings_default : MiscellaneousSettings :=
  {| backgroundColor := 0; selectionColor := 2147483647;
     customPixelShaderPath := []; useRetroTerminalEffect := false |}.

Record Settings := mk_Settings {
  target : generational TargetSettings;
  font : generational FontSettings;
  cursor : generational CursorSettings;
  misc : generational MiscellaneousSettings;
  targetSize : u16x2;
  cellCount : u16x2
}.

Definition GenerationalSettings := generational Settings.

(** [inline GenerationalSettings DirtyGenerationalSettings() noexcept]:
    the outer tracker and the four groups are given generation 1; the groups
    hold their default values, and the two trailing members of [Settings],
    which have no initialiser in the braces, are value-initialised. *)
Definition DirtyGenerationalSettings : GenerationalSettings :=
  mk_generational 1
    {| target := mk_generational 1 TargetSettings_default;
       font := mk_generational 1 FontSettings_default;
       cursor := mk_generational 1 CursorSettings_default;
       misc := mk_generational 1 MiscellaneousSettings_default;
       targetSize := mk_vec2 0 0;
       cellCount := mk_vec2 0 0 |}.

(* ===================================================================== *)
(** ** [FontMapping], [GridLineRange], [ShapedRow] *)
(* ===================================================================== *)

Record FontMapping := mk_FontMapping {
  fontFace : FontFace.t;
  fontEmSize : f32;
  glyphsFrom : u32;
  glyphsTo : u32
}.

(** A [GridLineSet] is a set of line flags, kept as a bit mask. *)
Definition GridLineSet := N.

Record GridLineRange := mk_GridLineRange {
  lines : GridLineSet;
  color : u32;
  from : u16;
  to : u16
}.

Record DWRITE_GLYPH_OFFSET := { advanceOffset : f32; ascenderOffset : f32 }.

(** [LineRendition] of the renderer's public interface. *)
Inductive LineRendition :=
| SingleWidth
| DoubleWidth
| DoubleHeightTop
| DoubleHeightBottom.

Record ShapedRow := mk_ShapedRow {
  mappings : list FontMapping;
  glyphIndices : list u16;
  glyphAdvances : list f32;
  glyphOffsets : list DWRITE_GLYPH_OFFSET;
  colors : list u32;
  gridLineRanges : list GridLineRange;
  lineRendition : LineRendition;
  selectionFrom : u16;
  selectionTo : u16;
  dirtyTop : CoordType;
  dirtyBottom : CoordType
}.

(** A default-constructed row. *)
Definition ShapedRow_default : ShapedRow :=
  {| mappings := []; glyphIndices := []; glyphAdvances := [];
     glyphOffsets := []; colors := []; gridLineRanges := [];
     lineRendition := SingleWidth; selectionFrom := 0; selectionTo := 0;
     dirtyTop := 0; dirtyBottom := 0 |}.

(** [ShapedRow] elements ([Buffer<ShapedRow> unorderedRows]): a class type
    whose default constructor makes the row above. Its size depends on the
    build and no property below depends on the figure; in the 64-bit build
    the six vectors take three pointers each and the other members the
    sixteen bytes that follow. *)
Definition ShapedRow_Element : Element ShapedRow :=
  {| sizeof := 160; default_init := Some ShapedRow_default |}.

(** [void ShapedRow::clear(u16 y, u16 cellHeight) noexcept].

    [y * cellHeight] multiplies two [u16] promoted to [int], and
    [dirtyTop + cellHeight] adds in [int]; both results are kept at that
    width. Emptying [mappings] ends the lifetime of the font-face handles in
    it: the second component lists the [Release] calls that makes, first
    mapping first. *)
Definition clear `{Platform} (y cellHeight : u16) (r : ShapedRow)
  : ShapedRow * list FontFace.RefCall :=
  let dirtyTop' := wrap_s int_bits (y * cellHeight) in
  ({| mappings := [];
      glyphIndices := [];
      glyphAdvances := [];
      glyphOffsets := [];
      colors := [];
      gridLineRanges := [];
      lineRendition := SingleWidth;
      selectionFrom := 0;
      selectionTo := 0;
      dirtyTop := dirtyTop';
      dirtyBottom := wrap_s int_bits (dirtyTop' + cellHeight) |},
   flat_map (fun m => FontFace.release_calls (FontFace._ptr (fontFace m))) (mappings r)).

(* ===================================================================== *)
(** ** [RenderingPayload] *)
(* ===================================================================== *)

(** A [std::function]: empty, or a callable known by a number. *)
Definition function := option N.

Record LUID := { LowPart : u32; HighPart : i32 }.

Record dxgi_t := mk_dxgi {
  factory : com_ptr;
  adapter : com_ptr;
  adapterLuid : LUID;
  adapterFlags : u32
}.

(** [til::rect]: four [CoordType] edges, in the order of [rect]. *)
Definition til_rect := rect CoordType.

Record RenderingPayload := mk_RenderingPayload {
  d2dFactory : com_ptr;
  dwriteFactory : com_ptr;
  dwriteFactory4 : com_ptr;
  systemFontFallback : com_ptr;
  systemFontFallback1 : com_ptr;
  textAnalyzer : com_ptr;
  renderingParams : com_ptr;
  warningCallback : function;
  swapChainChangedCallback : function;
  dxgi : dxgi_t;
  s : GenerationalSettings;
  unorderedRows : Buffer.t;
  rowsScratch : Buffer.t;
  rows : Buffer.t;
  backgroundBitmapStride : N;
  backgroundBitmap : Buffer.t;
  backgroundBitmapGeneration : generation_t;
  cursorRect : u16r;
  dirtyRectInPx : til_rect;
  invalidatedRows : u16x2;
  scrollOffset : i16
}.

(** A payload as its default member initialisers leave it. The settings
    member is default-constructed by [til::generational], which this header
    does not define: its value is taken as given. *)
Definition RenderingPayload_default (s0 : GenerationalSettings) : RenderingPayload :=
  {| d2dFactory := nullptr; dwriteFactory := nullptr; dwriteFactory4 := nullptr;
     systemFontFallback := nullptr; systemFontFallback1 := nullptr;
     textAnalyzer := nullptr; renderingParams := nullptr;
     warningCallback := None; swapChainChangedCallback := None;
     dxgi := {| factory := nullptr; adapter := nullptr;
                adapterLuid := {| LowPart := 0; HighPart := 0 |};
                adapterFlags := 0 |};
     s := s0;
     unorderedRows := Buffer.mk Buffer.null 0;
     rowsScratch := Buffer.mk Buffer.null 0;
     rows := Buffer.mk Buffer.null 0;
     backgroundBitmapStride := 0%N;
     backgroundBitmap := Buffer.mk Buffer.null 0;
     backgroundBitmapGeneration := 1;
     cursorRect := mk_rect 0 0 0 0;
     dirtyRectInPx := mk_rect 0 0 0 0;
     invalidatedRows := mk_vec2 0 0;
     scrollOffset := 0 |}.

(** [void RenderingPayload::MarkAllAsDirty() noexcept]; the [u16] sizes
    convert to [CoordType] without change of value. *)
Definition MarkAllAsDirty (p : RenderingPayload) : RenderingPayload :=
  {| d2dFactory := d2dFactory p; dwriteFactory := dwriteFactory p;
     dwriteFactory4 := dwriteFactory4 p;
     systemFontFallback := systemFontFallback p;
     systemFontFallback1 := systemFontFallback1 p;
     textAnalyzer := textAnalyzer p; renderingParams := renderingParams p;
     warningCallback := warningCallback p;
     swapChainChangedCallback := swapChainChangedCallback p;
     dxgi := dxgi p;
     s := s p;
     unorderedRows := unorderedRows p;
     rowsScratch := rowsScratch p;
     rows := rows p;
     backgroundBitmapStride := backgroundBitmapStride p;
     backgroundBitmap := backgroundBitmap p;
     backgroundBitmapGeneration := backgroundBitmapGeneration p;
     cursorRect := cursorRect p;
     dirtyRectInPx := mk_rect 0 0 (vx (targetSize (deref (s p))))
                                  (vy (targetSize (deref (s p))));
     invalidatedRows := mk_vec2 0 (vy (cellCount (deref (s p))));
     scrollOffset := 0 |}.

(** A payload whose settings carry the given target size and cell count. *)
Definition with_sizes (size count : u16x2) (p : RenderingPayload) : RenderingPayload :=
  {| d2dFactory := d2dFactory p; dwriteFactory := dwriteFactory p;
     dwriteFactory4 := dwriteFactory4 p;
     systemFontFallback := systemFontFallback p;
     systemFontFallback1 := systemFontFallback1 p;
     textAnalyzer := textAnalyzer p; renderingParams := renderingParams p;
     warningCallback := warningCallback p;
     swapChainChangedCallback := swapChainChangedCallback p;
     dxgi := dxgi p;
     s := write (fun st => {| target := target st; font := font st;
                              cursor := cursor st; misc := misc st;
                              targetSize := size; cellCount := count |}) (s p);
     unorderedRows := unorderedRows p;
     rowsScratch := rowsScratch p;
     rows := rows p;
     backgroundBitmapStride := backgroundBitmapStride p;
     backgroundBitmap := backgroundBitmap p;
     backgroundBitmapGeneration := backgroundBitmapGeneration p;
     cursorRect := cursorRect p;
     dirtyRectInPx := dirtyRectInPx p;
     invalidatedRows := invalidatedRows p;
     scrollOffset := scrollOffset p |}.

(* ===================================================================== *)
(** ** The row cache under vertical scrolling *)
(* ===================================================================== *)

Module RowCache.

(** The three row buffers of the payload, by content: the backing store
    of shaped rows, and two sequences of pointers into it, each pointer
    given by the storage slot it points to. [marked] lists the slots
    marked for re-shaping by the last scroll. *)
Record t := mk {
  unorderedRows : list ShapedRow;
  rowsScratch : list nat;
  rows : list nat;
  marked : list nat
}.

(** Modelled from the spec (part of [scroll] below): the first screen
    position that is copied to the top of the new ordering: [n] when the view moves down by [n >= 0] rows, and [len - |n|]
    when it moves up. *)
Definition pivot (n : Z) (len : nat) : nat :=
  if 0 <=? n then Z.to_nat n else (len - Z.to_nat (- n))%nat.

(** Modelled from the spec (part of [scroll] below): the rows whose
    previous screen position is out of view after a scroll by [n]: the first [n] for [n >= 0], the last [|n|] otherwise. *)
Definition recycled (n : Z) (rs : list nat) : list nat :=
  if 0 <=? n then take (pivot n (length rs)) rs else drop (pivot n (length rs)) rs.

(** Modelled from the spec: the scrolling code that uses [rowsScratch]
    lives in the engine, not in this header. The spec says that on a scroll
    by [n] rows the cache copies the pointers of the old ordering, shifted by
    [n], into [rowsScratch], fills the [|n|] newly exposed positions with the
    recycled rows (those whose previous screen position is now out of view),
    marks exactly those for re-shaping, and then swaps [rows] and
    [rowsScratch]; with rows [A, B, C, D] and [n = +1] the new ordering is
    [B, C, D, A]. *)
Definition scroll (n : Z) (c : t) : t :=
  let m := pivot n (length (rows c)) in
  let scratch := drop m (rows c) ++ take m (rows c) in
  {| unorderedRows := unorderedRows c;
     rowsScratch := rows c;
     rows := scratch;
     marked := recycled n (rows c) |}.

(** [rows] holds pointers into [unorderedRows], no slot twice. *)
Definition well_formed (c : t) : Prop :=
  NoDup (rows c) /\ Forall (fun slot => (slot < length (unorderedRows c))%nat) (rows c).

(** The screen position [j] is still in view after a scroll by [n]: the
    row there moves to position [j - n]. *)
Definition in_view (n : Z) (len j : nat) : Prop :=
  0 <= Z.of_nat j - n < Z.of_nat len.

End RowCache.

(* ===================================================================== *)
(** ** Flag operators ([ATLAS_FLAG_OPS]) and [FontRelevantAttributes] *)
(* ===================================================================== *)

Definition is_u8 (x : Z) : Prop := 0 <= x <= 255.

(** [ATLAS_FLAG_OPS(type, u8)]: each operator converts its operands to the
    underlying [u8], which is promoted to [int] for the bit operation, and
    converts the result back to the enumeration, that is to [u8]. An
    enumeration value is given by its underlying value. *)
Module FlagOps.

(** [constexpr type operator~(type v)] *)
Definition operator_not (v : u8) : u8 := wrap_u 8 (Z.lnot v).

(** [constexpr type operator|(type lhs, type rhs)] *)
Definition operator_or (lhs rhs : u8) : u8 := wrap_u 8 (Z.lor lhs rhs).

(** [constexpr type operator&(type lhs, type rhs)] *)
Definition operator_and (lhs rhs : u8) : u8 := wrap_u 8 (Z.land lhs rhs).

(** [constexpr type operator^(type lhs, type rhs)] *)
Definition operator_xor (lhs rhs : u8) : u8 := wrap_u 8 (Z.lxor lhs rhs).

(** [operator|=], [operator&=], [operator^=]: [lhs = lhs op rhs]; the new
    value of [lhs] is returned. *)
Definition operator_or_assign (lhs rhs : u8) : u8 := operator_or lhs rhs.
Definition operator_and_assign (lhs rhs : u8) : u8 := operator_and lhs rhs.
Definition operator_xor_assign (lhs rhs : u8) : u8 := operator_xor lhs rhs.

End FlagOps.

(** [enum class FontRelevantAttributes : u8] *)
Module FontRelevantAttributes.
Definition None : u8 := 0.
Definition Bold : u8 := 1.
Definition Italic : u8 := 2.
End FontRelevantAttributes.

(* ===================================================================== *)
(** ** Object representations and [ATLAS_POD_OPS] *)
(* ===================================================================== *)

Module Pod.

(** The [n] bytes of an integer, least significant first (all targets of
    the renderer are little-endian). *)
Fixpoint le_bytes (n : nat) (x : Z) : list Z :=
  match n with
  | O => []
  | S n' => x mod 256 :: le_bytes n' (x / 256)
  end.

(** Object representation of an [n]-byte integer, signed or unsigned:
    the bytes of its value modulo [2 ^ (8 n)]. *)
Definition int_repr (n : nat) (x : Z) : list Z :=
  le_bytes n (wrap_u (8 * Z.of_nat n) x).

(** Object representation of a [float]: the four bytes of its pattern. *)
Definition f32_repr (x : f32) : list Z := le_bytes 4 (Z.of_N x).

(** [__builtin_memcmp(a, b, n)] on two representations of [n] bytes:
    the sign of the first difference, [0] when there is none. *)
Fixpoint memcmp (a b : list Z) : Z :=
  match a, b with
  | x :: a', y :: b' =>
      if x <? y then -1 else if y <? x then 1 else memcmp a' b'
  | _, _ => 0
  end.

Section Structs.
Context {T : Type}.
Variable repr : T -> list Z.

(** The members of the four templates are laid out in declaration order,
    without padding since they all have the same type. *)
Definition vec2_repr (v : vec2 T) : list Z := repr (vx v) ++ repr (vy v).

Definition vec4_repr (v : vec4 T) : list Z :=
  repr (v4x T v) ++ repr (v4y T v) ++ repr (v4z T v) ++ repr (v4w T v).

Definition rect_repr (r : rect T) : list Z :=
  repr (left r) ++ repr (top r) ++ repr (right r) ++ repr (bottom r).

Definition range_repr (r : range T) : list Z :=
  repr (range_start T r) ++ repr (range_end T r).

End Structs.

(** [CursorSettings]: a [u32] at offset 0 and two [u16] at offsets 4 and
    6; 8 bytes, no padding. *)
Definition CursorSettings_repr (c : CursorSettings) : list Z :=
  int_repr 4 (cursorColor c) ++ int_repr 2 (cursorType c) ++
  int_repr 2 (heightPercentage c).

(** [ATLAS_POD_OPS(type)]:
    [operator==] is [__builtin_memcmp(this, &rhs, sizeof(rhs)) == 0] and
    [operator!=] is the negation of [operator==]; the object is given by
    its representation. *)
Definition operator_eq {A} (repr : A -> list Z) (lhs rhs : A) : bool :=
  memcmp (repr lhs) (repr rhs) =? 0.

Definition operator_ne {A} (repr : A -> list Z) (lhs rhs : A) : bool :=
  negb (operator_eq repr lhs rhs).

(** The values of an [n]-byte integer type: unsigned, or signed. *)
Definition in_range (signed : bool) (n : nat) (x : Z) : Prop :=
  if signed then - 2 ^ (8 * Z.of_nat n - 1) <= x < 2 ^ (8 * Z.of_nat n - 1)
  else 0 <= x < 2 ^ (8 * Z.of_nat n).

End Pod.

(* ===================================================================== *)
(** ** References held by font-face handles *)
(* ===================================================================== *)

Module RefCount.
Import FontFace.

#[export] Instance RefCall_eq_dec : EqDecision RefCall.
Proof. solve_decision. Defined.

#[export] Instance face_eq_dec : EqDecision FontFace.t.
Proof. solve_decision. Defined.

(** How often [x] occurs in [l]. *)
Definition occurrences {A} `{EqDecision A} (x : A) (l : list A) : Z :=
  Z.of_nat (length (filter (fun y => y = x) l)).

(** The live handles that store [p]. *)
Definition holders (w : World) (p : pointer) : Z :=
  occurrences (Some (mk p)) (faces w).

(** The references the handles have taken on [p] and not given back:
    [AddRef] calls minus [Release] calls. *)
Definition outstanding (w : World) (p : pointer) : Z :=
  occurrences (AddRef p) (calls w) - occurrences (Release p) (calls w).

(** [1] when the two pointers are the same, [0] otherwise. *)
Definition same (p q : pointer) : Z := if decide (p = q) then 1 else 0.

(** The references an operation takes over from its caller (counted
    positive) or hands over to its caller (negative) without a call:
    construction from a smart pointer that is moved in, [attach] and
    [detach]. *)
Definition adopted (w : World) (o : op) (p : pointer) : Z :=
  match o with
  | FromComPtrMove q | Attach _ q => same q p
  | Detach this => - same (held w this) p
  | _ => 0
  end.

(** Assigning a handle to itself by move is not a supported use. *)
Definition supported (o : op) : Prop :=
  match o with
  | AssignMove this other => this <> other
  | _ => True
  end.

(** The operations that take and give back their references themselves:
    all but the three above, and no self-assignment by move. *)
Definition internal (o : op) : Prop :=
  match o with
  | FromComPtrMove _ | Attach _ _ | Detach _ => False
  | AssignMove this other => this <> other
  | _ => True
  end.

(** A program as the sequence of its operations on handles. *)
Fixpoint run_all `{Platform} (os : list op) : M World unit :=
  match os with
  | [] => mret tt
  | o :: os' => run o;; run_all os'
  end.

End RefCount.

(* ===================================================================== *)
(** ** Properties *)
(* ===================================================================== *)

Lemma Z_ge_is_not_lt (a b : Z) : (a >=? b) = negb (a <? b).
Proof. rewrite Z.geb_leb, Z.ltb_antisym, negb_involutive. reflexivity. Qed.

#[export] Instance Z_TotalOrdered : TotalOrdered Z.
Proof. exact Z_ge_is_not_lt. Qed.

(** On a totally ordered element type [empty] is the negation of
    [non_empty] (De Morgan). *)
Lemma empty_negb_non_empty {T : Type} `{TotalOrdered T} (r : rect T) :
  empty r = negb (non_empty r).
Proof.
  unfold empty, non_empty.
  rewrite !ge_is_not_lt, negb_andb. reflexivity.
Qed.

(** Away from NaN, [>=] on [f32] is the negation of [<]. *)
Lemma f32_ge_is_not_lt (a b : f32) :
  f32_is_nan a = false -> f32_is_nan b = false ->
  f32_ge a b = negb (f32_lt a b).
Proof.
  intros Ha Hb. unfold f32_ge, f32_lt. rewrite Ha, Hb. simpl.
  apply Z_ge_is_not_lt.
Qed.

Lemma negb_complement (a b : bool) : a = negb b -> (a = true <-> b = false).
Proof. intros ->. destruct b; simpl; split; congruence. Qed.

(** Away from NaN the two tests are complements on [f32r] as well. *)
Lemma rect_f32_complement (r : f32r) :
  nan_free r -> (empty r = true <-> non_empty r = false).
Proof.
  intros (Hl & Ht & Hr & Hb). apply negb_complement.
  unfold empty, non_empty, op_ge, op_lt, f32_Ordered.
  rewrite (f32_ge_is_not_lt _ _ Hl Hr), (f32_ge_is_not_lt _ _ Ht Hb), negb_andb.
  reflexivity.
Qed.

(** C10 (amended): on the integer rectangles [u16r], [i16r], [u32r] and
    [i32r], whose coordinates compare as integers, [empty()] returns true
    if and only if [non_empty()] returns false; on [f32r] this holds for
    every rectangle none of whose coordinates is a NaN. *)
Theorem rect_empty_iff_not_non_empty :
  (forall r : rect Z, empty r = true <-> non_empty r = false) /\
  (forall r : f32r, nan_free r -> (empty r = true <-> non_empty r = false)).
Proof.
  split.
  - intros r. apply negb_complement, empty_negb_non_empty.
  - exact rect_f32_complement.
Qed.

Lemma rect_empty_iff_not_non_empty_witness :
  let r : f32r := mk_rect f32_zero f32_zero f32_one f32_one in
  nan_free r /\ (empty r = true <-> non_empty r = false).
Proof.
  cbv zeta.
  assert (Hfree : nan_free (mk_rect f32_zero f32_zero f32_one f32_one))
    by (repeat split; reflexivity).
  split; [exact Hfree |].
  exact (proj2 rect_empty_iff_not_non_empty _ Hfree).
Defined.

(** C10, as stated for every ordered element type, fails on [f32r], which
    the header declares: a NaN is unordered with respect to every [float],
    so for a rectangle with a NaN edge [empty()] and [non_empty()] both
    return false, and [empty()] is not the negation of [non_empty()]. *)
Lemma rect_f32_nan_neither_empty_nor_non_empty :
  let r : f32r := mk_rect f32_quiet_nan f32_zero f32_one f32_one in
  empty r = false /\ non_empty r = false /\
  ~ (empty r = true <-> non_empty r = false).
Proof.
  cbv zeta. split; [reflexivity |]. split; [reflexivity |].
  intros [_ Hx]. specialize (Hx eq_refl). discriminate Hx.
Qed.

(* --------------------------------------------------------------------- *)
(** *** The monad *)
(* --------------------------------------------------------------------- *)

Lemma bind_Ok {S A B} (m : M S A) (k : A -> M S B) (s s' : S) (a : A) :
  m s = Ok (a, s') -> (m ≫= k) s = k a s'.
Proof. intros E. unfold mbind, M_bind, bind. rewrite E. reflexivity. Qed.

Lemma bind_Ok_inv {S A B} (m : M S A) (k : A -> M S B) (s s2 : S) (b : B) :
  (m ≫= k) s = Ok (b, s2) ->
  exists a s1, m s = Ok (a, s1) /\ k a s1 = Ok (b, s2).
Proof.
  unfold mbind, M_bind, bind. destruct (m s) as [[a s1]| |]; try discriminate.
  intros E. exists a, s1. split; [reflexivity | exact E].
Qed.

Lemma mret_Ok {S A} (a : A) (s : S) : (mret a : M S A) s = Ok (a, s).
Proof. reflexivity. Qed.

(** Run the first action of a sequence, given its outcome. *)
Ltac step E := rewrite (bind_Ok _ _ _ _ _ E); simpl.

(** Invert the outcome of a final [mret] or state update. *)
Ltac ok_inv H :=
  cbv [mret M_ret ret modify] in H; inversion H; subst; clear H.

(** Membership in a list that is written out. *)
Ltac in_list := simpl; repeat constructor.

(* --------------------------------------------------------------------- *)
(** *** [FontFace] *)
(* --------------------------------------------------------------------- *)

Section FontFaceFacts.
Context `{Platform}.
Import FontFace.

Lemma is_proper_spec (p : pointer) :
  is_proper p = true <-> (IDWriteFontFace_SoftFont < p)%N.
Proof. unfold is_proper. apply N.ltb_lt. Qed.

Lemma is_proper_nullptr : is_proper nullptr = false.
Proof. unfold is_proper. apply N.ltb_ge. unfold nullptr. lia. Qed.

Lemma is_proper_sentinel : is_proper IDWriteFontFace_SoftFont = false.
Proof. unfold is_proper. apply N.ltb_irrefl. Qed.

Lemma release_calls_proper (p : pointer) (c : RefCall) :
  c ∈ release_calls p -> callee c = p /\ (IDWriteFontFace_SoftFont < p)%N.
Proof.
  unfold release_calls. destruct (is_proper p) eqn:E.
  - intros ->%list_elem_of_singleton. split; [reflexivity | now apply is_proper_spec].
  - intros []%elem_of_nil.
Qed.

Lemma addRef_calls_proper (p : pointer) (c : RefCall) :
  c ∈ addRef_calls p -> callee c = p /\ (IDWriteFontFace_SoftFont < p)%N.
Proof.
  unfold addRef_calls. destruct (is_proper p) eqn:E.
  - intros ->%list_elem_of_singleton. split; [reflexivity | now apply is_proper_spec].
  - intros []%elem_of_nil.
Qed.

Lemma release_calls_improper (p : pointer) :
  p = nullptr \/ p = IDWriteFontFace_SoftFont -> release_calls p = [].
Proof.
  unfold release_calls.
  intros [-> | ->]; [rewrite is_proper_nullptr | rewrite is_proper_sentinel]; reflexivity.
Qed.

Lemma addRef_calls_improper (p : pointer) :
  p = nullptr \/ p = IDWriteFontFace_SoftFont -> addRef_calls p = [].
Proof.
  unfold addRef_calls.
  intros [-> | ->]; [rewrite is_proper_nullptr | rewrite is_proper_sentinel]; reflexivity.
Qed.

Lemma stored_Some (w : World) (i : nat) (p : pointer) :
  stored w i = Some p <-> faces w !! i = Some (Some (mk p)).
Proof.
  unfold stored. destruct (faces w !! i) as [[[q]|]|]; simpl; split; congruence.
Qed.

Lemma load_Ok (w : World) (i : nat) (p : pointer) :
  stored w i = Some p -> load i w = Ok (mk p, w).
Proof. intros E%stored_Some. unfold load. rewrite E. reflexivity. Qed.

Lemma store_Ok (w : World) (i : nat) (p : pointer) (f : t) :
  stored w i = Some p ->
  store i f w = Ok (tt, mk_World (<[i := Some f]> (faces w)) (calls w)).
Proof. intros E%stored_Some. unfold store. rewrite E. reflexivity. Qed.

Lemma end_lifetime_Ok (w : World) (i : nat) (p : pointer) :
  stored w i = Some p ->
  end_lifetime i w = Ok (tt, mk_World (<[i := None]> (faces w)) (calls w)).
Proof. intros E%stored_Some. unfold end_lifetime. rewrite E. reflexivity. Qed.

Lemma get_Ok (w : World) (i : nat) (p : pointer) :
  stored w i = Some p -> get i w = Ok (p, w).
Proof. intros E. unfold get. rewrite (bind_Ok _ _ _ _ _ (load_Ok _ _ _ E)). reflexivity. Qed.

Lemma _release_Ok (w : World) (i : nat) (p : pointer) :
  stored w i = Some p ->
  _release i w = Ok (tt, mk_World (faces w) (calls w ++ release_calls p)).
Proof.
  intros E. unfold _release, is_proper_font, release_calls.
  rewrite (bind_Ok _ _ w w (is_proper p)).
  2:{ rewrite (bind_Ok _ _ _ _ _ (load_Ok _ _ _ E)). reflexivity. }
  destruct (is_proper p).
  - rewrite (bind_Ok _ _ _ _ _ (load_Ok _ _ _ E)). reflexivity.
  - rewrite mret_Ok, app_nil_r. destruct w; reflexivity.
Qed.

Lemma _addRef_Ok (w : World) (i : nat) (p : pointer) :
  stored w i = Some p ->
  _addRef i w = Ok (tt, mk_World (faces w) (calls w ++ addRef_calls p)).
Proof.
  intros E. unfold _addRef, is_proper_font, addRef_calls.
  rewrite (bind_Ok _ _ w w (is_proper p)).
  2:{ rewrite (bind_Ok _ _ _ _ _ (load_Ok _ _ _ E)). reflexivity. }
  destruct (is_proper p).
  - rewrite (bind_Ok _ _ _ _ _ (load_Ok _ _ _ E)). reflexivity.
  - rewrite mret_Ok, app_nil_r. destruct w; reflexivity.
Qed.

Lemma detach_Ok (w : World) (i : nat) (p : pointer) :
  stored w i = Some p ->
  detach i w = Ok (p, mk_World (<[i := Some (mk nullptr)]> (faces w)) (calls w)).
Proof.
  intros E. unfold detach.
  rewrite (bind_Ok _ _ _ _ _ (load_Ok _ _ _ E)). simpl.
  rewrite (bind_Ok _ _ _ _ _ (store_Ok _ _ _ _ E)). reflexivity.
Qed.

(** Reading a handle back after a store. *)
Lemma stored_insert_eq (w : World) (i : nat) (p q : pointer) (cs : list RefCall) :
  stored w i = Some p ->
  stored (mk_World (<[i := Some (mk q)]> (faces w)) cs) i = Some q.
Proof.
  intros E%stored_Some. unfold stored; simpl.
  rewrite list_lookup_insert_eq; [reflexivity |].
  eapply lookup_lt_Some; eassumption.
Qed.

Lemma stored_insert_ne (w : World) (i j : nat) (q : pointer) (cs : list RefCall) :
  i <> j ->
  stored (mk_World (<[i := Some (mk q)]> (faces w)) cs) j = stored w j.
Proof.
  intros Hne. unfold stored; simpl.
  rewrite list_lookup_insert_ne by assumption. reflexivity.
Qed.

Lemma stored_fresh (w : World) (p : pointer) (cs : list RefCall) :
  stored (mk_World (faces w ++ [Some (mk p)]) cs) (length (faces w)) = Some p.
Proof.
  unfold stored; simpl. rewrite lookup_app_r by lia.
  rewrite Nat.sub_diag. reflexivity.
Qed.

End FontFaceFacts.

Section FontFaceRun.
Context `{Platform}.
Import FontFace.

Lemma held_stored (w : World) (i : nat) (p : pointer) :
  stored w i = Some p -> held w i = p.
Proof. unfold held. intros ->. reflexivity. Qed.

Lemma alive_1 (w : World) (o : op) (i : nat) :
  alive w o -> i ∈ operands o -> exists p, stored w i = Some p.
Proof.
  unfold alive. rewrite Forall_forall. intros Ha Hi.
  destruct (Ha i Hi) as [p Hp]. exists p. exact Hp.
Qed.


Lemma FontFace_ptr_Ok (p : pointer) (w : World) :
  FontFace_ptr p w =
  Ok (length (faces w),
      mk_World (faces w ++ [Some (mk p)]) (calls w ++ addRef_calls p)).
Proof.
  unfold FontFace_ptr.
  step (eq_refl : construct (mk p) w = Ok (_, _)).
  step (_addRef_Ok _ _ _ (stored_fresh w p (calls w))). reflexivity.
Qed.

Lemma FontFace_copy_Ok (other : nat) (q : pointer) (w : World) :
  stored w other = Some q ->
  FontFace_copy other w =
  Ok (length (faces w),
      mk_World (faces w ++ [Some (mk q)]) (calls w ++ addRef_calls q)).
Proof.
  intros Hq. unfold FontFace_copy. step (get_Ok _ _ _ Hq). apply FontFace_ptr_Ok.
Qed.

Lemma FontFace_move_Ok (other : nat) (q : pointer) (w : World) :
  stored w other = Some q ->
  FontFace_move other w =
  Ok (length (faces w),
      mk_World (<[other := Some (mk nullptr)]> (faces w) ++ [Some (mk q)]) (calls w)).
Proof.
  intros Hq. unfold FontFace_move. step (detach_Ok _ _ _ Hq).
  unfold construct; simpl. now rewrite length_insert.
Qed.

Lemma assign_copy_Ok (this other : nat) (p q : pointer) (w : World) :
  stored w this = Some p -> stored w other = Some q ->
  assign_copy this other w =
  Ok (tt, mk_World (<[this := Some (mk q)]> (faces w))
                   (calls w ++ release_calls p ++ addRef_calls q)).
Proof.
  intros Hp Hq. unfold assign_copy.
  step (_release_Ok _ _ _ Hp).
  step (get_Ok (mk_World (faces w) (calls w ++ release_calls p)) _ _ Hq).
  step (store_Ok (mk_World (faces w) (calls w ++ release_calls p)) _ _ (mk q) Hp).
  rewrite (_addRef_Ok _ this q).
  - simpl. now rewrite app_assoc.
  - apply (stored_insert_eq w this p q). exact Hp.
Qed.

(** Move assignment. The handle written last is [this]: when [other] is
    the same object, it ends up holding the pointer it has just released. *)
Lemma assign_move_Ok (this other : nat) (p q : pointer) (w : World) :
  stored w this = Some p -> stored w other = Some q ->
  assign_move this other w =
  Ok (tt, mk_World (<[this := Some (mk q)]> (<[other := Some (mk nullptr)]> (faces w)))
                   (calls w ++ release_calls p)).
Proof.
  intros Hp Hq. unfold assign_move.
  step (_release_Ok _ _ _ Hp).
  step (detach_Ok (mk_World (faces w) (calls w ++ release_calls p)) _ _ Hq).
  destruct (decide (other = this)) as [-> | Hne].
  - rewrite (store_Ok _ this nullptr); [reflexivity |].
    apply (stored_insert_eq w this p nullptr). exact Hp.
  - rewrite (store_Ok _ this p); [reflexivity |].
    rewrite (stored_insert_ne w other this nullptr) by exact Hne. exact Hp.
Qed.

Lemma attach_Ok (this : nat) (p q : pointer) (w : World) :
  stored w this = Some q ->
  attach this p w =
  Ok (tt, mk_World (<[this := Some (mk p)]> (faces w)) (calls w ++ release_calls q)).
Proof.
  intros Hq. unfold attach. step (_release_Ok _ _ _ Hq).
  rewrite (store_Ok _ this q) by exact Hq. reflexivity.
Qed.

Lemma destroy_Ok (this : nat) (q : pointer) (w : World) :
  stored w this = Some q ->
  destroy this w =
  Ok (tt, mk_World (<[this := None]> (faces w)) (calls w ++ release_calls q)).
Proof.
  intros Hq. unfold destroy. step (_release_Ok _ _ _ Hq).
  rewrite (end_lifetime_Ok _ this q) by exact Hq. reflexivity.
Qed.

(** Every operation on live handles returns, and appends exactly the calls
    of [refcount_calls] to the log. *)
Lemma run_Ok (o : op) (w : World) :
  alive w o ->
  exists w', run o w = Ok (tt, w') /\ calls w' = calls w ++ refcount_calls w o.
Proof.
  intros Ha. destruct o as [ | p | p | p | other | other | this other
                            | this other | this p | this | this ]; simpl.
  - eexists. split; [reflexivity | simpl; now rewrite app_nil_r].
  - eexists. split; [step (FontFace_ptr_Ok p w); reflexivity | reflexivity].
  - eexists. split; [step (FontFace_ptr_Ok p w); reflexivity | reflexivity].
  - eexists. split; [reflexivity | simpl; now rewrite app_nil_r].
  - destruct (alive_1 w _ other Ha) as [q Hq]; [in_list |].
    rewrite (held_stored _ _ _ Hq).
    eexists. split; [step (FontFace_copy_Ok _ _ _ Hq); reflexivity | reflexivity].
  - destruct (alive_1 w _ other Ha) as [q Hq]; [in_list |].
    eexists. split; [step (FontFace_move_Ok _ _ _ Hq); reflexivity |].
    simpl; now rewrite app_nil_r.
  - destruct (alive_1 w _ this Ha) as [p Hp]; [in_list |].
    destruct (alive_1 w _ other Ha) as [q Hq]; [in_list |].
    rewrite (held_stored _ _ _ Hp), (held_stored _ _ _ Hq).
    eexists. split; [apply (assign_copy_Ok _ _ _ _ _ Hp Hq) | reflexivity].
  - destruct (alive_1 w _ this Ha) as [p Hp]; [in_list |].
    destruct (alive_1 w _ other Ha) as [q Hq]; [in_list |].
    rewrite (held_stored _ _ _ Hp).
    eexists. split; [apply (assign_move_Ok _ _ _ _ _ Hp Hq) | reflexivity].
  - destruct (alive_1 w _ this Ha) as [q Hq]; [in_list |].
    rewrite (held_stored _ _ _ Hq).
    eexists. split; [apply (attach_Ok _ _ _ _ Hq) | reflexivity].
  - destruct (alive_1 w _ this Ha) as [q Hq]; [in_list |].
    eexists. split; [step (detach_Ok _ _ _ Hq); reflexivity |].
    simpl; now rewrite app_nil_r.
  - destruct (alive_1 w _ this Ha) as [q Hq]; [in_list |].
    rewrite (held_stored _ _ _ Hq).
    eexists. split; [apply (destroy_Ok _ _ _ Hq) | reflexivity].
Qed.

End FontFaceRun.

Section FontFaceClaims.
Context `{Platform}.
Import FontFace.

(** C2: [is_proper_font()] returns false when the handle stores the null
    pointer or the soft-font sentinel [nullptr + 1], and true when it stores
    a pointer strictly greater than the sentinel. It always returns and
    leaves the program state as it was. *)
Theorem is_proper_font_iff_above_sentinel (w : World) (this : nat) (p : pointer) :
  stored w this = Some p ->
  exists b, is_proper_font this w = Ok (b, w) /\
    (p = nullptr \/ p = IDWriteFontFace_SoftFont -> b = false) /\
    ((IDWriteFontFace_SoftFont < p)%N -> b = true).
Proof.
  intros Hp. exists (is_proper p). split; [| split].
  - unfold is_proper_font. step (load_Ok _ _ _ Hp). reflexivity.
  - intros [-> | ->]; [apply is_proper_nullptr | apply is_proper_sentinel].
  - apply is_proper_spec.
Qed.

Lemma pointers_involved_1 (w : World) (o : op) (i : nat) (p : pointer) :
  i ∈ operands o -> stored w i = Some p -> p ∈ pointers_involved w o.
Proof.
  intros Hi Hp. unfold pointers_involved. apply elem_of_app. left.
  apply list_elem_of_omap. exists i. split; assumption.
Qed.

Lemma pointers_involved_raw (w : World) (o : op) (p : pointer) :
  p ∈ raw_argument o -> p ∈ pointers_involved w o.
Proof. intros Hp. unfold pointers_involved. apply elem_of_app. right. exact Hp. Qed.

(** The calls of an operation are on pointers it was given or found
    stored, and only on pointers above the sentinel. *)
Lemma refcount_calls_proper (o : op) (w : World) (c : RefCall) :
  alive w o -> c ∈ refcount_calls w o ->
  callee c ∈ pointers_involved w o /\ (IDWriteFontFace_SoftFont < callee c)%N.
Proof.
  intros Ha.
  assert (Hrel : forall i, i ∈ operands o -> c ∈ release_calls (held w i) ->
            callee c ∈ pointers_involved w o /\ (IDWriteFontFace_SoftFont < callee c)%N).
  { intros i Hi Hc. destruct (alive_1 w o i Ha Hi) as [p Hp].
    rewrite (held_stored _ _ _ Hp) in Hc.
    destruct (release_calls_proper p c Hc) as [-> Hlt].
    split; [eapply pointers_involved_1; eassumption | exact Hlt]. }
  assert (Hadd : forall i, i ∈ operands o -> c ∈ addRef_calls (held w i) ->
            callee c ∈ pointers_involved w o /\ (IDWriteFontFace_SoftFont < callee c)%N).
  { intros i Hi Hc. destruct (alive_1 w o i Ha Hi) as [p Hp].
    rewrite (held_stored _ _ _ Hp) in Hc.
    destruct (addRef_calls_proper p c Hc) as [-> Hlt].
    split; [eapply pointers_involved_1; eassumption | exact Hlt]. }
  assert (Hraw : forall p, p ∈ raw_argument o -> c ∈ addRef_calls p ->
            callee c ∈ pointers_involved w o /\ (IDWriteFontFace_SoftFont < callee c)%N).
  { intros p Hp Hc. destruct (addRef_calls_proper p c Hc) as [-> Hlt].
    split; [apply pointers_involved_raw; exact Hp | exact Hlt]. }
  destruct o as [ | p | p | p | other | other | this other
                | this other | this p | this | this ]; simpl;
    try (intros []%elem_of_nil).
  - apply Hraw. in_list.
  - apply Hraw. in_list.
  - apply Hadd. in_list.
  - intros [Hc | Hc]%elem_of_app; [apply (Hrel this) | apply (Hadd other)];
      first [exact Hc | in_list].
  - apply Hrel. in_list.
  - apply Hrel. in_list.
  - apply Hrel. in_list.
Qed.

(** When every pointer involved is null or the sentinel, the operation
    makes no call. *)
Lemma refcount_calls_improper (o : op) (w : World) :
  alive w o ->
  (forall p, p ∈ pointers_involved w o -> p = nullptr \/ p = IDWriteFontFace_SoftFont) ->
  refcount_calls w o = [].
Proof.
  intros Ha Himp.
  assert (Hrel : forall i, i ∈ operands o -> release_calls (held w i) = []).
  { intros i Hi. destruct (alive_1 w o i Ha Hi) as [p Hp].
    rewrite (held_stored _ _ _ Hp). apply release_calls_improper, Himp.
    eapply pointers_involved_1; eassumption. }
  assert (Hadd : forall i, i ∈ operands o -> addRef_calls (held w i) = []).
  { intros i Hi. destruct (alive_1 w o i Ha Hi) as [p Hp].
    rewrite (held_stored _ _ _ Hp). apply addRef_calls_improper, Himp.
    eapply pointers_involved_1; eassumption. }
  assert (Hraw : forall p, p ∈ raw_argument o -> addRef_calls p = []).
  { intros p Hp. apply addRef_calls_improper, Himp, pointers_involved_raw, Hp. }
  destruct o as [ | p | p | p | other | other | this other
                | this other | this p | this | this ]; simpl; try reflexivity.
  - apply Hraw. in_list.
  - apply Hraw. in_list.
  - apply Hadd. in_list.
  - rewrite (Hrel this), (Hadd other) by in_list. reflexivity.
  - apply Hrel. in_list.
  - apply Hrel. in_list.
  - apply Hrel. in_list.
Qed.

(** C1: every operation of the handle - construction from a raw or smart
    pointer, copy, move, both assignments, attach, detach, destruction -
    returns on live handles, and each [AddRef] or [Release] it performs is
    on a pointer the operation was given or found stored, and that pointer
    is strictly greater than the sentinel. When every pointer involved is
    null or the sentinel, no call is made at all. *)
Theorem refcount_calls_only_above_sentinel (o : op) (w : World) :
  alive w o ->
  exists w' new,
    run o w = Ok (tt, w') /\
    calls w' = calls w ++ new /\
    (forall c, c ∈ new ->
       callee c ∈ pointers_involved w o /\ (IDWriteFontFace_SoftFont < callee c)%N) /\
    ((forall p, p ∈ pointers_involved w o -> p = nullptr \/ p = IDWriteFontFace_SoftFont) ->
     new = []).
Proof.
  intros Ha. destruct (run_Ok o w Ha) as (w' & Hrun & Hcalls).
  exists w', (refcount_calls w o). split; [exact Hrun | split; [exact Hcalls | split]].
  - intros c Hc. apply refcount_calls_proper; assumption.
  - apply refcount_calls_improper; assumption.
Qed.

End FontFaceClaims.

(** On the 64-bit build the sentinel is address 8. A handle holding the
    sentinel is overwritten by a copy of a real font face: the sentinel is
    not released, the real face gets its [AddRef]. *)
Example assign_copy_over_sentinel :
  @FontFace.run x64 (FontFace.AssignCopy 0 1)
    (FontFace.mk_World [Some (FontFace.mk 8%N); Some (FontFace.mk 4096%N)] []) =
  Ok (tt, FontFace.mk_World [Some (FontFace.mk 4096%N); Some (FontFace.mk 4096%N)]
                            [FontFace.AddRef 4096%N]).
Proof. reflexivity. Qed.

(** Copying, moving and destroying a soft-font handle: no call. *)
Example soft_font_copy_move_destroy :
  (c ← @FontFace.FontFace_ptr x64 8%N;
   d ← @FontFace.FontFace_copy x64 c;
   e ← FontFace.FontFace_move d;
   @FontFace.destroy x64 c;; @FontFace.destroy x64 d;; @FontFace.destroy x64 e)
    FontFace.World0 =
  Ok (tt, FontFace.mk_World [None; None; None] []).
Proof. reflexivity. Qed.

Lemma is_proper_font_iff_above_sentinel_witness :
  let w := FontFace.mk_World [Some (FontFace.mk 8%N); Some (FontFace.mk 4096%N)] [] in
  FontFace.stored w 1 = Some 4096%N /\
  exists b, @FontFace.is_proper_font x64 1 w = Ok (b, w) /\
    (4096%N = nullptr \/ 4096%N = @FontFace.IDWriteFontFace_SoftFont x64 -> b = false) /\
    ((@FontFace.IDWriteFontFace_SoftFont x64 < 4096)%N -> b = true).
Proof.
  cbv zeta. split; [reflexivity |].
  apply (@is_proper_font_iff_above_sentinel x64). reflexivity.
Defined.

Lemma refcount_calls_only_above_sentinel_witness :
  let w := FontFace.mk_World [Some (FontFace.mk 8%N); Some (FontFace.mk 4096%N)] [] in
  let o := FontFace.AssignCopy 0 1 in
  FontFace.alive w o /\
  exists w' new,
    @FontFace.run x64 o w = Ok (tt, w') /\
    FontFace.calls w' = FontFace.calls w ++ new /\
    (forall c, c ∈ new ->
       FontFace.callee c ∈ FontFace.pointers_involved w o /\
       (@FontFace.IDWriteFontFace_SoftFont x64 < FontFace.callee c)%N) /\
    ((forall p, p ∈ FontFace.pointers_involved w o ->
        p = nullptr \/ p = @FontFace.IDWriteFontFace_SoftFont x64) ->
     new = []).
Proof.
  cbv zeta.
  assert (Ha : FontFace.alive
                 (FontFace.mk_World [Some (FontFace.mk 8%N); Some (FontFace.mk 4096%N)] [])
                 (FontFace.AssignCopy 0 1)).
  { repeat constructor; eexists; reflexivity. }
  split; [exact Ha |].
  apply (@refcount_calls_only_above_sentinel x64 _ _ Ha).
Defined.

(* --------------------------------------------------------------------- *)
(** *** Fixed-width arithmetic *)
(* --------------------------------------------------------------------- *)

Lemma wrap_s_id (x : Z) : is_i32 x -> wrap_s int_bits x = x.
Proof.
  unfold is_i32, i32_min, i32_max, wrap_s, int_bits. intros Hx.
  change (2 ^ (32 - 1)) with 2147483648. change (2 ^ 32) with 4294967296.
  rewrite Z.mod_small by lia. lia.
Qed.

Lemma wrap_s_is_i32 (x : Z) : is_i32 (wrap_s int_bits x).
Proof.
  unfold is_i32, i32_min, i32_max, wrap_s, int_bits.
  change (2 ^ (32 - 1)) with 2147483648. change (2 ^ 32) with 4294967296.
  pose proof (Z.mod_pos_bound (x + 2147483648) 4294967296 ltac:(lia)). lia.
Qed.

(* --------------------------------------------------------------------- *)
(** *** [ShapedRow::clear] *)
(* --------------------------------------------------------------------- *)

Section ShapedRowClear.
Context `{Platform}.

(** Whatever the arguments, the two dirty bounds are [int] values. *)
Lemma clear_dirty_is_i32 (y cellHeight : u16) (r : ShapedRow) :
  is_i32 (dirtyTop (clear y cellHeight r).1) /\
  is_i32 (dirtyBottom (clear y cellHeight r).1).
Proof. split; apply wrap_s_is_i32. Qed.

(** C3 (amended): for every row in any prior state and all [u16] arguments,
    [clear(y, cellHeight)] leaves the mappings, glyph indices, glyph
    advances, glyph offsets, colors and grid-line ranges empty, the line
    rendition [SingleWidth] and the selection range [0, 0); and when
    [y * cellHeight + cellHeight] fits the 32-bit coordinate type, the dirty
    interval is [dirtyTop = y * cellHeight],
    [dirtyBottom = dirtyTop + cellHeight]. *)
Theorem clear_resets_row (y cellHeight : u16) (r : ShapedRow) :
  is_u16 y -> is_u16 cellHeight ->
  let r' := (clear y cellHeight r).1 in
  mappings r' = [] /\ glyphIndices r' = [] /\ glyphAdvances r' = [] /\
  glyphOffsets r' = [] /\ colors r' = [] /\ gridLineRanges r' = [] /\
  lineRendition r' = SingleWidth /\
  selectionFrom r' = 0 /\ selectionTo r' = 0 /\
  (y * cellHeight + cellHeight <= i32_max ->
   dirtyTop r' = y * cellHeight /\
   dirtyBottom r' = y * cellHeight + cellHeight /\
   dirtyBottom r' = dirtyTop r' + cellHeight).
Proof.
  intros Hy Hh. cbv zeta. unfold clear; cbn [fst mappings glyphIndices
    glyphAdvances glyphOffsets colors gridLineRanges lineRendition
    selectionFrom selectionTo dirtyTop dirtyBottom].
  repeat (split; [reflexivity |]).
  intros Hfit. unfold is_u16, u16_max in Hy, Hh. unfold i32_max in Hfit.
  assert (Htop : wrap_s int_bits (y * cellHeight) = y * cellHeight).
  { apply wrap_s_id. unfold is_i32, i32_min, i32_max. nia. }
  rewrite Htop.
  assert (Hbot : wrap_s int_bits (y * cellHeight + cellHeight)
                 = y * cellHeight + cellHeight).
  { apply wrap_s_id. unfold is_i32, i32_min, i32_max. nia. }
  rewrite Hbot. repeat split; reflexivity.
Qed.

End ShapedRowClear.

Lemma clear_resets_row_witness :
  let r' := (@clear x64 3 20 ShapedRow_default).1 in
  is_u16 3 /\ is_u16 20 /\ 3 * 20 + 20 <= i32_max /\
  dirtyTop r' = 60 /\ dirtyBottom r' = 80.
Proof.
  cbv zeta.
  assert (H3 : is_u16 3) by (unfold is_u16, u16_max; lia).
  assert (H20 : is_u16 20) by (unfold is_u16, u16_max; lia).
  assert (Hfit : 3 * 20 + 20 <= i32_max) by (unfold i32_max; lia).
  pose proof (@clear_resets_row x64 3 20 ShapedRow_default H3 H20) as Hc.
  cbv zeta in Hc.
  destruct Hc as (_ & _ & _ & _ & _ & _ & _ & _ & _ & Hd).
  destruct (Hd Hfit) as (Ht & Hb & _).
  repeat split; try assumption; unfold is_u16, u16_max in *; lia.
Defined.

(** C3, as stated for all arguments, fails at [y = cellHeight = 65535]:
    the product [4294836225] does not fit the 32-bit [dirtyTop], which
    ends up holding [-131071], and [dirtyBottom] holds [-65536]. *)
Lemma clear_dirty_interval_overflows :
  let r' := (@clear x64 65535 65535 ShapedRow_default).1 in
  is_u16 65535 /\
  dirtyTop r' = -131071 /\ dirtyBottom r' = -65536 /\
  dirtyTop r' <> 65535 * 65535.
Proof.
  cbv zeta. split; [unfold is_u16, u16_max; lia |].
  split; [reflexivity | split; [reflexivity |]].
  vm_compute. discriminate.
Qed.

(** Clearing a row with a real font face and a soft-font mapping releases
    the real face only. *)
Example clear_releases_mappings :
  (@clear x64 0 16
     {| mappings := [mk_FontMapping (FontFace.mk 4096%N) f32_one 0 3;
                     mk_FontMapping (FontFace.mk 8%N) f32_one 3 5];
        glyphIndices := [1; 2; 3; 4; 5]; glyphAdvances := [];
        glyphOffsets := []; colors := []; gridLineRanges := [];
        lineRendition := DoubleWidth; selectionFrom := 1; selectionTo := 2;
        dirtyTop := 7; dirtyBottom := 9 |}).2
  = [FontFace.Release 4096%N].
Proof. reflexivity. Qed.

(* --------------------------------------------------------------------- *)
(** *** [RenderingPayload::MarkAllAsDirty] *)
(* --------------------------------------------------------------------- *)

(** C4: in any state, [MarkAllAsDirty()] sets the dirty rectangle to
    [{0, 0, targetSize.x, targetSize.y}], the invalidated rows to
    [{0, cellCount.y}] and the scroll offset to [0]; with target size
    [(800, 600)] and cell count [(100, 40)] that is [{0, 0, 800, 600}],
    [{0, 40}] and [0]. *)
Theorem MarkAllAsDirty_marks_everything (p : RenderingPayload) :
  let p' := MarkAllAsDirty p in
  (dirtyRectInPx p' = mk_rect 0 0 (vx (targetSize (deref (s p))))
                                  (vy (targetSize (deref (s p)))) /\
   invalidatedRows p' = mk_vec2 0 (vy (cellCount (deref (s p)))) /\
   scrollOffset p' = 0 /\
   s p' = s p) /\
  let q' := MarkAllAsDirty (with_sizes (mk_vec2 800 600) (mk_vec2 100 40) p) in
  dirtyRectInPx q' = mk_rect 0 0 800 600 /\
  invalidatedRows q' = mk_vec2 0 40 /\
  scrollOffset q' = 0.
Proof. cbv zeta. repeat split. Qed.

(* --------------------------------------------------------------------- *)
(** *** [DirtyGenerationalSettings] *)
(* --------------------------------------------------------------------- *)

(** C9: the settings object made by [DirtyGenerationalSettings()] has
    generation 1 for the outer tracker and for each of the four groups, a
    fresh payload's [backgroundBitmapGeneration] is 1, and each of the six
    compares unequal to a last-seen generation of 0. *)
Theorem DirtyGenerationalSettings_generation_1 (s0 : GenerationalSettings) :
  let d := DirtyGenerationalSettings in
  let gens := [generation d;
               generation (target (deref d)); generation (font (deref d));
               generation (cursor (deref d)); generation (misc (deref d));
               backgroundBitmapGeneration (RenderingPayload_default s0)] in
  gens = [1; 1; 1; 1; 1; 1] /\
  Forall (fun g => generation_eqb g 0 = false) gens.
Proof. cbv zeta. split; [reflexivity | repeat constructor]. Qed.

(* --------------------------------------------------------------------- *)
(** *** [Buffer]: fields and the free store *)
(* --------------------------------------------------------------------- *)

(** Split a successful sequence into its first action and the rest. *)
Ltac inv_bind H :=
  let a := fresh "a" in
  let w := fresh "w" in
  let H1 := fresh H "_1" in
  apply bind_Ok_inv in H; destruct H as (a & w & H1 & H).

Section BufferFacts.
Context {T : Type} `{Element T}.
Variable Alignment : N.
Import Buffer.

Abbreviation World := (Buffer.World T).
Abbreviation destroy := (Buffer.destroy Alignment).
Abbreviation allocate := (Buffer.allocate Alignment).
Abbreviation deallocate := (Buffer.deallocate Alignment).

Lemma object_Some (w : World) (i : nat) (b : t) :
  object w i = Some b <-> objs w !! i = Some (Some b).
Proof.
  unfold object. destruct (objs w !! i) as [[c|]|]; split; congruence.
Qed.

Lemma buf_load_Ok (w : World) (i : nat) (b : t) :
  object w i = Some b -> load i w = Ok (b, w).
Proof. intros E%object_Some. unfold load. rewrite E. reflexivity. Qed.

Lemma load_inv (w w' : World) (i : nat) (b : t) :
  load i w = Ok (b, w') -> object w i = Some b /\ w' = w.
Proof.
  unfold load, object. destruct (objs w !! i) as [[c|]|]; try discriminate.
  intros [= -> ->]. split; reflexivity.
Qed.

Lemma buf_store_Ok (w : World) (i : nat) (b c : t) :
  object w i = Some b ->
  store i c w = Ok (tt, set_objs (<[i := Some c]>) w).
Proof. intros E%object_Some. unfold store. rewrite E. reflexivity. Qed.

Lemma buf_end_lifetime_Ok (w : World) (i : nat) (b : t) :
  object w i = Some b ->
  end_lifetime i w = Ok (tt, set_objs (<[i := None]>) w).
Proof. intros E%object_Some. unfold end_lifetime. rewrite E. reflexivity. Qed.

(** Reading an object back after a store to the object store. *)
Lemma object_insert_eq (w : World) (i : nat) (b c : t) :
  object w i = Some b -> object (set_objs (<[i := Some c]>) w) i = Some c.
Proof.
  intros E%object_Some. unfold object, set_objs; simpl.
  rewrite list_lookup_insert_eq; [reflexivity |].
  eapply lookup_lt_Some; eassumption.
Qed.

Lemma object_insert_ne (w : World) (i j : nat) (c : option t) :
  i <> j -> object (set_objs (<[i := c]>) w) j = object w j.
Proof.
  intros Hne. unfold object, set_objs; simpl.
  rewrite list_lookup_insert_ne by assumption. reflexivity.
Qed.

Lemma object_fresh (w : World) (b : t) :
  object (set_objs (fun os => os ++ [Some b]) w) (length (objs w)) = Some b.
Proof.
  unfold object, set_objs; simpl. rewrite lookup_app_r by lia.
  rewrite Nat.sub_diag. reflexivity.
Qed.

Lemma object_lt (w : World) (i : nat) (b : t) :
  object w i = Some b -> (i < length (objs w))%nat.
Proof. intros E%object_Some. eapply lookup_lt_Some; eassumption. Qed.

Lemma set_data_Ok (w : World) (i : nat) (b : t) (p : ptr) :
  object w i = Some b ->
  set_data i p w = Ok (tt, set_objs (<[i := Some (mk p (_size b))]>) w).
Proof.
  intros E. unfold set_data. step (buf_load_Ok _ _ _ E).
  apply (buf_store_Ok _ _ _ _ E).
Qed.

Lemma set_size_Ok (w : World) (i : nat) (b : t) (n : N) :
  object w i = Some b ->
  set_size i n w = Ok (tt, set_objs (<[i := Some (mk (_data b) n)]>) w).
Proof.
  intros E. unfold set_size. step (buf_load_Ok _ _ _ E).
  apply (buf_store_Ok _ _ _ _ E).
Qed.

Lemma exchange_data_Ok (w : World) (i : nat) (b : t) (p : ptr) :
  object w i = Some b ->
  exchange_data i p w =
  Ok (_data b, set_objs (<[i := Some (mk p (_size b))]>) w).
Proof.
  intros E. unfold exchange_data. step (buf_load_Ok _ _ _ E).
  step (set_data_Ok _ _ _ p E). reflexivity.
Qed.

Lemma exchange_size_Ok (w : World) (i : nat) (b : t) (n : N) :
  object w i = Some b ->
  exchange_size i n w =
  Ok (_size b, set_objs (<[i := Some (mk (_data b) n)]>) w).
Proof.
  intros E. unfold exchange_size. step (buf_load_Ok _ _ _ E).
  step (set_size_Ok _ _ _ n E). reflexivity.
Qed.

(** **** Move construction *)

Lemma Buffer_move_Ok (w : World) (other : nat) (b : t) :
  object w other = Some b ->
  Buffer_move other w =
  Ok (length (objs w),
      set_objs (fun os => <[other := Some (mk null 0)]> os ++ [Some b]) w).
Proof.
  intros E. unfold Buffer_move.
  step (exchange_data_Ok _ _ _ null E).
  pose proof (object_insert_eq w other b (mk null (_size b)) E) as E1.
  step (exchange_size_Ok _ _ _ 0%N E1).
  unfold construct, set_objs; simpl.
  rewrite list_insert_insert_eq, !length_insert. destruct b; reflexivity.
Qed.

End BufferFacts.

Section BufferStore.
Context {T : Type} `{Element T}.
Variable Alignment : N.
Import Buffer.

Abbreviation World := (Buffer.World T).
Abbreviation Block := (Buffer.Block T).

Lemma mapM_id_Some (xs : list T) : mapM id (Some <$> xs) = Some xs.
Proof.
  induction xs as [| x xs IH]; [reflexivity |].
  cbn. rewrite IH. reflexivity.
Qed.

Lemma cells_at_block (w : World) (b : nat) (i : N) (n : nat) (B : Block) :
  heap w !! b = Some (Some B) ->
  (N.to_nat i + n <= length (cells B))%nat ->
  cells_at w (slot b i) n = Some (take n (drop (N.to_nat i) (cells B))).
Proof.
  intros Hb Hle. unfold cells_at. destruct (decide (n = 0%nat)) as [-> | Hn].
  - reflexivity.
  - rewrite Hb. rewrite decide_True by exact Hle. reflexivity.
Qed.

(** A block all of whose cells are alive is an array of its elements. *)
Lemma array_at_block (w : World) (b : nat) (B : Block) (xs : list T) :
  heap w !! b = Some (Some B) -> cells B = Some <$> xs ->
  array_at w (slot b 0) xs.
Proof.
  intros Hb Hc. unfold array_at.
  rewrite (cells_at_block w b 0 (length xs) B Hb).
  - rewrite Hc. simpl. rewrite <- (length_fmap Some xs) at 1.
    rewrite firstn_all. reflexivity.
  - rewrite Hc, length_fmap. simpl. lia.
Qed.

Lemma read_n_Ok (w : World) (p : ptr) (n : N) (xs : list T) :
  length xs = N.to_nat n -> array_at w p xs -> read_n p n w = Ok (xs, w).
Proof.
  intros Hlen Ha. unfold read_n, array_at in *. rewrite <- Hlen, Ha.
  simpl. rewrite mapM_id_Some. reflexivity.
Qed.

Lemma put_cells_Ok (w : World) (b : nat) (i : N) (B : Block) (cs : list (option T)) :
  heap w !! b = Some (Some B) ->
  cs <> [] ->
  (N.to_nat i + length cs <= length (cells B))%nat ->
  put_cells (slot b i) cs w =
  Ok (tt, set_heap (<[b := Some (mk_Block (bytes B) (align B)
                      (take (N.to_nat i) (cells B) ++ cs ++
                       drop (N.to_nat i + length cs) (cells B)))]>) w).
Proof.
  intros Hb Hne Hle. unfold put_cells. destruct cs as [| c cs]; [congruence |].
  rewrite Hb. rewrite decide_True by exact Hle. reflexivity.
Qed.

(** Overwriting a whole block. *)
Lemma put_cells_whole (w : World) (b : nat) (B : Block) (cs : list (option T)) :
  heap w !! b = Some (Some B) ->
  cs <> [] ->
  length cs = length (cells B) ->
  put_cells (slot b 0) cs w =
  Ok (tt, set_heap (<[b := Some (mk_Block (bytes B) (align B) cs)]>) w).
Proof.
  intros Hb Hne Hlen. rewrite (put_cells_Ok w b 0 B cs Hb Hne) by (simpl; lia).
  simpl. rewrite Hlen, drop_all, app_nil_r. reflexivity.
Qed.

Lemma operator_delete_Ok (w : World) (b : nat) (B : Block) (a : option N) :
  heap w !! b = Some (Some B) -> align B = a ->
  operator_delete (slot b 0) a w =
  Ok (tt, mk_World (objs w) (<[b := None]> (heap w))
                   (avail w + bytes B)%N (trace w ++ [Freed b])).
Proof.
  intros Hb Ha. unfold operator_delete. rewrite Hb.
  rewrite decide_True by (split; [reflexivity | exact Ha]). reflexivity.
Qed.

(** [destroy()] on a whole block: the elements are ended first to last,
    then the block is given back. *)
Lemma destroy_block (w : World) (blk : nat) (B : Block) (n : N) :
  heap w !! blk = Some (Some B) -> align B = new_alignment Alignment ->
  constructed B n -> n <> 0%N ->
  (destroy_n (slot blk 0) n;; Buffer.deallocate Alignment (slot blk 0)) w =
  Ok (tt, mk_World (objs w) (<[blk := None]> (heap w)) (avail w + bytes B)%N
            (trace w ++
             ((fun k => Destroyed blk (0 + N.of_nat k)%N) <$> seq 0 (N.to_nat n)) ++
             [Freed blk])).
Proof.
  intros Hb Hal Hc Hn.
  set (es := (fun k => Destroyed blk (0 + N.of_nat k)%N) <$> seq 0 (N.to_nat n)).
  assert (Hdel : forall (h : list (option Block)) (B' : Block),
    h !! blk = Some (Some B') -> align B' = align B -> bytes B' = bytes B ->
    <[blk := None]> h = <[blk := None]> (heap w) ->
    Buffer.deallocate Alignment (slot blk 0) (mk_World (objs w) h (avail w) (trace w ++ es))
    = Ok (tt, mk_World (objs w) (<[blk := None]> (heap w)) (avail w + bytes B)%N
                (trace w ++ es ++ [Freed blk]))).
  { intros h B' Hh Ha Hby Hins. unfold Buffer.deallocate.
    assert (Hd : forall a, align B' = a ->
      operator_delete (slot blk 0) a (mk_World (objs w) h (avail w) (trace w ++ es))
      = Ok (tt, mk_World (objs w) (<[blk := None]> (heap w)) (avail w + bytes B)%N
                  (trace w ++ es ++ [Freed blk]))).
    { intros a Ea.
      rewrite (operator_delete_Ok (mk_World (objs w) h (avail w) (trace w ++ es))
                 blk B' a Hh Ea).
      cbn [objs heap avail trace]. rewrite Hins, Hby, app_assoc. reflexivity. }
    rewrite Ha, Hal in Hd. unfold new_alignment in Hd.
    destruct (Alignment <=? STDCPP_DEFAULT_NEW_ALIGNMENT)%N; apply Hd; reflexivity. }
  unfold destroy_n, constructed in *.
  destruct default_init as [v |].
  - destruct Hc as (xs & Hc & Hlen).
    rewrite (bind_Ok _ _ w
               (mk_World (objs w)
                  (<[blk := Some (mk_Block (bytes B) (align B) (replicate (N.to_nat n) None))]>
                     (heap w))
                  (avail w) (trace w ++ es)) tt).
    + apply (Hdel _ (mk_Block (bytes B) (align B) (replicate (N.to_nat n) None)));
        [| reflexivity | reflexivity | apply list_insert_insert_eq].
      apply list_lookup_insert_eq. eapply lookup_lt_Some; eassumption.
    + rewrite (bind_Ok _ _ w
                 (set_heap (<[blk := Some (mk_Block (bytes B) (align B)
                                 (replicate (N.to_nat n) None))]>) w) tt);
        [reflexivity |].
      step (read_n_Ok w (slot blk 0) n xs Hlen (array_at_block w blk B xs Hb Hc)).
      apply put_cells_whole; [exact Hb | |].
      * destruct (N.to_nat n) eqn:E; [lia | discriminate].
      * rewrite length_replicate, Hc, length_fmap. lia.
  - rewrite (bind_Ok _ _ w (mk_World (objs w) (heap w) (avail w) (trace w ++ es)) tt).
    + apply (Hdel _ B Hb); reflexivity.
    + rewrite (bind_Ok _ _ w w tt) by reflexivity. reflexivity.
Qed.

(** [destroy()] on a buffer that owns its storage. *)
Lemma destroy_owned (w : World) (this : nat) (b : t) :
  object w this = Some b -> owns Alignment w b ->
  exists w1, Buffer.destroy Alignment this w = Ok (tt, w1) /\
    objs w1 = objs w /\
    match _data b with
    | null => w1 = w
    | slot blk _ =>
        heap w1 = <[blk := None]> (heap w) /\
        trace w1 = trace w ++
          ((fun k => Destroyed blk (0 + N.of_nat k)%N) <$> seq 0 (N.to_nat (_size b))) ++
          [Freed blk]
    end.
Proof.
  intros Hobj Hown. unfold Buffer.destroy. destruct b as [d n]. unfold owns in Hown.
  cbn [_data _size] in *. destruct d as [| blk i].
  - subst n. exists w. split; [| split; reflexivity].
    rewrite (bind_Ok _ _ _ _ _ (buf_load_Ok _ _ _ Hobj)). cbn [_data _size].
    unfold destroy_n, Buffer.deallocate.
    destruct default_init, (Alignment <=? STDCPP_DEFAULT_NEW_ALIGNMENT)%N; reflexivity.
  - destruct Hown as (-> & Hn & B & Hb & Hal & Hc).
    eexists. split; [| split].
    + rewrite (bind_Ok _ _ _ _ _ (buf_load_Ok _ _ _ Hobj)). cbn [_data _size].
      apply (destroy_block w blk B n Hb Hal Hc Hn).
    + reflexivity.
    + split; reflexivity.
Qed.

End BufferStore.

Section BufferMove.
Context {T : Type} `{Element T}.
Variable Alignment : N.
Import Buffer.

Abbreviation World := (Buffer.World T).

(** Move assignment, whatever [destroy()] did to the free store: only the
    two objects change, [other] first and [this] last - so that a buffer
    assigned to itself keeps its fields. *)
Lemma buf_assign_move_Ok (w w1 : World) (this other : nat) (b0 b : t) :
  object w this = Some b0 -> object w other = Some b ->
  Buffer.destroy Alignment this w = Ok (tt, w1) -> objs w1 = objs w ->
  assign_move Alignment this other w =
  Ok (tt, set_objs (fun os => <[this := Some b]> (<[other := Some (mk null 0)]> os)) w1).
Proof.
  intros H0 Hb Hd Hobjs.
  assert (H0' : object w1 this = Some b0) by (unfold object; rewrite Hobjs; exact H0).
  assert (Hb' : object w1 other = Some b) by (unfold object; rewrite Hobjs; exact Hb).
  unfold assign_move. step Hd.
  step (exchange_data_Ok _ _ _ null Hb').
  destruct (decide (this = other)) as [-> | Hne].
  - pose proof (object_insert_eq w1 other b (mk null (_size b)) Hb') as H2.
    step (set_data_Ok _ _ _ (_data b) H2).
    pose proof (object_insert_eq _ other _ (mk (_data b) (_size b)) H2) as H3.
    step (exchange_size_Ok _ _ _ 0%N H3).
    pose proof (object_insert_eq _ other _ (mk (_data b) 0) H3) as H4.
    rewrite (set_size_Ok _ _ _ (_size b) H4). simpl.
    unfold set_objs; simpl. rewrite !list_insert_insert_eq. destruct b; reflexivity.
  - set (w2 := set_objs (<[other := Some (mk null (_size b))]>) w1).
    assert (H2 : object w2 this = Some b0).
    { unfold w2. rewrite object_insert_ne by congruence. exact H0'. }
    set (w3 := set_objs (<[this := Some (mk (_data b) (_size b0))]>) w2).
    assert (H3 : object w3 other = Some (mk null (_size b))).
    { unfold w3. rewrite object_insert_ne by congruence.
      apply (object_insert_eq _ _ _ _ Hb'). }
    set (w4 := set_objs (<[other := Some (mk null 0)]>) w3).
    assert (H4 : object w4 this = Some (mk (_data b) (_size b0))).
    { unfold w4. rewrite object_insert_ne by congruence.
      apply (object_insert_eq _ _ _ _ H2). }
    step (set_data_Ok _ _ _ (_data b) H2).
    step (exchange_size_Ok _ _ _ 0%N H3).
    fold w4. rewrite (set_size_Ok _ _ _ (_size b) H4). simpl.
    unfold w4, w3, w2, set_objs; simpl.
    rewrite (list_insert_insert_ne _ other this) by congruence.
    rewrite !list_insert_insert_eq. destruct b; reflexivity.
Qed.

Lemma size_Ok (w : World) (i : nat) (b : t) :
  object w i = Some b -> size i w = Ok (_size b, w).
Proof. intros E. unfold size. step (buf_load_Ok _ _ _ E). reflexivity. Qed.

Lemma data_Ok (w : World) (i : nat) (b : t) :
  object w i = Some b -> data i w = Ok (_data b, w).
Proof. intros E. unfold data. step (buf_load_Ok _ _ _ E). reflexivity. Qed.

(** C6: move construction, and move assignment (of one buffer to another;
    moving a buffer onto itself is not a supported input), leave the source
    with [size() == 0] and [data() == nullptr], and the destination with the
    source's original size and data pointer; on move assignment the
    elements the destination held are destroyed and its storage is freed
    first. *)
Theorem move_empties_source (w : World) (other : nat) (b : t) :
  object w other = Some b ->
  (exists this w',
     Buffer_move other w = Ok (this, w') /\ this <> other /\
     size other w' = Ok (0%N, w') /\ data other w' = Ok (null, w') /\
     size this w' = Ok (_size b, w') /\ data this w' = Ok (_data b, w') /\
     heap w' = heap w /\ trace w' = trace w) /\
  (forall (this : nat) (b0 : t),
     this <> other -> object w this = Some b0 -> owns Alignment w b0 ->
     exists w',
       assign_move Alignment this other w = Ok (tt, w') /\
       size other w' = Ok (0%N, w') /\ data other w' = Ok (null, w') /\
       size this w' = Ok (_size b, w') /\ data this w' = Ok (_data b, w') /\
       match _data b0 with
       | null => heap w' = heap w /\ trace w' = trace w
       | slot blk _ =>
           heap w' = <[blk := None]> (heap w) /\
           trace w' = trace w ++
             ((fun k => Destroyed blk (0 + N.of_nat k)%N)
                <$> seq 0 (N.to_nat (_size b0))) ++ [Freed blk]
       end).
Proof.
  intros Hb. split.
  - exists (length (objs w)),
      (set_objs (fun os => <[other := Some (mk null 0)]> os ++ [Some b]) w).
    pose proof (object_lt _ _ _ Hb) as Hlt.
    assert (Hthis : object (set_objs (fun os => <[other := Some (mk null 0)]> os ++ [Some b]) w)
                      (length (objs w)) = Some b).
    { unfold object, set_objs; simpl.
      rewrite lookup_app_r by (rewrite length_insert; lia).
      rewrite length_insert, Nat.sub_diag. reflexivity. }
    assert (Hoth : object (set_objs (fun os => <[other := Some (mk null 0)]> os ++ [Some b]) w)
                     other = Some (mk null 0)).
    { unfold object, set_objs; simpl.
      rewrite lookup_app_l by (rewrite length_insert; lia).
      rewrite list_lookup_insert_eq by lia. reflexivity. }
    split; [apply Buffer_move_Ok; exact Hb |].
    split; [lia |].
    split; [apply (size_Ok _ _ _ Hoth) |].
    split; [apply (data_Ok _ _ _ Hoth) |].
    split; [apply (size_Ok _ _ _ Hthis) |].
    split; [apply (data_Ok _ _ _ Hthis) |].
    split; reflexivity.
  - intros this b0 Hne H0 Hown.
    destruct (destroy_owned Alignment w this b0 H0 Hown) as (w1 & Hd & Hobjs & Hfree).
    pose proof (object_lt _ _ _ H0) as Hlt0. pose proof (object_lt _ _ _ Hb) as Hlt.
    set (w' := set_objs (fun os => <[this := Some b]> (<[other := Some (mk null 0)]> os)) w1).
    assert (Hthis : object w' this = Some b).
    { unfold w', object, set_objs; simpl.
      rewrite list_lookup_insert_eq by (rewrite length_insert, Hobjs; lia). reflexivity. }
    assert (Hoth : object w' other = Some (mk null 0)).
    { unfold w', object, set_objs; simpl.
      rewrite list_lookup_insert_ne by congruence.
      rewrite list_lookup_insert_eq by (rewrite Hobjs; lia). reflexivity. }
    assert (Hheap : heap w' = heap w1) by reflexivity.
    assert (Htrace : trace w' = trace w1) by reflexivity.
    exists w'.
    split; [apply (buf_assign_move_Ok w w1 this other b0 b H0 Hb Hd Hobjs) |].
    split; [apply (size_Ok _ _ _ Hoth) |].
    split; [apply (data_Ok _ _ _ Hoth) |].
    split; [apply (size_Ok _ _ _ Hthis) |].
    split; [apply (data_Ok _ _ _ Hthis) |].
    rewrite Hheap, Htrace. destruct (_data b0) as [| blk i].
    + subst w1. split; reflexivity.
    + exact Hfree.
Qed.

End BufferMove.

(** A store with room for 1024 bytes and nothing in it: the two [u32]
    elements of the new buffer are left uninitialised. *)
Example Buffer_size_2 :
  Buffer.Buffer_size (T := u32) 4 2 (Buffer.mk_World [] [] 1024 []) =
  Ok (0%nat,
      Buffer.mk_World [Some (Buffer.mk (Buffer.slot 0 0) 2)]
        [Some (Buffer.mk_Block 8 None [None; None])] 1016 []).
Proof. reflexivity. Qed.

Lemma move_empties_source_witness :
  let w := Buffer.mk_World (T := u32)
             [Some (Buffer.mk (Buffer.slot 0 0) 2); Some (Buffer.mk (Buffer.slot 1 0) 3)]
             [Some (Buffer.mk_Block 8 None [Some 0; Some 0]);
              Some (Buffer.mk_Block 12 None [Some 7; Some 8; Some 9])] 1004 [] in
  Buffer.object w 1 = Some (Buffer.mk (Buffer.slot 1 0) 3) /\
  (0 <> 1)%nat /\
  Buffer.object w 0 = Some (Buffer.mk (Buffer.slot 0 0) 2) /\
  Buffer.owns 4 w (Buffer.mk (Buffer.slot 0 0) 2) /\
  exists w',
    Buffer.assign_move 4 0 1 w = Ok (tt, w') /\
    Buffer.size 1 w' = Ok (0%N, w') /\ Buffer.data 1 w' = Ok (Buffer.null, w') /\
    Buffer.size 0 w' = Ok (3%N, w') /\ Buffer.data 0 w' = Ok (Buffer.slot 1 0, w') /\
    Buffer.heap w' = <[0%nat := None]> (Buffer.heap w) /\
    Buffer.trace w' = Buffer.trace w ++
      ((fun k => Buffer.Destroyed 0 (0 + N.of_nat k)%N) <$> seq 0 (N.to_nat 2)) ++
      [Buffer.Freed 0].
Proof.
  cbv zeta.
  set (w := Buffer.mk_World (T := u32)
             [Some (Buffer.mk (Buffer.slot 0 0) 2); Some (Buffer.mk (Buffer.slot 1 0) 3)]
             [Some (Buffer.mk_Block 8 None [Some 0; Some 0]);
              Some (Buffer.mk_Block 12 None [Some 7; Some 8; Some 9])] 1004 []).
  assert (H1 : Buffer.object w 1 = Some (Buffer.mk (Buffer.slot 1 0) 3)) by reflexivity.
  assert (Hne : (0 <> 1)%nat) by discriminate.
  assert (H0 : Buffer.object w 0 = Some (Buffer.mk (Buffer.slot 0 0) 2)) by reflexivity.
  assert (Hown : Buffer.owns 4 w (Buffer.mk (Buffer.slot 0 0) 2)).
  { unfold Buffer.owns; simpl. split; [reflexivity | split; [discriminate |]].
    exists (Buffer.mk_Block 8 None [Some 0; Some 0]).
    repeat split; reflexivity. }
  split; [exact H1 | split; [exact Hne | split; [exact H0 | split; [exact Hown |]]]].
  exact (proj2 (move_empties_source 4 w 1 _ H1) 0%nat _ Hne H0 Hown).
Defined.

(* --------------------------------------------------------------------- *)
(** *** [Buffer]: the size and the data pointer agree *)
(* --------------------------------------------------------------------- *)

Section BufferInvariant.
Context {T : Type} `{Element T}.
Variable Alignment : N.
Import Buffer.

Abbreviation World := (Buffer.World T).

Lemma all_consistent_object (w : World) (i : nat) (b : t) :
  all_consistent w -> object w i = Some b -> consistent b.
Proof.
  unfold all_consistent. rewrite Forall_lookup. intros Hall E%object_Some.
  exact (Hall i (Some b) E).
Qed.

(** The free store does not touch buffer objects. *)
Lemma operator_new_inv (n : N) (a : option N) (w w' : World) (p : ptr) :
  operator_new n a w = Ok (p, w') -> objs w' = objs w /\ p <> null.
Proof.
  unfold operator_new. destruct (n <=? avail w)%N; [| discriminate].
  intros Hn. ok_inv Hn. split; [reflexivity | discriminate].
Qed.

Lemma operator_delete_objs (p : ptr) (a : option N) (w w' : World) (u : unit) :
  operator_delete p a w = Ok (u, w') -> objs w' = objs w.
Proof.
  unfold operator_delete. destruct p as [| b i].
  - intros [= _ <-]. reflexivity.
  - destruct (heap w !! b) as [[blk|]|]; try discriminate.
    destruct (decide _); [| discriminate]. intros [= _ <-]. reflexivity.
Qed.

Lemma put_cells_objs (p : ptr) (cs : list (option T)) (w w' : World) (u : unit) :
  put_cells p cs w = Ok (u, w') -> objs w' = objs w.
Proof.
  unfold put_cells. destruct cs as [| c cs].
  - intros [= _ <-]. reflexivity.
  - destruct p as [| b i]; [discriminate |].
    destruct (heap w !! b) as [[blk|]|]; try discriminate.
    destruct (decide _); [| discriminate]. intros [= _ <-]. reflexivity.
Qed.

Lemma default_construct_objs (p : ptr) (n : N) (w w' : World) (u : unit) :
  uninitialized_default_construct_n p n w = Ok (u, w') -> objs w' = objs w.
Proof.
  unfold uninitialized_default_construct_n. destruct default_init.
  - apply put_cells_objs.
  - intros E. ok_inv E. reflexivity.
Qed.

Lemma read_n_inv (p : ptr) (n : N) (w w' : World) (xs : list T) :
  read_n p n w = Ok (xs, w') -> w' = w.
Proof.
  unfold read_n. destruct (cells_at w p (N.to_nat n) ≫= mapM id); [| discriminate].
  intros [= _ <-]. reflexivity.
Qed.

Lemma destroy_n_objs (p : ptr) (n : N) (w w' : World) (u : unit) :
  destroy_n p n w = Ok (u, w') -> objs w' = objs w.
Proof.
  unfold destroy_n. intros Hd.
  inv_bind Hd.
  assert (Ho : objs w0 = objs w).
  { destruct default_init.
    - inv_bind Hd_1. apply read_n_inv in Hd_1_1. subst.
      apply put_cells_objs in Hd_1. exact Hd_1.
    - ok_inv Hd_1. reflexivity. }
  rewrite <- Ho. destruct p as [| b i]; ok_inv Hd; reflexivity.
Qed.

Lemma deallocate_objs (p : ptr) (w w' : World) (u : unit) :
  Buffer.deallocate Alignment p w = Ok (u, w') -> objs w' = objs w.
Proof.
  unfold Buffer.deallocate.
  destruct (Alignment <=? STDCPP_DEFAULT_NEW_ALIGNMENT)%N; apply operator_delete_objs.
Qed.

(** [allocate] returns the null pointer exactly for size 0. *)
Lemma allocate_inv (n : N) (w w' : World) (p : ptr) :
  Buffer.allocate Alignment n w = Ok (p, w') ->
  objs w' = objs w /\ (n = 0%N <-> p = null).
Proof.
  unfold Buffer.allocate. destruct (n =? 0)%N eqn:E.
  - apply N.eqb_eq in E. intros [= <- <-]. split; [reflexivity | tauto].
  - apply N.eqb_neq in E. intros Ha.
    assert (Hnew : objs w' = objs w /\ p <> null).
    { destruct (Alignment <=? STDCPP_DEFAULT_NEW_ALIGNMENT)%N;
        eapply operator_new_inv; exact Ha. }
    destruct Hnew as [Ho Hp]. split; [exact Ho | tauto].
Qed.

Lemma destroy_inv (this : nat) (w w' : World) (u : unit) :
  Buffer.destroy Alignment this w = Ok (u, w') ->
  objs w' = objs w /\ exists b, object w this = Some b.
Proof.
  unfold Buffer.destroy. intros Hd.
  inv_bind Hd. apply load_inv in Hd_1. destruct Hd_1 as [Hobj ->].
  inv_bind Hd. apply destroy_n_objs in Hd_1. apply deallocate_objs in Hd.
  split; [congruence | eauto].
Qed.

Lemma exchange_data_inv (other : nat) (p d : ptr) (w w' : World) :
  exchange_data other p w = Ok (d, w') -> exists b, object w other = Some b.
Proof.
  unfold exchange_data. intros He. inv_bind He.
  apply load_inv in He_1. destruct He_1 as [Hobj _]. eauto.
Qed.

(** Each operation keeps size and data pointer consistent in every
    object. *)
Lemma run_consistent (o : op) (w w' : World) :
  all_consistent w -> run Alignment o w = Ok (tt, w') -> all_consistent w'.
Proof.
  intros Hall Hrun. unfold all_consistent in *.
  destruct o as [| n | p n | other | this other | this]; simpl in Hrun.
  - (* Buffer() *)
    ok_inv Hrun. simpl. apply Forall_app. split; [exact Hall |].
    apply Forall_singleton. unfold consistent; simpl. tauto.
  - (* Buffer(size) *)
    inv_bind Hrun. ok_inv Hrun. unfold Buffer_size in Hrun_1.
    inv_bind Hrun_1. apply allocate_inv in Hrun_1_1. destruct Hrun_1_1 as [Ho Hn].
    inv_bind Hrun_1. ok_inv Hrun_1_1.
    inv_bind Hrun_1. apply default_construct_objs in Hrun_1_1.
    ok_inv Hrun_1. rewrite Hrun_1_1. simpl. rewrite Ho.
    apply Forall_app. split; [exact Hall |]. apply Forall_singleton. exact Hn.
  - (* Buffer(data, size) *)
    inv_bind Hrun. ok_inv Hrun. unfold Buffer_copy_n in Hrun_1.
    inv_bind Hrun_1. apply allocate_inv in Hrun_1_1. destruct Hrun_1_1 as [Ho Hn].
    inv_bind Hrun_1. ok_inv Hrun_1_1.
    inv_bind Hrun_1. unfold uninitialized_copy_n in Hrun_1_1.
    inv_bind Hrun_1_1. apply read_n_inv in Hrun_1_1_1. subst.
    apply put_cells_objs in Hrun_1_1.
    ok_inv Hrun_1. rewrite Hrun_1_1. simpl. rewrite Ho.
    apply Forall_app. split; [exact Hall |]. apply Forall_singleton. exact Hn.
  - (* Buffer(Buffer&&) *)
    inv_bind Hrun. ok_inv Hrun.
    assert (Hobj : exists b, object w other = Some b).
    { unfold Buffer_move in Hrun_1. inv_bind Hrun_1.
      eapply exchange_data_inv; eassumption. }
    destruct Hobj as [b Hb]. rewrite (Buffer_move_Ok w other b Hb) in Hrun_1.
    ok_inv Hrun_1. simpl.
    apply Forall_app. split.
    + apply Forall_insert; [exact Hall |]. unfold consistent; simpl. tauto.
    + apply Forall_singleton. exact (all_consistent_object w other b Hall Hb).
  - (* operator=(Buffer&&) *)
    pose proof Hrun as Hrun'. unfold assign_move in Hrun'.
    inv_bind Hrun'. destruct a. rename Hrun'_1 into Hd.
    destruct (destroy_inv _ _ _ _ Hd) as [Ho [b0 H0]].
    inv_bind Hrun'. apply exchange_data_inv in Hrun'_1.
    destruct Hrun'_1 as [b Hb].
    assert (Hb' : object w other = Some b) by (unfold object in *; rewrite <- Ho; exact Hb).
    rewrite (buf_assign_move_Ok Alignment w w0 this other b0 b H0 Hb') in Hrun.
    + ok_inv Hrun. simpl. rewrite Ho.
      apply Forall_insert.
      * apply Forall_insert; [exact Hall |]. unfold consistent; simpl. tauto.
      * exact (all_consistent_object w other b Hall Hb').
    + assumption.
    + exact Ho.
  - (* ~Buffer() *)
    unfold Buffer_destroy in Hrun. inv_bind Hrun.
    destruct (destroy_inv _ _ _ _ Hrun_1) as [Ho _].
    unfold end_lifetime in Hrun.
    destruct (objs w0 !! this) as [[c|]|]; try discriminate.
    ok_inv Hrun. simpl. rewrite Ho.
    apply Forall_insert; [exact Hall | exact I].
Qed.

Lemma reachable_consistent (w : World) :
  reachable Alignment w -> all_consistent w.
Proof.
  induction 1 as [w Hempty | o w w' _ IH Hrun].
  - unfold all_consistent. rewrite Hempty. constructor.
  - eapply run_consistent; eassumption.
Qed.

End BufferInvariant.

(* --------------------------------------------------------------------- *)
(** *** [Buffer]: exclusive ownership of the storage *)
(* --------------------------------------------------------------------- *)

Section BufferOwnership.
Context {T : Type} `{Element T}.
Variable Alignment : N.
Import Buffer.

Abbreviation World := (Buffer.World T).
Abbreviation Block := (Buffer.Block T).

(** [owns] looks at the free store only. *)
Lemma owns_heap_app (w w' : World) (b : t) (l : list (option Block)) :
  heap w' = heap w ++ l -> owns Alignment w b -> owns Alignment w' b.
Proof.
  unfold owns. intros Hh. destruct (_data b) as [| blk i]; [tauto |].
  intros (Hi & Hn & B & Hb & Hrest).
  split; [exact Hi | split; [exact Hn |]]. exists B.
  split; [| exact Hrest]. rewrite Hh. apply lookup_app_l_Some. exact Hb.
Qed.

Lemma owns_heap_insert (w w' : World) (b : t) (blk : nat) (x : option Block) :
  heap w' = <[blk := x]> (heap w) ->
  (forall k, _data b <> slot blk k) ->
  owns Alignment w b -> owns Alignment w' b.
Proof.
  unfold owns. intros Hh Hne. destruct (_data b) as [| blk' i]; [tauto |].
  intros (Hi & Hn & B & Hb & Hrest).
  split; [exact Hi | split; [exact Hn |]]. exists B.
  split; [| exact Hrest]. rewrite Hh.
  rewrite list_lookup_insert_ne; [exact Hb |].
  intros ->. exact (Hne i eq_refl).
Qed.

Lemma owns_block_lt (w : World) (b : t) (blk : nat) (k : N) :
  owns Alignment w b -> _data b = slot blk k -> (blk < length (heap w))%nat.
Proof.
  unfold owns. intros Ho E. rewrite E in Ho.
  destruct Ho as (_ & _ & B & Hb & _). eapply lookup_lt_Some; exact Hb.
Qed.

(** Objects after a new one has been added, or one has been written. *)
Lemma object_app_inv (w w' : World) (c b : t) (i : nat) :
  objs w' = objs w ++ [Some c] ->
  object w' i = Some b ->
  i <> length (objs w) /\ object w i = Some b \/
  i = length (objs w) /\ b = c.
Proof.
  unfold object. intros -> Hi.
  destruct (decide (i < length (objs w))%nat) as [Hlt | Hge].
  - left. split; [lia |]. rewrite lookup_app_l in Hi by exact Hlt. exact Hi.
  - right. rewrite lookup_app_r in Hi by lia.
    destruct (i - length (objs w))%nat as [| k] eqn:E; simpl in Hi.
    + split; [lia | congruence].
    + destruct k; discriminate.
Qed.

Lemma object_insert_inv (w w' : World) (k i : nat) (x : option t) (b : t) :
  objs w' = <[k := x]> (objs w) ->
  object w' i = Some b ->
  i = k /\ x = Some b \/ i <> k /\ object w i = Some b.
Proof.
  unfold object. intros -> Hi.
  destruct (decide (i = k)) as [-> | Hne].
  - left. split; [reflexivity |].
    destruct (decide (k < length (objs w))%nat) as [Hlt | Hge].
    + rewrite list_lookup_insert_eq in Hi by exact Hlt. destruct x; congruence.
    + rewrite list_insert_ge in Hi by lia.
      rewrite lookup_ge_None_2 in Hi by lia. discriminate.
  - right. split; [exact Hne |].
    rewrite list_lookup_insert_ne in Hi by congruence. exact Hi.
Qed.

Lemma owns_heap_eq (w w' : World) (b : t) :
  heap w' = heap w -> owns Alignment w b -> owns Alignment w' b.
Proof.
  intros Hh. apply (owns_heap_app w w' b []). rewrite app_nil_r. exact Hh.
Qed.

(** A buffer is emptied, or its lifetime ends. *)
Lemma exclusive_release (w w' : World) (k : nat) (x : option t) :
  exclusive Alignment w ->
  objs w' = <[k := x]> (objs w) -> heap w' = heap w ->
  (forall b, x = Some b -> b = mk null 0) ->
  exclusive Alignment w'.
Proof.
  intros [Hown Hsep] Ho Hh Hx. split.
  - intros i b Hb. destruct (object_insert_inv w w' k i x b Ho Hb) as [[-> E] | [Hne E]].
    + rewrite (Hx b E). reflexivity.
    + apply (owns_heap_eq w w' b Hh). exact (Hown i b E).
  - intros i j b c blk n n' Hij Hb Hc Ed.
    destruct (object_insert_inv w w' k i x b Ho Hb) as [[-> E] | [Hne E]].
    + rewrite (Hx b E) in Ed. discriminate.
    + destruct (object_insert_inv w w' k j x c Ho Hc) as [[-> E'] | [Hne' E']].
      * rewrite (Hx c E'). discriminate.
      * exact (Hsep i j b c blk n n' Hij E E' Ed).
Qed.

(** A buffer takes over storage that no other buffer points to. *)
Lemma exclusive_acquire (w w' : World) (k : nat) (c : t) :
  exclusive Alignment w ->
  objs w' = <[k := Some c]> (objs w) -> heap w' = heap w ->
  owns Alignment w c ->
  (forall i b blk n n', i <> k -> object w i = Some b ->
     _data c = slot blk n -> _data b <> slot blk n') ->
  exclusive Alignment w'.
Proof.
  intros [Hown Hsep] Ho Hh Hc Hfree. split.
  - intros i b Hb. apply (owns_heap_eq w w' b Hh).
    destruct (object_insert_inv w w' k i _ b Ho Hb) as [[-> E] | [Hne E]].
    + injection E as <-. exact Hc.
    + exact (Hown i b E).
  - intros i j b d blk n n' Hij Hb Hd Ed.
    destruct (object_insert_inv w w' k i _ b Ho Hb) as [[-> E] | [Hne E]];
      destruct (object_insert_inv w w' k j _ d Ho Hd) as [[-> E'] | [Hne' E']].
    + congruence.
    + injection E as <-. exact (Hfree j d blk n n' Hne' E' Ed).
    + injection E' as <-. intros Ed'.
      exact (Hfree i b blk n' n Hne E Ed' Ed).
    + exact (Hsep i j b d blk n n' Hij E E' Ed).
Qed.

(** A new buffer appears, owning storage that no other buffer points to. *)
Lemma exclusive_new (w w' : World) (c : t) :
  exclusive Alignment w ->
  objs w' = objs w ++ [Some c] -> heap w' = heap w ->
  owns Alignment w c ->
  (forall i b blk n n', object w i = Some b ->
     _data c = slot blk n -> _data b <> slot blk n') ->
  exclusive Alignment w'.
Proof.
  intros [Hown Hsep] Ho Hh Hc Hfree. split.
  - intros i b Hb. apply (owns_heap_eq w w' b Hh).
    destruct (object_app_inv w w' c b i Ho Hb) as [[Hne E] | [-> ->]].
    + exact (Hown i b E).
    + exact Hc.
  - intros i j b d blk n n' Hij Hb Hd Ed.
    destruct (object_app_inv w w' c b i Ho Hb) as [[Hne E] | [-> ->]];
      destruct (object_app_inv w w' c d j Ho Hd) as [[Hne' E'] | [-> ->]].
    + exact (Hsep i j b d blk n n' Hij E E' Ed).
    + intros Ed'. exact (Hfree i b blk n' n E Ed' Ed).
    + exact (Hfree j d blk n n' E' Ed).
    + congruence.
Qed.

(** The free store grows. *)
Lemma exclusive_heap_app (w w' : World) (l : list (option Block)) :
  exclusive Alignment w ->
  objs w' = objs w -> heap w' = heap w ++ l ->
  exclusive Alignment w'.
Proof.
  intros [Hown Hsep] Ho Hh.
  assert (Hobj : forall i, object w' i = object w i) by (intros i; unfold object; now rewrite Ho).
  split.
  - intros i b Hb. rewrite Hobj in Hb.
    apply (owns_heap_app w w' b l Hh). exact (Hown i b Hb).
  - intros i j b c blk n n' Hij Hb Hc. rewrite Hobj in Hb, Hc.
    exact (Hsep i j b c blk n n' Hij Hb Hc).
Qed.

(** A block that no buffer points to is given back. *)
Lemma exclusive_free (w w' : World) (blk : nat) :
  exclusive Alignment w ->
  objs w' = objs w -> heap w' = <[blk := None]> (heap w) ->
  (forall i b n, object w i = Some b -> _data b <> slot blk n) ->
  exclusive Alignment w'.
Proof.
  intros [Hown Hsep] Ho Hh Hfree.
  assert (Hobj : forall i, object w' i = object w i) by (intros i; unfold object; now rewrite Ho).
  split.
  - intros i b Hb. rewrite Hobj in Hb.
    apply (owns_heap_insert w w' b blk None Hh).
    + intros n. exact (Hfree i b n Hb).
    + exact (Hown i b Hb).
  - intros i j b c blk' n n' Hij Hb Hc. rewrite Hobj in Hb, Hc.
    exact (Hsep i j b c blk' n n' Hij Hb Hc).
Qed.

(** What [allocate] returns when it returns. *)
Lemma allocate_shape (n : N) (w w1 : World) (d : ptr) :
  Buffer.allocate Alignment n w = Ok (d, w1) ->
  n = 0%N /\ d = null /\ w1 = w \/
  n <> 0%N /\ d = slot (length (heap w)) 0 /\
  exists (nb : N) (m : nat), (m <= N.to_nat n)%nat /\
    w1 = mk_World (objs w)
           (heap w ++ [Some (mk_Block nb (new_alignment Alignment) (replicate m None))])
           (avail w - nb)%N (trace w).
Proof.
  unfold Buffer.allocate, new_alignment. destruct (n =? 0)%N eqn:E.
  - apply N.eqb_eq in E. intros Ha. ok_inv Ha. left. tauto.
  - apply N.eqb_neq in E. intros Ha. right.
    split; [exact E |].
    set (sz := @sizeof T _) in *.
    set (nbytes := Z.to_N (wrap_u size_t_bits (Z.of_N n * Z.pos sz))) in *.
    assert (Hm : (N.to_nat (nbytes / Npos sz) <= N.to_nat n)%nat).
    { assert (nbytes <= n * Npos sz)%N.
      { unfold nbytes, wrap_u, size_t_bits.
        pose proof (Z.mod_le (Z.of_N n * Z.pos sz) (2 ^ 64) ltac:(lia) ltac:(lia)).
        pose proof (Z.mod_pos_bound (Z.of_N n * Z.pos sz) (2 ^ 64) ltac:(lia)).
        lia. }
      assert (nbytes / Npos sz <= n)%N.
      { apply N.Div0.div_le_upper_bound. lia. }
      lia. }
    destruct (Alignment <=? STDCPP_DEFAULT_NEW_ALIGNMENT)%N;
      unfold operator_new in Ha;
      (destruct (nbytes <=? avail w)%N; [| discriminate]);
      ok_inv Ha; (split; [reflexivity |]);
      exists nbytes, (N.to_nat (nbytes / Npos sz)); (split; [exact Hm | reflexivity]).
Qed.

(** Constructing [m >= 1] elements in a fresh block of at most that many
    cells fills the block. *)
Lemma put_cells_fresh (w w' : World) (h : list (option Block)) (nb : N)
    (a : option N) (m : nat) (cs : list (option T)) :
  heap w = h ++ [Some (mk_Block nb a (replicate m None))] ->
  cs <> [] -> (m <= length cs)%nat ->
  put_cells (slot (length h) 0) cs w = Ok (tt, w') ->
  w' = set_heap (fun _ => h ++ [Some (mk_Block nb a cs)]) w.
Proof.
  intros Hh Hne Hm. unfold put_cells. destruct cs as [| c cs]; [congruence |].
  rewrite Hh, lookup_app_r by lia. rewrite Nat.sub_diag. simpl lookup.
  cbv beta iota. cbn [cells bytes align].
  destruct (decide _) as [Hle | Hgt]; [| discriminate].
  intros Hp. ok_inv Hp. unfold set_heap. f_equal.
  rewrite Hh, insert_app_r_alt by lia. rewrite Nat.sub_diag.
  change (N.to_nat 0) with 0%nat in *.
  rewrite length_replicate in Hle.
  simpl in Hm, Hle.
  rewrite drop_ge by (rewrite length_replicate; lia).
  simpl. rewrite app_nil_r. reflexivity.
Qed.


Lemma exclusive_ext (w w' : World) :
  exclusive Alignment w -> objs w' = objs w -> heap w' = heap w ->
  exclusive Alignment w'.
Proof.
  intros Hx Ho Hh. apply (exclusive_heap_app w w' [] Hx Ho).
  rewrite app_nil_r. exact Hh.
Qed.

(** Construction with freshly allocated storage. *)
Lemma exclusive_construct (n : N) (w w1 w3 : World) (d : ptr) (xs : list T) :
  exclusive Alignment w ->
  Buffer.allocate Alignment n w = Ok (d, w1) ->
  length xs = N.to_nat n ->
  put_cells d (Some <$> xs) (set_objs (fun os => os ++ [Some (mk d n)]) w1) = Ok (tt, w3) ->
  exclusive Alignment w3.
Proof.
  intros Hx Ha Hlen Hput.
  destruct (allocate_shape n w w1 d Ha)
    as [(-> & -> & ->) | (Hn & -> & nb & m & Hm & ->)].
  - destruct xs; [| discriminate]. ok_inv Hput.
    apply (exclusive_new w _ (mk null 0) Hx); try reflexivity.
    intros i b blk k k' _ Ed. discriminate.
  - assert (Hne : Some <$> xs <> []) by (destruct xs; [simpl in Hlen; lia | discriminate]).
    apply (put_cells_fresh _ _ (heap w) nb (new_alignment Alignment) m) in Hput;
      [| reflexivity | exact Hne | rewrite length_fmap; lia].
    subst w3.
    set (B := mk_Block nb (new_alignment Alignment) (Some <$> xs)).
    set (wm := mk_World (objs w) (heap w ++ [Some B]) (avail w) (trace w)).
    assert (Hxm : exclusive Alignment wm)
      by (apply (exclusive_heap_app w wm [Some B] Hx); reflexivity).
    apply (exclusive_new wm _ (mk (slot (length (heap w)) 0) n) Hxm); try reflexivity.
    + unfold owns; simpl. split; [reflexivity | split; [exact Hn |]].
      exists B. split; [| split; [reflexivity |]].
      * rewrite lookup_app_r by lia. rewrite Nat.sub_diag. reflexivity.
      * unfold constructed. destruct default_init; [| exact I].
        exists xs. split; [reflexivity | exact Hlen].
    + intros i b blk k k' Hb Ed Eb. simpl in Ed. injection Ed as <- <-.
      destruct Hx as [Hown _].
      pose proof (owns_block_lt w b _ _ (Hown i b Hb) Eb). lia.
Qed.

(** Construction of elements of a trivial type: the storage is allocated
    and nothing is written to it. *)
Lemma exclusive_allocate (n : N) (w w1 : World) (d : ptr) :
  exclusive Alignment w ->
  Buffer.allocate Alignment n w = Ok (d, w1) ->
  default_init = None ->
  exclusive Alignment (set_objs (fun os => os ++ [Some (mk d n)]) w1).
Proof.
  intros Hx Ha Htriv.
  destruct (allocate_shape n w w1 d Ha)
    as [(-> & -> & ->) | (Hn & -> & nb & m & Hm & ->)].
  - apply (exclusive_new w _ (mk null 0) Hx); try reflexivity.
    intros i b blk k k' _ Ed. discriminate.
  - set (B := mk_Block nb (new_alignment Alignment) (replicate m None)).
    set (wm := mk_World (objs w) (heap w ++ [Some B]) (avail w) (trace w)).
    assert (Hxm : exclusive Alignment wm)
      by (apply (exclusive_heap_app w wm [Some B] Hx); reflexivity).
    apply (exclusive_new wm _ (mk (slot (length (heap w)) 0) n) Hxm); try reflexivity.
    + unfold owns; simpl. split; [reflexivity | split; [exact Hn |]].
      exists B. split; [| split; [reflexivity |]].
      * rewrite lookup_app_r by lia. rewrite Nat.sub_diag. reflexivity.
      * unfold constructed. rewrite Htriv. exact I.
    + intros i b blk k k' Hb Ed Eb. simpl in Ed. injection Ed as <- <-.
      destruct Hx as [Hown _].
      pose proof (owns_block_lt w b _ _ (Hown i b Hb) Eb). lia.
Qed.

(** Every supported operation keeps ownership exclusive. *)
Lemma run_exclusive (o : op) (w w' : World) :
  exclusive Alignment w -> supported o ->
  run Alignment o w = Ok (tt, w') -> exclusive Alignment w'.
Proof.
  intros Hx Hs Hrun.
  destruct o as [| n | p n | other | this other | this]; simpl in Hrun, Hs.
  - (* Buffer() *)
    ok_inv Hrun.
    apply (exclusive_new w _ (mk null 0) Hx); try reflexivity.
    intros i b blk k k' _ Ed. discriminate.
  - (* Buffer(size) *)
    inv_bind Hrun. ok_inv Hrun. unfold Buffer_size in Hrun_1.
    inv_bind Hrun_1. rename Hrun_1_1 into Ha.
    inv_bind Hrun_1. ok_inv Hrun_1_1.
    inv_bind Hrun_1. ok_inv Hrun_1. destruct a1.
    unfold uninitialized_default_construct_n in Hrun_1_1.
    destruct default_init as [v |] eqn:Ev.
    + rewrite <- fmap_replicate in Hrun_1_1.
      eapply (exclusive_construct n w _ _ _ _ Hx Ha); [| exact Hrun_1_1].
      apply length_replicate.
    + ok_inv Hrun_1_1. exact (exclusive_allocate n w _ _ Hx Ha Ev).
  - (* Buffer(data, size) *)
    inv_bind Hrun. ok_inv Hrun. unfold Buffer_copy_n in Hrun_1.
    inv_bind Hrun_1. rename Hrun_1_1 into Ha.
    inv_bind Hrun_1. ok_inv Hrun_1_1.
    inv_bind Hrun_1. ok_inv Hrun_1. destruct a1.
    unfold uninitialized_copy_n in Hrun_1_1.
    inv_bind Hrun_1_1. rename Hrun_1_1_1 into Hread.
    assert (Hlen : length a = N.to_nat n /\ w1 = set_objs (fun os => os ++ [Some (mk a0 n)]) w0).
    { unfold read_n in Hread.
      destruct (cells_at _ p (N.to_nat n)) as [cs |] eqn:Ec; [| discriminate].
      simpl in Hread. destruct (mapM id cs) as [ys |] eqn:Em; [| discriminate].
      ok_inv Hread. split; [| reflexivity].
      apply length_mapM in Em. rewrite <- Em.
      unfold cells_at in Ec. destruct (decide (N.to_nat n = 0%nat)) as [E0 | E0].
      - injection Ec as <-. simpl. lia.
      - destruct p as [| bk i]; [discriminate |].
        destruct (heap _ !! bk) as [[blk|]|]; try discriminate.
        destruct (decide _) as [Hle | _]; [| discriminate].
        injection Ec as <-. rewrite length_take, length_drop. lia. }
    destruct Hlen as [Hlen ->].
    exact (exclusive_construct n w _ _ _ a Hx Ha Hlen Hrun_1_1).
  - (* Buffer(Buffer&&) *)
    inv_bind Hrun. ok_inv Hrun.
    assert (Hobj : exists b, object w other = Some b).
    { unfold Buffer_move in Hrun_1. inv_bind Hrun_1.
      eapply exchange_data_inv; eassumption. }
    destruct Hobj as [b Hb]. rewrite (Buffer_move_Ok w other b Hb) in Hrun_1.
    ok_inv Hrun_1.
    set (wa := set_objs (<[other := Some (mk null 0)]>) w).
    assert (Hxa : exclusive Alignment wa).
    { apply (exclusive_release w wa other (Some (mk null 0)) Hx); try reflexivity.
      intros c [= <-]. reflexivity. }
    apply (exclusive_new wa _ b Hxa); try reflexivity.
    + apply (owns_heap_eq w wa b eq_refl). destruct Hx as [Hown _]. exact (Hown other b Hb).
    + intros i c blk k k' Hc Ed.
      destruct (object_insert_inv w wa other i _ c eq_refl Hc) as [[-> E] | [Hne E]].
      * injection E as <-. discriminate.
      * destruct Hx as [_ Hsep].
        exact (Hsep other i b c blk k k' ltac:(congruence) Hb E Ed).
  - (* operator=(Buffer&&) *)
    pose proof Hrun as Hrun'. unfold assign_move in Hrun'.
    inv_bind Hrun'. destruct a. rename Hrun'_1 into Hd.
    destruct (destroy_inv _ _ _ _ _ Hd) as [Ho [b0 H0]].
    inv_bind Hrun'. apply exchange_data_inv in Hrun'_1.
    destruct Hrun'_1 as [b Hb].
    assert (Hb' : object w other = Some b) by (unfold object in *; rewrite <- Ho; exact Hb).
    rewrite (buf_assign_move_Ok Alignment w w0 this other b0 b H0 Hb' Hd Ho) in Hrun.
    ok_inv Hrun.
    pose proof Hx as [Hown Hsep].
    destruct (destroy_owned Alignment w this b0 H0 (Hown this b0 H0))
      as (wd & Hd' & _ & Hfree).
    rewrite Hd in Hd'. injection Hd' as <-.
    set (wa := set_objs (<[other := Some (mk null 0)]>) w).
    assert (Hxa : exclusive Alignment wa).
    { apply (exclusive_release w wa other (Some (mk null 0)) Hx); try reflexivity.
      intros c [= <-]. reflexivity. }
    set (wb := set_objs (<[this := Some b]>) wa).
    assert (Hxb : exclusive Alignment wb).
    { apply (exclusive_acquire wa wb this b Hxa); try reflexivity.
      - apply (owns_heap_eq w wa b eq_refl). exact (Hown other b Hb').
      - intros i c blk k k' Hi Hc Ed.
        destruct (object_insert_inv w wa other i _ c eq_refl Hc) as [[-> E] | [Hne E]].
        + injection E as <-. discriminate.
        + exact (Hsep other i b c blk k k' ltac:(congruence) Hb' E Ed). }
    assert (Hobjs : objs (set_objs (fun os => <[this := Some b]> (<[other := Some (mk null 0)]> os)) w0)
                    = objs wb).
    { unfold wb, wa, set_objs; simpl. rewrite Ho. reflexivity. }
    destruct (_data b0) as [| blk0 k0] eqn:E0.
    + subst w0. apply (exclusive_ext wb _ Hxb Hobjs). reflexivity.
    + destruct Hfree as [Hheap _].
      apply (exclusive_free wb _ blk0 Hxb Hobjs).
      * simpl. exact Hheap.
      * intros i c k Hc.
        destruct (object_insert_inv wa wb this i _ c eq_refl Hc) as [[-> E] | [Hne E]].
        -- assert (c = b) as -> by congruence.
           exact (Hsep this other b0 b blk0 k0 k Hs H0 Hb' E0).
        -- destruct (object_insert_inv w wa other i _ c eq_refl E) as [[-> E'] | [Hne' E']].
           ++ injection E' as <-. discriminate.
           ++ exact (Hsep this i b0 c blk0 k0 k ltac:(congruence) H0 E' E0).
  - (* ~Buffer() *)
    unfold Buffer_destroy in Hrun. inv_bind Hrun. destruct a. rename Hrun_1 into Hd.
    destruct (destroy_inv _ _ _ _ _ Hd) as [Ho [b0 H0]].
    pose proof Hx as [Hown Hsep].
    destruct (destroy_owned Alignment w this b0 H0 (Hown this b0 H0))
      as (wd & Hd' & _ & Hfree).
    rewrite Hd in Hd'. injection Hd' as <-.
    unfold end_lifetime in Hrun.
    destruct (objs w0 !! this) as [[c|]|]; try discriminate.
    ok_inv Hrun.
    set (wa := set_objs (<[this := None]>) w).
    assert (Hxa : exclusive Alignment wa).
    { apply (exclusive_release w wa this None Hx); try reflexivity.
      intros c' [=]. }
    assert (Hobjs : objs (set_objs (<[this := None]>) w0) = objs wa).
    { unfold wa, set_objs; simpl. rewrite Ho. reflexivity. }
    destruct (_data b0) as [| blk0 k0] eqn:E0.
    + subst w0. apply (exclusive_ext wa _ Hxa Hobjs). reflexivity.
    + destruct Hfree as [Hheap _].
      apply (exclusive_free wa _ blk0 Hxa Hobjs).
      * simpl. exact Hheap.
      * intros i c' k Hc.
        destruct (object_insert_inv w wa this i _ c' eq_refl Hc) as [[-> E] | [Hne E]].
        -- discriminate.
        -- exact (Hsep this i b0 c' blk0 k0 k ltac:(congruence) H0 E E0).
Qed.

Lemma reachable_supported_exclusive (w : World) :
  reachable_supported Alignment w -> exclusive Alignment w.
Proof.
  induction 1 as [w Hempty | o w w' _ IH Hs Hrun].
  - split.
    + intros i b Hb. unfold object in Hb. rewrite Hempty in Hb. discriminate.
    + intros i j b c blk k k' _ Hb. unfold object in Hb. rewrite Hempty in Hb. discriminate.
  - eapply run_exclusive; eassumption.
Qed.

Lemma reachable_supported_reachable (w : World) :
  reachable_supported Alignment w -> reachable Alignment w.
Proof.
  induction 1 as [w Hempty | o w w' _ IH Hs Hrun].
  - apply reachable_start. exact Hempty.
  - eapply reachable_step; eassumption.
Qed.


Lemma operator_bool_Ok (w : World) (i : nat) (b : t) :
  object w i = Some b ->
  operator_bool i w = Ok (bool_decide (_data b <> null), w).
Proof. intros E. unfold operator_bool. step (buf_load_Ok _ _ _ E). reflexivity. Qed.

(** [Buffer(0)] holds no storage and leaves the free store alone. *)
Lemma Buffer_size_0 (w : World) :
  Buffer_size Alignment 0 w =
  Ok (length (objs w), set_objs (fun os => os ++ [Some (mk null 0)]) w).
Proof.
  unfold Buffer_size, uninitialized_default_construct_n.
  destruct default_init; reflexivity.
Qed.

(** C7: in every state reached through the public operations, each buffer
    has [size() == 0] if and only if [data() == nullptr], and conversion to
    [bool] returns true exactly when the data pointer is not null (that is,
    exactly when the size is not 0); when no buffer was move-assigned to
    itself on the way, a non-null data pointer is the start of an allocated
    block that holds the [size()] elements of this buffer (all of them
    constructed, when the element type has a constructor); constructing
    with size 0
    always succeeds, gives a buffer with null data and size 0, and takes
    nothing from the free store. *)
Theorem size_zero_iff_no_storage (w : World) :
  reachable Alignment w ->
  (forall (this : nat) (b : t), object w this = Some b ->
     size this w = Ok (_size b, w) /\ data this w = Ok (_data b, w) /\
     (_size b = 0%N <-> _data b = null) /\
     exists r, operator_bool this w = Ok (r, w) /\
       (r = true <-> _data b <> null) /\ (r = true <-> _size b <> 0%N)) /\
  (reachable_supported Alignment w ->
   forall (this : nat) (b : t), object w this = Some b -> owns Alignment w b) /\
  (exists this w',
     Buffer_size Alignment 0 w = Ok (this, w') /\
     reachable Alignment w' /\
     object w' this = Some (mk null 0) /\
     heap w' = heap w /\ avail w' = avail w).
Proof.
  intros Hr. split; [| split].
  - intros this b Hb.
    pose proof (all_consistent_object w this b
                  (reachable_consistent Alignment w Hr) Hb) as Hc.
    split; [apply (size_Ok _ _ _ Hb) |].
    split; [apply (data_Ok _ _ _ Hb) |].
    split; [exact Hc |].
    exists (bool_decide (_data b <> null)).
    split; [apply (operator_bool_Ok _ _ _ Hb) |].
    rewrite bool_decide_eq_true. unfold consistent in Hc. split; [tauto |].
    split; intros Hx Hy; apply Hx; apply Hc; exact Hy.
  - intros Hs. exact (proj1 (reachable_supported_exclusive w Hs)).
  - exists (length (objs w)), (set_objs (fun os => os ++ [Some (mk null 0)]) w).
    split; [apply Buffer_size_0 |].
    split; [| split; [apply object_fresh | split; reflexivity]].
    apply (reachable_step Alignment (Size 0) w); [exact Hr |].
    simpl. rewrite (bind_Ok _ _ _ _ _ (Buffer_size_0 w)). reflexivity.
Qed.

End BufferOwnership.

Lemma size_zero_iff_no_storage_witness :
  let w0 := Buffer.mk_World (T := u32) [] [] 1024 [] in
  let w := Buffer.mk_World (T := u32) [Some (Buffer.mk (Buffer.slot 0 0) 2)]
             [Some (Buffer.mk_Block 8 None [None; None])] 1016 [] in
  Buffer.reachable 4 w /\
  Buffer.object w 0 = Some (Buffer.mk (Buffer.slot 0 0) 2) /\
  ((2%N = 0%N <-> Buffer.slot 0 0 = Buffer.null) /\
   exists r, Buffer.operator_bool 0 w = Ok (r, w) /\
     (r = true <-> Buffer.slot 0 0 <> Buffer.null) /\ (r = true <-> 2%N <> 0%N)).
Proof.
  cbv zeta.
  set (w0 := Buffer.mk_World (T := u32) [] [] 1024 []).
  set (w := Buffer.mk_World (T := u32) [Some (Buffer.mk (Buffer.slot 0 0) 2)]
             [Some (Buffer.mk_Block 8 None [None; None])] 1016 []).
  assert (Hr : Buffer.reachable 4 w).
  { apply (Buffer.reachable_step 4 (Buffer.Size 2) w0 w).
    - apply Buffer.reachable_start. reflexivity.
    - reflexivity. }
  assert (Hobj : Buffer.object w 0 = Some (Buffer.mk (Buffer.slot 0 0) 2)) by reflexivity.
  split; [exact Hr | split; [exact Hobj |]].
  exact (proj2 (proj2 (proj1 (size_zero_iff_no_storage 4 w Hr) 0%nat _ Hobj))).
Defined.

(* --------------------------------------------------------------------- *)
(** *** [Buffer]: copying an array in and iterating over it *)
(* --------------------------------------------------------------------- *)

Section BufferRoundTrip.
Context {T : Type} `{Element T}.
Variable Alignment : N.
Import Buffer.

Abbreviation World := (Buffer.World T).
Abbreviation Block := (Buffer.Block T).

(** Allocating more blocks keeps existing arrays where they are. *)
Lemma array_at_heap_app (w w' : World) (p : ptr) (xs : list T) (l : list (option Block)) :
  heap w' = heap w ++ l -> array_at w p xs -> array_at w' p xs.
Proof.
  unfold array_at, cells_at. intros Hh.
  destruct (decide (length xs = 0%nat)); [tauto |].
  destruct p as [| b i]; [tauto |].
  destruct (heap w !! b) as [[blk|]|] eqn:E; try discriminate.
  rewrite Hh, (lookup_app_l_Some _ _ _ _ E). tauto.
Qed.

Lemma take_1_drop {A} (l : list A) (k : nat) (y : A) :
  l !! k = Some y -> take 1 (drop k l) = [y].
Proof.
  revert k. induction l as [| a l IH]; intros [| k] E; try discriminate.
  - injection E as ->. reflexivity.
  - simpl. apply IH. exact E.
Qed.

Lemma drop_lookup {A} (l : list A) (k : nat) (y : A) :
  l !! k = Some y -> drop k l = y :: drop (S k) l.
Proof.
  revert k. induction l as [| a l IH]; intros [| k] E; try discriminate.
  - injection E as ->. reflexivity.
  - simpl. apply IH. exact E.
Qed.

(** [*p] for a pointer to a live element of a block. *)
Lemma read_Ok (w : World) (b : nat) (B : Block) (xs : list T) (k : nat) (x : T) :
  heap w !! b = Some (Some B) -> cells B = Some <$> xs -> xs !! k = Some x ->
  read (slot b (N.of_nat k)) w = Ok (x, w).
Proof.
  intros Hb Hc Hx. unfold read.
  rewrite (bind_Ok _ _ w w [x]); [reflexivity |].
  apply read_n_Ok; [reflexivity |].
  unfold array_at. simpl length.
  pose proof (lookup_lt_Some _ _ _ Hx) as Hlt.
  rewrite (cells_at_block w b (N.of_nat k) 1 B Hb).
  - rewrite Nat2N.id, Hc. erewrite take_1_drop; [reflexivity |].
    rewrite list_lookup_fmap, Hx. reflexivity.
  - rewrite Nat2N.id, Hc, length_fmap. lia.
Qed.

(** The loop from the [k]-th element to one past the last visits the
    elements from the [k]-th on, in order, as soon as [fuel] covers them. *)
Lemma visit_Ok (w : World) (b : nat) (B : Block) (xs : list T) :
  heap w !! b = Some (Some B) -> cells B = Some <$> xs ->
  forall (fuel k : nat),
    (k <= length xs)%nat -> (length xs - k <= fuel)%nat ->
    visit fuel (slot b (N.of_nat k)) (slot b (N.of_nat (length xs))) w =
    Ok (drop k xs, w).
Proof.
  intros Hb Hc. induction fuel as [| fuel IH]; intros k Hk Hfuel.
  - assert (k = length xs) as -> by lia.
    simpl. rewrite decide_True by reflexivity. rewrite drop_all. reflexivity.
  - destruct (decide (k = length xs)) as [-> | Hne].
    + simpl. rewrite decide_True by reflexivity. rewrite drop_all. reflexivity.
    + simpl. rewrite decide_False by (intros [= E]; lia).
      destruct (lookup_lt_is_Some_2 xs k ltac:(lia)) as [x Hx].
      rewrite (bind_Ok _ _ _ _ _ (read_Ok w b B xs k x Hb Hc Hx)).
      replace (N.of_nat k + 1)%N with (N.of_nat (S k)) by lia.
      rewrite (bind_Ok _ _ _ _ _ (IH (S k) ltac:(lia) ltac:(lia))).
      rewrite (drop_lookup xs k x Hx). reflexivity.
Qed.

(** Iterating over, and indexing into, a buffer whose block holds [xs]. *)
Lemma iterate_Ok (w : World) (this b : nat) (B : Block) (xs : list T) (fuel : nat) :
  object w this = Some (mk (slot b 0) (N.of_nat (length xs))) ->
  heap w !! b = Some (Some B) -> cells B = Some <$> xs ->
  (length xs <= fuel)%nat ->
  iterate fuel this w = Ok (xs, w).
Proof.
  intros Hobj Hb Hc Hfuel. unfold iterate.
  rewrite (bind_Ok _ _ w w (slot b 0)).
  2:{ unfold begin. step (buf_load_Ok _ _ _ Hobj). reflexivity. }
  rewrite (bind_Ok _ _ w w (slot b (N.of_nat (length xs)))).
  2:{ unfold end_. step (buf_load_Ok _ _ _ Hobj). reflexivity. }
  apply (visit_Ok w b B xs Hb Hc fuel 0); lia.
Qed.

Lemma operator_index_Ok (w : World) (this b : nat) (B : Block) (xs : list T)
    (i : nat) (x : T) :
  object w this = Some (mk (slot b 0) (N.of_nat (length xs))) ->
  heap w !! b = Some (Some B) -> cells B = Some <$> xs ->
  xs !! i = Some x ->
  operator_index this (N.of_nat i) w = Ok (x, w).
Proof.
  intros Hobj Hb Hc Hx. unfold operator_index.
  step (buf_load_Ok _ _ _ Hobj).
  pose proof (lookup_lt_Some _ _ _ Hx) as Hlt.
  replace (N.of_nat i <? N.of_nat (length xs))%N with true
    by (symmetry; apply N.ltb_lt; lia).
  apply (read_Ok w b B xs i x Hb Hc Hx).
Qed.

End BufferRoundTrip.

Section BufferCopy.
Context {T : Type} `{Element T}.
Variable Alignment : N.
Import Buffer.

Abbreviation World := (Buffer.World T).
Abbreviation Block := (Buffer.Block T).

(** [allocate] without overflow of the byte count and with enough room. *)
Lemma allocate_Ok (w : World) (n : N) :
  n <> 0%N ->
  Z.of_N n * Zpos sizeof < 2 ^ size_t_bits ->
  (n * Npos sizeof <= avail w)%N ->
  Buffer.allocate Alignment n w =
  Ok (slot (length (heap w)) 0,
      mk_World (objs w)
        (heap w ++ [Some (mk_Block (n * Npos sizeof) (new_alignment Alignment)
                            (replicate (N.to_nat n) None))])
        (avail w - n * Npos sizeof)%N (trace w)).
Proof.
  intros Hn Hfit Hroom. unfold Buffer.allocate, new_alignment.
  replace (n =? 0)%N with false by (symmetry; apply N.eqb_neq; exact Hn).
  assert (Hbytes : Z.to_N (wrap_u size_t_bits (Z.of_N n * Z.pos sizeof))
                   = (n * Npos sizeof)%N).
  { unfold wrap_u. rewrite Z.mod_small by lia. lia. }
  rewrite Hbytes.
  assert (Hdiv : (n * Npos sizeof / Npos sizeof)%N = n) by (apply N.div_mul; discriminate).
  destruct (Alignment <=? STDCPP_DEFAULT_NEW_ALIGNMENT)%N;
    unfold operator_new;
    (replace (n * Npos sizeof <=? avail w)%N with true
       by (symmetry; apply N.leb_le; exact Hroom));
    rewrite Hdiv; reflexivity.
Qed.

(** [Buffer(data, size)] on an array of [size] elements. *)
Lemma Buffer_copy_n_Ok (w : World) (src : ptr) (xs : list T) :
  xs <> [] ->
  array_at w src xs ->
  Z.of_nat (length xs) * Zpos sizeof < 2 ^ size_t_bits ->
  (N.of_nat (length xs) * Npos sizeof <= avail w)%N ->
  Buffer_copy_n Alignment src (N.of_nat (length xs)) w =
  Ok (length (objs w),
      mk_World (objs w ++ [Some (mk (slot (length (heap w)) 0) (N.of_nat (length xs)))])
        (heap w ++ [Some (mk_Block (N.of_nat (length xs) * Npos sizeof) (new_alignment Alignment)
                            (Some <$> xs))])
        (avail w - N.of_nat (length xs) * Npos sizeof)%N (trace w)).
Proof.
  intros Hne Ha Hfit Hroom. unfold Buffer_copy_n.
  assert (Hn : N.of_nat (length xs) <> 0%N) by (destruct xs; [congruence | discriminate]).
  rewrite (bind_Ok _ _ _ _ _ (allocate_Ok w _ Hn ltac:(lia) Hroom)).
  set (B0 := mk_Block (N.of_nat (length xs) * Npos sizeof) (new_alignment Alignment)
               (replicate (N.to_nat (N.of_nat (length xs))) None)).
  set (w1 := mk_World (objs w) (heap w ++ [Some B0])
               (avail w - N.of_nat (length xs) * Npos sizeof)%N (trace w)).
  set (d := slot (length (heap w)) 0).
  rewrite (bind_Ok _ _ w1 (set_objs (fun os => os ++ [Some (mk d (N.of_nat (length xs)))]) w1)
             (length (objs w))) by reflexivity.
  set (w2 := set_objs (fun os => os ++ [Some (mk d (N.of_nat (length xs)))]) w1).
  assert (Hb2 : heap w2 !! length (heap w) = Some (Some B0)).
  { unfold w2, w1; simpl. rewrite lookup_app_r by lia. rewrite Nat.sub_diag. reflexivity. }
  rewrite (bind_Ok _ _ w2
             (set_heap (<[length (heap w) := Some (mk_Block (bytes B0) (align B0) (Some <$> xs))]>) w2)
             tt).
  - unfold w2, w1, set_heap, set_objs; simpl.
    rewrite insert_app_r_alt by lia. rewrite Nat.sub_diag. reflexivity.
  - unfold uninitialized_copy_n.
    rewrite (bind_Ok _ _ w2 w2 xs).
    + apply put_cells_whole; [exact Hb2 | |].
      * destruct xs; [congruence | discriminate].
      * unfold B0; simpl. rewrite length_fmap, length_replicate. lia.
    + apply read_n_Ok; [lia |].
      apply (array_at_heap_app w w2 src xs [Some B0]); [reflexivity | exact Ha].
Qed.

(** A store that cannot supply the bytes makes the constructor throw. *)
Lemma Buffer_copy_n_Throw (w : World) (src : ptr) (n : N) :
  Z.of_N n * Zpos sizeof < 2 ^ size_t_bits ->
  (avail w < n * Npos sizeof)%N ->
  Buffer_copy_n Alignment src n w = Throw.
Proof.
  intros Hfit Hroom. unfold Buffer_copy_n, Buffer.allocate.
  assert (Hn : n <> 0%N) by lia.
  replace (n =? 0)%N with false by (symmetry; apply N.eqb_neq; exact Hn).
  assert (Hbytes : Z.to_N (wrap_u size_t_bits (Z.of_N n * Z.pos sizeof))
                   = (n * Npos sizeof)%N).
  { unfold wrap_u. rewrite Z.mod_small by lia. lia. }
  rewrite Hbytes.
  apply N.leb_gt in Hroom.
  unfold mbind, M_bind, bind, operator_new.
  destruct (Alignment <=? STDCPP_DEFAULT_NEW_ALIGNMENT)%N; rewrite Hroom; reflexivity.
Qed.

(** C8: for a source array of [n] elements, [Buffer(data, n)] returns -
    provided the free store can supply the [n * sizeof(T)] bytes, and throws
    otherwise - a buffer with [size() == n]; iterating from [begin()] to
    [end()] terminates and visits exactly the source elements in their
    order, and element [i] of the buffer is [data[i]]. *)
Theorem Buffer_copy_round_trip (w : World) (src : ptr) (xs : list T) (n : N) :
  array_at w src xs -> length xs = N.to_nat n ->
  Z.of_N n * Zpos sizeof < 2 ^ size_t_bits ->
  ((n * Npos sizeof <= avail w)%N ->
   exists this w',
     Buffer_copy_n Alignment src n w = Ok (this, w') /\
     size this w' = Ok (n, w') /\
     (forall fuel, (length xs <= fuel)%nat -> iterate fuel this w' = Ok (xs, w')) /\
     (forall i x, xs !! i = Some x -> operator_index this (N.of_nat i) w' = Ok (x, w'))) /\
  ((avail w < n * Npos sizeof)%N -> Buffer_copy_n Alignment src n w = Throw).
Proof.
  intros Ha Hlen Hfit. split; [| apply Buffer_copy_n_Throw; exact Hfit].
  intros Hroom.
  assert (Hn : n = N.of_nat (length xs)) by lia. subst n.
  destruct xs as [| x0 xs'].
  - (* the empty array *)
    set (w' := set_objs (fun os => os ++ [Some (mk null 0)]) w).
    exists (length (objs w)), w'.
    split; [reflexivity |].
    split; [apply (size_Ok _ _ _ (object_fresh w (mk null 0))) |].
    split.
    + intros fuel _. unfold iterate.
      rewrite (bind_Ok _ _ w' w' null).
      2:{ unfold begin. step (buf_load_Ok _ _ _ (object_fresh w (mk null 0))). reflexivity. }
      rewrite (bind_Ok _ _ w' w' null).
      2:{ unfold end_. step (buf_load_Ok _ _ _ (object_fresh w (mk null 0))). reflexivity. }
      destruct fuel; reflexivity.
    + intros i x Hx. discriminate Hx.
  - set (xs := x0 :: xs') in *.
    assert (Hne : xs <> []) by discriminate.
    pose proof (Buffer_copy_n_Ok w src xs Hne Ha ltac:(lia) Hroom) as Hrun.
    set (B := mk_Block (N.of_nat (length xs) * Npos sizeof) (new_alignment Alignment)
                (Some <$> xs)) in *.
    set (w' := mk_World
                 (objs w ++ [Some (mk (slot (length (heap w)) 0) (N.of_nat (length xs)))])
                 (heap w ++ [Some B])
                 (avail w - N.of_nat (length xs) * Npos sizeof)%N (trace w)) in *.
    assert (Hobj : object w' (length (objs w))
                   = Some (mk (slot (length (heap w)) 0) (N.of_nat (length xs)))).
    { unfold object, w'; simpl. rewrite lookup_app_r by lia.
      rewrite Nat.sub_diag. reflexivity. }
    assert (Hb : heap w' !! length (heap w) = Some (Some B)).
    { unfold w'; simpl. rewrite lookup_app_r by lia. rewrite Nat.sub_diag. reflexivity. }
    exists (length (objs w)), w'.
    split; [exact Hrun |].
    split; [apply (size_Ok _ _ _ Hobj) |].
    split.
    + intros fuel Hfuel. apply (iterate_Ok w' _ _ B xs fuel Hobj Hb eq_refl Hfuel).
    + intros i x Hx. apply (operator_index_Ok w' _ _ B xs i x Hobj Hb eq_refl Hx).
Qed.

End BufferCopy.

(** Copying the three elements of an existing array into a new buffer. *)
Example Buffer_copy_3 :
  let w := Buffer.mk_World (T := u32) []
             [Some (Buffer.mk_Block 12 None [Some 10; Some 20; Some 30])] 100 [] in
  (this ← Buffer.Buffer_copy_n 4 (Buffer.slot 0 0) 3;
   Buffer.iterate 3 this) w =
  Ok ([10; 20; 30],
      Buffer.mk_World [Some (Buffer.mk (Buffer.slot 1 0) 3)]
        [Some (Buffer.mk_Block 12 None [Some 10; Some 20; Some 30]);
         Some (Buffer.mk_Block 12 None [Some 10; Some 20; Some 30])] 88 []).
Proof. reflexivity. Qed.

Lemma Buffer_copy_round_trip_witness :
  let w := Buffer.mk_World (T := u32) []
             [Some (Buffer.mk_Block 12 None [Some 10; Some 20; Some 30])] 100 [] in
  Buffer.array_at w (Buffer.slot 0 0) [10; 20; 30] /\
  length [10; 20; 30] = N.to_nat 3 /\
  Z.of_N 3 * Zpos sizeof < 2 ^ size_t_bits /\
  (3 * Npos sizeof <= Buffer.avail w)%N /\
  exists this w',
    Buffer.Buffer_copy_n 4 (Buffer.slot 0 0) 3 w = Ok (this, w') /\
    Buffer.size this w' = Ok (3%N, w') /\
    (forall fuel, (length [10; 20; 30] <= fuel)%nat ->
       Buffer.iterate fuel this w' = Ok ([10; 20; 30], w')) /\
    (forall i x, [10; 20; 30] !! i = Some x ->
       Buffer.operator_index this (N.of_nat i) w' = Ok (x, w')).
Proof.
  cbv zeta.
  set (w := Buffer.mk_World (T := u32) []
             [Some (Buffer.mk_Block 12 None [Some 10; Some 20; Some 30])] 100 []).
  assert (Ha : Buffer.array_at w (Buffer.slot 0 0) [10; 20; 30]) by reflexivity.
  assert (Hlen : length [10; 20; 30] = N.to_nat 3) by reflexivity.
  assert (Hfit : Z.of_N 3 * Zpos sizeof < 2 ^ size_t_bits) by reflexivity.
  assert (Hroom : (3 * Npos sizeof <= Buffer.avail w)%N) by (simpl; lia).
  split; [exact Ha | split; [exact Hlen | split; [exact Hfit | split; [exact Hroom |]]]].
  exact (proj1 (Buffer_copy_round_trip 4 w (Buffer.slot 0 0) [10; 20; 30] 3 Ha Hlen Hfit) Hroom).
Defined.

(* --------------------------------------------------------------------- *)
(** *** Scrolling the row cache *)
(* --------------------------------------------------------------------- *)

Section RowCacheScroll.
Import RowCache.

Lemma elem_of_drop_lookup {A} (x : A) (n : nat) (l : list A) :
  x ∈ drop n l <-> exists i, l !! i = Some x /\ (n <= i)%nat.
Proof.
  rewrite list_elem_of_lookup. split.
  - intros [i Hi]. rewrite lookup_drop in Hi. exists (n + i)%nat. split; [exact Hi | lia].
  - intros (i & Hi & Hle). exists (i - n)%nat. rewrite lookup_drop.
    replace (n + (i - n))%nat with i by lia. exact Hi.
Qed.

(** Position [i] of a list rotated at [m]. *)
Lemma lookup_rotated {A} (l : list A) (m i : nat) :
  (m <= length l)%nat -> (i < length l)%nat ->
  (drop m l ++ take m l) !! i =
  if decide (i < length l - m)%nat then l !! (m + i)%nat
  else l !! (i - (length l - m))%nat.
Proof.
  intros Hm Hi. destruct (decide (i < length l - m)%nat) as [Hlt | Hge].
  - rewrite lookup_app_l by (rewrite length_drop; exact Hlt). apply lookup_drop.
  - rewrite lookup_app_r by (rewrite length_drop; lia).
    rewrite length_drop. apply lookup_take_lt. lia.
Qed.

Lemma rotated_Permutation {A} (l : list A) (m : nat) :
  drop m l ++ take m l ≡ₚ l.
Proof. rewrite Permutation_app_comm. rewrite take_drop. reflexivity. Qed.

Lemma pivot_le (n : Z) (len : nat) :
  Z.abs n <= Z.of_nat len -> (pivot n len <= len)%nat.
Proof. unfold pivot. destruct (0 <=? n) eqn:E; lia. Qed.

(** The marked rows are exactly those whose previous position is out of
    view. *)
Lemma recycled_spec (n : Z) (rs : list nat) (j slot : nat) :
  NoDup rs -> Z.abs n <= Z.of_nat (length rs) ->
  rs !! j = Some slot ->
  (slot ∈ recycled n rs <-> ~ in_view n (length rs) j).
Proof.
  intros Hnd Hn Hj. pose proof (lookup_lt_Some _ _ _ Hj) as Hlt.
  unfold recycled, in_view, pivot. destruct (0 <=? n) eqn:E.
  - apply Z.leb_le in E. rewrite elem_of_take. split.
    + intros (i & Hi & Hik). rewrite (NoDup_lookup _ _ _ _ Hnd Hj Hi). lia.
    + intros Hout. exists j. split; [exact Hj | lia].
  - apply Z.leb_gt in E. rewrite elem_of_drop_lookup. split.
    + intros (i & Hi & Hik). rewrite (NoDup_lookup _ _ _ _ Hnd Hj Hi). lia.
    + intros Hout. exists j. split; [exact Hj | lia].
Qed.

Lemma recycled_length (n : Z) (rs : list nat) :
  Z.abs n <= Z.of_nat (length rs) ->
  length (recycled n rs) = Z.to_nat (Z.abs n).
Proof.
  intros Hn. unfold recycled, pivot. destruct (0 <=? n) eqn:E.
  - apply Z.leb_le in E. rewrite length_take. lia.
  - apply Z.leb_gt in E. rewrite length_drop. lia.
Qed.

(** C5: scrolling by [n] rows ([|n|] at most the number of rows) builds
    the new ordering from the old one shifted by [n]; every other position -
    there are [|n|] of them - is filled with a recycled row, one whose
    previous screen position went out of view; exactly the recycled rows are
    marked for re-shaping; [rowsScratch] receives the old ordering; the
    backing store is not touched; and [rows] is again a duplicate-free
    permutation of the same pointers into [unorderedRows]. Rows
    [A, B, C, D] in slots 0..3 scrolled by [+1] give [B, C, D, A] with
    exactly slot 0 marked. *)
Theorem scroll_reuses_rows (c : t) (n : Z) :
  well_formed c -> Z.abs n <= Z.of_nat (length (rows c)) ->
  let len := length (rows c) in
  let c' := scroll n c in
  (forall i j : nat, (i < len)%nat -> (j < len)%nat -> Z.of_nat j = Z.of_nat i + n ->
     rows c' !! i = rows c !! j) /\
  (forall i : nat, (i < len)%nat -> ~ (0 <= Z.of_nat i + n < Z.of_nat len) ->
     exists slot, rows c' !! i = Some slot /\ slot ∈ marked c') /\
  (forall (j slot : nat), rows c !! j = Some slot ->
     (slot ∈ marked c' <-> ~ in_view n len j)) /\
  length (marked c') = Z.to_nat (Z.abs n) /\
  rowsScratch c' = rows c /\
  unorderedRows c' = unorderedRows c /\
  rows c' ≡ₚ rows c /\
  well_formed c' /\
  (forall A B C D : ShapedRow,
     let c4 := scroll 1 (mk [A; B; C; D] [0; 1; 2; 3] [0; 1; 2; 3] [])%nat in
     rows c4 = [1; 2; 3; 0]%nat /\ marked c4 = [0%nat] /\
     unorderedRows c4 = [A; B; C; D]).
Proof.
  intros [Hnd Hin] Hn. cbv zeta.
  pose proof (pivot_le n (length (rows c)) Hn) as Hm.
  assert (Hperm : rows (scroll n c) ≡ₚ rows c) by apply rotated_Permutation.
  split; [| split; [| split; [| split; [| split; [| split; [| split; [| split]]]]]]].
  - intros i j Hi Hj Hij. simpl. rewrite (lookup_rotated _ _ _ Hm Hi).
    unfold pivot in *. destruct (0 <=? n) eqn:E.
    + apply Z.leb_le in E. rewrite decide_True by lia. f_equal. lia.
    + apply Z.leb_gt in E. rewrite decide_False by lia. f_equal. lia.
  - intros i Hi Hout. simpl. rewrite (lookup_rotated _ _ _ Hm Hi).
    unfold recycled, pivot in *. destruct (0 <=? n) eqn:E.
    + apply Z.leb_le in E. rewrite decide_False by lia.
      destruct (lookup_lt_is_Some_2 (rows c)
                  (i - (length (rows c) - Z.to_nat n))%nat ltac:(lia)) as [slot Hs].
      exists slot. split; [exact Hs |]. apply elem_of_take. eexists. split; [exact Hs | lia].
    + apply Z.leb_gt in E. rewrite decide_True by lia.
      destruct (lookup_lt_is_Some_2 (rows c)
                  (length (rows c) - Z.to_nat (- n) + i)%nat ltac:(lia)) as [slot Hs].
      exists slot. split; [exact Hs |]. apply elem_of_drop_lookup.
      eexists. split; [exact Hs | lia].
  - intros j slot Hj. simpl. apply recycled_spec; assumption.
  - simpl. apply recycled_length. exact Hn.
  - reflexivity.
  - reflexivity.
  - exact Hperm.
  - split.
    + rewrite Hperm. exact Hnd.
    + simpl. change (drop _ _ ++ take _ _) with (rows (scroll n c)).
      rewrite Hperm. exact Hin.
  - intros A B C D. repeat split; reflexivity.
Qed.

End RowCacheScroll.

(** Scrolling back by one row recycles the last row to the top. *)
Example scroll_minus_1 :
  RowCache.scroll (-1)
    (RowCache.mk (replicate 4 ShapedRow_default) [0; 1; 2; 3] [1; 2; 3; 0] [])%nat
  = (RowCache.mk (replicate 4 ShapedRow_default) [1; 2; 3; 0] [0; 1; 2; 3] [0])%nat.
Proof. reflexivity. Qed.

Lemma scroll_reuses_rows_witness :
  let c := (RowCache.mk (replicate 4 ShapedRow_default) [0; 1; 2; 3] [0; 1; 2; 3] [])%nat in
  RowCache.well_formed c /\ Z.abs 1 <= Z.of_nat (length (RowCache.rows c)) /\
  RowCache.rows (RowCache.scroll 1 c) ≡ₚ RowCache.rows c /\
  RowCache.well_formed (RowCache.scroll 1 c).
Proof.
  cbv zeta.
  set (c := (RowCache.mk (replicate 4 ShapedRow_default) [0; 1; 2; 3] [0; 1; 2; 3] [])%nat).
  assert (Hwf : RowCache.well_formed c).
  { split.
    - apply (bool_decide_unpack (NoDup [0; 1; 2; 3]%nat)). reflexivity.
    - repeat constructor. }
  assert (Hn : Z.abs 1 <= Z.of_nat (length (RowCache.rows c))) by (simpl; lia).
  pose proof (scroll_reuses_rows c 1 Hwf Hn) as Hs. cbv zeta in Hs.
  destruct Hs as (_ & _ & _ & _ & _ & _ & Hperm & Hwf' & _).
  split; [exact Hwf | split; [exact Hn | split; [exact Hperm | exact Hwf']]].
Defined.

(* --------------------------------------------------------------------- *)
(** *** Flag operators *)
(* --------------------------------------------------------------------- *)

Section FlagOpsFacts.
Import FlagOps.

Lemma wrap_u8_testbit (x n : Z) :
  0 <= n -> Z.testbit (wrap_u 8 x) n = (n <? 8) && Z.testbit x n.
Proof.
  intros Hn. unfold wrap_u. destruct (n <? 8) eqn:E.
  - apply Z.ltb_lt in E. rewrite Z.mod_pow2_bits_low by lia. reflexivity.
  - apply Z.ltb_ge in E. rewrite Z.mod_pow2_bits_high by lia. reflexivity.
Qed.

Lemma wrap_u8_is_u8 (x : Z) : is_u8 (wrap_u 8 x).
Proof.
  unfold is_u8, wrap_u. change (2 ^ 8) with 256.
  pose proof (Z.mod_pos_bound x 256 ltac:(lia)). lia.
Qed.

(** The bits of a [u8] above the eighth are clear. *)
Lemma u8_testbit_high (v n : Z) : is_u8 v -> 8 <= n -> Z.testbit v n = false.
Proof.
  intros Hv Hn. unfold is_u8 in Hv.
  destruct (Z.eq_dec v 0) as [-> | Hne]; [apply Z.bits_0 |].
  apply Z.bits_above_log2; [lia |].
  assert (Z.log2 v < 8); [| lia].
  apply Z.log2_lt_pow2; lia.
Qed.

Ltac bits :=
  apply Z.bits_inj'; intros n Hn;
  repeat rewrite ?wrap_u8_testbit, ?Z.lor_spec, ?Z.land_spec, ?Z.lxor_spec,
                 ?Z.lnot_spec, ?Z.bits_0 by lia.

(** X1: The flag operators form a Boolean algebra on [u8]: every result is a
    [u8]; complementing twice, or toggling twice, gives the value back;
    a flag that has been set tests as set, whatever the other flags; a
    flag that has been cleared tests as clear; and setting or clearing one
    flag leaves the test of a disjoint flag as it was. *)
Theorem flag_operators_boolean_algebra (v f g : u8) :
  is_u8 v -> is_u8 f -> is_u8 g ->
  (is_u8 (operator_not v) /\ is_u8 (operator_or v f) /\
   is_u8 (operator_and v f) /\ is_u8 (operator_xor v f)) /\
  operator_not (operator_not v) = v /\
  operator_xor (operator_xor v f) f = v /\
  operator_and (operator_or v f) f = f /\
  operator_and (operator_and v (operator_not f)) f = 0 /\
  (operator_and f g = 0 ->
   operator_and (operator_or v f) g = operator_and v g /\
   operator_and (operator_and v (operator_not f)) g = operator_and v g).
Proof.
  intros Hv Hf Hg.
  split; [repeat split; apply wrap_u8_is_u8 |].
  unfold operator_not, operator_or, operator_and, operator_xor.
  split; [| split; [| split; [| split]]].
  - bits. destruct (n <? 8) eqn:E; simpl.
    + apply negb_involutive.
    + apply Z.ltb_ge in E. symmetry. apply u8_testbit_high; assumption.
  - bits. destruct (n <? 8) eqn:E; simpl.
    + destruct (Z.testbit v n), (Z.testbit f n); reflexivity.
    + apply Z.ltb_ge in E. symmetry. apply u8_testbit_high; assumption.
  - bits. destruct (n <? 8) eqn:E; simpl.
    + destruct (Z.testbit v n), (Z.testbit f n); reflexivity.
    + apply Z.ltb_ge in E. symmetry. apply u8_testbit_high; assumption.
  - bits. destruct (n <? 8) eqn:E; simpl; [| reflexivity].
    destruct (Z.testbit v n), (Z.testbit f n); reflexivity.
  - intros Hdisj.
    assert (Hbit : forall n, 0 <= n -> Z.testbit f n && Z.testbit g n = false).
    { intros n Hn. apply (f_equal (fun z => Z.testbit z n)) in Hdisj.
      rewrite wrap_u8_testbit, Z.land_spec, Z.bits_0 in Hdisj by lia.
      destruct (n <? 8) eqn:E; [exact Hdisj |].
      apply Z.ltb_ge in E. rewrite (u8_testbit_high f n Hf E). reflexivity. }
    split.
    + bits. specialize (Hbit n Hn). destruct (n <? 8); simpl; [| reflexivity].
      destruct (Z.testbit v n), (Z.testbit f n), (Z.testbit g n);
        simpl in *; congruence.
    + bits. specialize (Hbit n Hn). destruct (n <? 8); simpl; [| reflexivity].
      destruct (Z.testbit v n), (Z.testbit f n), (Z.testbit g n);
        simpl in *; congruence.
Qed.

End FlagOpsFacts.

(** [Bold] and [Italic] are disjoint flags: making a bold italic value
    non-bold leaves it italic. *)
Lemma flag_operators_boolean_algebra_witness :
  let v := FlagOps.operator_or FontRelevantAttributes.Bold FontRelevantAttributes.Italic in
  is_u8 v /\ is_u8 FontRelevantAttributes.Bold /\ is_u8 FontRelevantAttributes.Italic /\
  FlagOps.operator_and FontRelevantAttributes.Bold FontRelevantAttributes.Italic = 0 /\
  FlagOps.operator_and
    (FlagOps.operator_and v (FlagOps.operator_not FontRelevantAttributes.Bold))
    FontRelevantAttributes.Italic
  = FlagOps.operator_and v FontRelevantAttributes.Italic.
Proof.
  cbv zeta.
  assert (Hv : is_u8 (FlagOps.operator_or FontRelevantAttributes.Bold
                        FontRelevantAttributes.Italic)) by (vm_compute; split; discriminate).
  assert (Hb : is_u8 FontRelevantAttributes.Bold) by (vm_compute; split; discriminate).
  assert (Hi : is_u8 FontRelevantAttributes.Italic) by (vm_compute; split; discriminate).
  assert (Hd : FlagOps.operator_and FontRelevantAttributes.Bold
                 FontRelevantAttributes.Italic = 0) by reflexivity.
  split; [exact Hv | split; [exact Hb | split; [exact Hi | split; [exact Hd |]]]].
  exact (proj2 (proj2 (proj2 (proj2 (proj2 (proj2
           (flag_operators_boolean_algebra _ _ _ Hv Hb Hi))))) Hd)).
Defined.

(* --------------------------------------------------------------------- *)
(** *** [ATLAS_POD_OPS]: equality by object representation *)
(* --------------------------------------------------------------------- *)

Section PodFacts.
Import Pod.

Lemma memcmp_refl (a : list Z) : memcmp a a = 0.
Proof.
  induction a as [| x a IH]; [reflexivity |].
  simpl. rewrite Z.ltb_irrefl. exact IH.
Qed.

(** On representations of the same size, [memcmp] returns 0 exactly for
    equal representations. *)
Lemma memcmp_0_iff (a b : list Z) :
  length a = length b -> (memcmp a b = 0 <-> a = b).
Proof.
  revert b. induction a as [| x a IH]; intros [| y b] Hlen; try discriminate.
  - tauto.
  - simpl in *. destruct (x <? y) eqn:E1.
    + apply Z.ltb_lt in E1. split; [discriminate | intros [= -> _]; lia].
    + destruct (y <? x) eqn:E2.
      * apply Z.ltb_lt in E2. split; [discriminate | intros [= -> _]; lia].
      * apply Z.ltb_ge in E1, E2. assert (x = y) as -> by lia.
        rewrite (IH b) by lia. split; [intros ->; reflexivity | intros [= ->]; reflexivity].
Qed.

Lemma le_bytes_length (n : nat) (x : Z) : length (le_bytes n x) = n.
Proof. revert x. induction n as [| n IH]; intros x; simpl; [| rewrite IH]; reflexivity. Qed.

(** The bytes determine the value below [256 ^ n]. *)
Lemma le_bytes_inj (n : nat) (x y : Z) :
  0 <= x < 256 ^ Z.of_nat n -> 0 <= y < 256 ^ Z.of_nat n ->
  le_bytes n x = le_bytes n y -> x = y.
Proof.
  revert x y. induction n as [| n IH]; intros x y Hx Hy E.
  - simpl in Hx, Hy. lia.
  - simpl in E. injection E as E0 E1.
    replace (Z.of_nat (S n)) with (Z.of_nat n + 1) in * by lia.
    rewrite Z.pow_add_r, Z.pow_1_r in * by lia.
    assert (x / 256 = y / 256).
    { apply IH; [| | exact E1].
      - split; [apply Z.div_pos; lia | apply Z.div_lt_upper_bound; lia].
      - split; [apply Z.div_pos; lia | apply Z.div_lt_upper_bound; lia]. }
    rewrite (Z.div_mod x 256), (Z.div_mod y 256) by lia. congruence.
Qed.

Lemma int_repr_length (n : nat) (x : Z) : length (int_repr n x) = n.
Proof. apply le_bytes_length. Qed.

Lemma pow_256 (n : nat) : 2 ^ (8 * Z.of_nat n) = 256 ^ Z.of_nat n.
Proof. rewrite Z.pow_mul_r by lia. reflexivity. Qed.

(** Two values of the same integer type have the same representation
    only when they are equal. *)
Lemma int_repr_inj (signed : bool) (n : nat) (x y : Z) :
  (0 < n)%nat -> in_range signed n x -> in_range signed n y ->
  int_repr n x = int_repr n y -> x = y.
Proof.
  intros Hn Hx Hy E. unfold int_repr, wrap_u in E.
  set (M := 2 ^ (8 * Z.of_nat n)) in *.
  assert (HM : 0 < M) by (apply Z.pow_pos_nonneg; lia).
  assert (Hmod : x mod M = y mod M).
  { apply (le_bytes_inj n); [| | exact E];
      unfold M; rewrite <- pow_256; apply Z.mod_pos_bound; exact HM. }
  assert (Hhalf : M = 2 * 2 ^ (8 * Z.of_nat n - 1)).
  { unfold M. rewrite <- Z.pow_succ_r by lia. f_equal. lia. }
  unfold in_range in Hx, Hy. destruct signed.
  - set (h := 2 ^ (8 * Z.of_nat n - 1)) in *.
    assert ((x + h) mod M = (y + h) mod M).
    { rewrite <- (Zplus_mod_idemp_l x), <- (Zplus_mod_idemp_l y), Hmod. reflexivity. }
    rewrite !Z.mod_small in H by lia. lia.
  - fold M in Hx, Hy. rewrite !Z.mod_small in Hmod by lia. exact Hmod.
Qed.

Lemma operator_eq_iff {A} (repr : A -> list Z) (a b : A) :
  length (repr a) = length (repr b) ->
  (operator_eq repr a b = true <-> repr a = repr b).
Proof.
  intros Hlen. unfold operator_eq. rewrite Z.eqb_eq. apply memcmp_0_iff. exact Hlen.
Qed.

(** X2: [operator==] of [vec2], [vec4], [rect] and [range] over one integer
    type (signed or unsigned, of [n] bytes) returns true exactly when all
    members are equal, [operator!=] exactly when some member differs. *)
Theorem pod_equality_is_memberwise (signed : bool) (n : nat) :
  (0 < n)%nat ->
  let ok := in_range signed n in
  (forall a b : vec2 Z, ok (vx a) -> ok (vy a) -> ok (vx b) -> ok (vy b) ->
     (operator_eq (vec2_repr (int_repr n)) a b = true <-> a = b) /\
     (operator_ne (vec2_repr (int_repr n)) a b = true <-> a <> b)) /\
  (forall a b : vec4 Z,
     ok (v4x Z a) -> ok (v4y Z a) -> ok (v4z Z a) -> ok (v4w Z a) ->
     ok (v4x Z b) -> ok (v4y Z b) -> ok (v4z Z b) -> ok (v4w Z b) ->
     (operator_eq (vec4_repr (int_repr n)) a b = true <-> a = b) /\
     (operator_ne (vec4_repr (int_repr n)) a b = true <-> a <> b)) /\
  (forall a b : rect Z,
     ok (left a) -> ok (top a) -> ok (right a) -> ok (bottom a) ->
     ok (left b) -> ok (top b) -> ok (right b) -> ok (bottom b) ->
     (operator_eq (rect_repr (int_repr n)) a b = true <-> a = b) /\
     (operator_ne (rect_repr (int_repr n)) a b = true <-> a <> b)) /\
  (forall a b : range Z,
     ok (range_start Z a) -> ok (range_end Z a) ->
     ok (range_start Z b) -> ok (range_end Z b) ->
     (operator_eq (range_repr (int_repr n)) a b = true <-> a = b) /\
     (operator_ne (range_repr (int_repr n)) a b = true <-> a <> b)).
Proof.
  intros Hn. cbv zeta.
  assert (Hne : forall {A} (repr : A -> list Z) (a b : A),
             (operator_eq repr a b = true <-> a = b) ->
             (operator_eq repr a b = true <-> a = b) /\
             (operator_ne repr a b = true <-> a <> b)).
  { intros A repr a b Heq. split; [exact Heq |].
    unfold operator_ne. rewrite negb_true_iff, <- not_true_iff_false, Heq. tauto. }
  assert (Hlen : forall x, length (int_repr n x) = n) by apply int_repr_length.
  split; [| split; [| split]].
  - intros [x y] [x' y'] Hx Hy Hx' Hy'. simpl in *. apply Hne.
    rewrite operator_eq_iff by (unfold vec2_repr; rewrite !length_app, !Hlen; reflexivity).
    unfold vec2_repr; simpl. split.
    + intros E. apply app_inj_1 in E; [| rewrite !Hlen; reflexivity].
      destruct E as [E1 E2].
      rewrite (int_repr_inj signed n x x' Hn Hx Hx' E1),
              (int_repr_inj signed n y y' Hn Hy Hy' E2). reflexivity.
    + intros [= -> ->]. reflexivity.
  - intros [x y z t] [x' y' z' t'] Hx Hy Hz Ht Hx' Hy' Hz' Ht'. simpl in *. apply Hne.
    rewrite operator_eq_iff by (unfold vec4_repr; rewrite !length_app, !Hlen; reflexivity).
    unfold vec4_repr; simpl. split.
    + intros E.
      apply app_inj_1 in E; [| rewrite !Hlen; reflexivity]. destruct E as [E1 E].
      apply app_inj_1 in E; [| rewrite !Hlen; reflexivity]. destruct E as [E2 E].
      apply app_inj_1 in E; [| rewrite !Hlen; reflexivity]. destruct E as [E3 E4].
      rewrite (int_repr_inj signed n x x' Hn Hx Hx' E1),
              (int_repr_inj signed n y y' Hn Hy Hy' E2),
              (int_repr_inj signed n z z' Hn Hz Hz' E3),
              (int_repr_inj signed n t t' Hn Ht Ht' E4). reflexivity.
    + intros [= -> -> -> ->]. reflexivity.
  - intros [x y z t] [x' y' z' t'] Hx Hy Hz Ht Hx' Hy' Hz' Ht'. simpl in *. apply Hne.
    rewrite operator_eq_iff by (unfold rect_repr; rewrite !length_app, !Hlen; reflexivity).
    unfold rect_repr; simpl. split.
    + intros E.
      apply app_inj_1 in E; [| rewrite !Hlen; reflexivity]. destruct E as [E1 E].
      apply app_inj_1 in E; [| rewrite !Hlen; reflexivity]. destruct E as [E2 E].
      apply app_inj_1 in E; [| rewrite !Hlen; reflexivity]. destruct E as [E3 E4].
      rewrite (int_repr_inj signed n x x' Hn Hx Hx' E1),
              (int_repr_inj signed n y y' Hn Hy Hy' E2),
              (int_repr_inj signed n z z' Hn Hz Hz' E3),
              (int_repr_inj signed n t t' Hn Ht Ht' E4). reflexivity.
    + intros [= -> -> -> ->]. reflexivity.
  - intros [x y] [x' y'] Hx Hy Hx' Hy'. simpl in *. apply Hne.
    rewrite operator_eq_iff by (unfold range_repr; rewrite !length_app, !Hlen; reflexivity).
    unfold range_repr; simpl. split.
    + intros E. apply app_inj_1 in E; [| rewrite !Hlen; reflexivity].
      destruct E as [E1 E2].
      rewrite (int_repr_inj signed n x x' Hn Hx Hx' E1),
              (int_repr_inj signed n y y' Hn Hy Hy' E2). reflexivity.
    + intros [= -> ->]. reflexivity.
Qed.

End PodFacts.

Lemma pod_equality_is_memberwise_witness :
  (0 < 2)%nat /\
  Pod.in_range false 2 800 /\ Pod.in_range false 2 600 /\
  (Pod.operator_eq (Pod.vec2_repr (Pod.int_repr 2)) (mk_vec2 800 600) (mk_vec2 800 600) = true
   <-> mk_vec2 800 600 = mk_vec2 800 600).
Proof.
  assert (Hn : (0 < 2)%nat) by lia.
  assert (H800 : Pod.in_range false 2 800) by (vm_compute; split; [discriminate | reflexivity]).
  assert (H600 : Pod.in_range false 2 600) by (vm_compute; split; [discriminate | reflexivity]).
  split; [exact Hn | split; [exact H800 | split; [exact H600 |]]].
  exact (proj1 (proj1 (pod_equality_is_memberwise false 2 Hn)
                  (mk_vec2 800 600) (mk_vec2 800 600) H800 H600 H800 H600)).
Defined.

Section PodSettings.
Import Pod.

(** X3: [CursorSettings::operator==] returns true exactly when the cursor
    color, the cursor type and the height percentage are all equal, and
    [operator!=] exactly when one of them differs. *)
Theorem CursorSettings_equality_is_memberwise (a b : CursorSettings) :
  in_range false 4 (cursorColor a) -> in_range false 2 (cursorType a) ->
  in_range false 2 (heightPercentage a) ->
  in_range false 4 (cursorColor b) -> in_range false 2 (cursorType b) ->
  in_range false 2 (heightPercentage b) ->
  (operator_eq CursorSettings_repr a b = true <-> a = b) /\
  (operator_ne CursorSettings_repr a b = true <-> a <> b).
Proof.
  destruct a as [c t h], b as [c' t' h']. simpl. intros Hc Ht Hh Hc' Ht' Hh'.
  assert (Heq : operator_eq CursorSettings_repr (mk_CursorSettings c t h)
                  (mk_CursorSettings c' t' h') = true
                <-> mk_CursorSettings c t h = mk_CursorSettings c' t' h').
  { rewrite operator_eq_iff
      by (unfold CursorSettings_repr; rewrite !length_app, !int_repr_length; reflexivity).
    unfold CursorSettings_repr; cbn [cursorColor cursorType heightPercentage]. split.
    - intros E.
      apply app_inj_1 in E; [| rewrite !int_repr_length; reflexivity]. destruct E as [E1 E].
      apply app_inj_1 in E; [| rewrite !int_repr_length; reflexivity]. destruct E as [E2 E3].
      rewrite (int_repr_inj false 4 c c' ltac:(lia) Hc Hc' E1),
              (int_repr_inj false 2 t t' ltac:(lia) Ht Ht' E2),
              (int_repr_inj false 2 h h' ltac:(lia) Hh Hh' E3). reflexivity.
    - intros [= -> -> ->]. reflexivity. }
  split; [exact Heq |].
  unfold operator_ne. rewrite negb_true_iff, <- not_true_iff_false, Heq. tauto.
Qed.

Lemma f32_repr_inj (x y : f32) :
  (x < 2 ^ 32)%N -> (y < 2 ^ 32)%N -> f32_repr x = f32_repr y -> x = y.
Proof.
  intros Hx Hy E. unfold f32_repr in E.
  apply (le_bytes_inj 4) in E; [lia | |];
    change (256 ^ Z.of_nat 4) with 4294967296; change (2 ^ 32)%N with 4294967296%N in *; lia.
Qed.

(** X4: On [float] vectors [operator==] compares bit patterns, not numbers: it
    returns true exactly when the patterns of all members are equal. So
    [+0] and [-0], which neither [<] nor [>] tells apart, are unequal, and
    a NaN, which [>=] does not relate to itself, is equal to itself. *)
Theorem f32_vector_equality_is_bitwise :
  (forall a b : vec2 f32,
     (vx a < 2 ^ 32)%N -> (vy a < 2 ^ 32)%N -> (vx b < 2 ^ 32)%N -> (vy b < 2 ^ 32)%N ->
     (operator_eq (vec2_repr f32_repr) a b = true <-> a = b)) /\
  (let pz : f32 := 0%N in
   let nz : f32 := 2147483648%N in
   f32_lt pz nz = false /\ f32_lt nz pz = false /\ f32_ge pz nz = true /\
   operator_eq (vec2_repr f32_repr) (mk_vec2 pz pz) (mk_vec2 nz pz) = false) /\
  (f32_ge f32_quiet_nan f32_quiet_nan = false /\
   operator_eq (vec2_repr f32_repr)
     (mk_vec2 f32_quiet_nan f32_zero) (mk_vec2 f32_quiet_nan f32_zero) = true).
Proof.
  split; [| split; [cbv zeta; repeat split; reflexivity | split; reflexivity]].
  intros [x y] [x' y'] Hx Hy Hx' Hy'. cbn [vx vy] in *.
  rewrite operator_eq_iff
    by (unfold vec2_repr, f32_repr; rewrite !length_app, !le_bytes_length; reflexivity).
  unfold vec2_repr; cbn [vx vy]. split.
  - intros E. apply app_inj_1 in E; [| unfold f32_repr; rewrite !le_bytes_length; reflexivity].
    destruct E as [E1 E2].
    rewrite (f32_repr_inj x x' Hx Hx' E1), (f32_repr_inj y y' Hy Hy' E2). reflexivity.
  - intros [= -> ->]. reflexivity.
Qed.

End PodSettings.

Lemma CursorSettings_equality_is_memberwise_witness :
  let a := CursorSettings_default in
  let b := mk_CursorSettings 4294967295 1 20 in
  Pod.in_range false 4 (cursorColor a) /\
  (Pod.operator_ne Pod.CursorSettings_repr a b = true <-> a <> b).
Proof.
  cbv zeta.
  assert (Hc : Pod.in_range false 4 4294967295) by (vm_compute; split; [discriminate | reflexivity]).
  assert (H0 : Pod.in_range false 2 0) by (vm_compute; split; [discriminate | reflexivity]).
  assert (H1 : Pod.in_range false 2 1) by (vm_compute; split; [discriminate | reflexivity]).
  assert (H20 : Pod.in_range false 2 20) by (vm_compute; split; [discriminate | reflexivity]).
  split; [exact Hc |].
  exact (proj2 (CursorSettings_equality_is_memberwise CursorSettings_default
                  (mk_CursorSettings 4294967295 1 20) Hc H0 H20 Hc H1 H20)).
Defined.

Lemma f32_vector_equality_is_bitwise_witness :
  (f32_one < 2 ^ 32)%N /\ (f32_zero < 2 ^ 32)%N /\
  (Pod.operator_eq (Pod.vec2_repr Pod.f32_repr) (mk_vec2 f32_one f32_zero)
     (mk_vec2 f32_one f32_zero) = true
   <-> mk_vec2 f32_one f32_zero = mk_vec2 f32_one f32_zero).
Proof.
  assert (H1 : (f32_one < 2 ^ 32)%N) by reflexivity.
  assert (H0 : (f32_zero < 2 ^ 32)%N) by reflexivity.
  split; [exact H1 | split; [exact H0 |]].
  exact (proj1 f32_vector_equality_is_bitwise
           (mk_vec2 f32_one f32_zero) (mk_vec2 f32_one f32_zero) H1 H0 H1 H0).
Defined.

(* --------------------------------------------------------------------- *)
(** *** [FontFace]: every reference taken is given back *)
(* --------------------------------------------------------------------- *)

Section RefCountFacts.
Context `{Platform}.
Import FontFace RefCount.

Lemma occurrences_nil {A} `{EqDecision A} (x : A) : occurrences x [] = 0.
Proof. reflexivity. Qed.

Lemma occurrences_cons {A} `{EqDecision A} (x y : A) (l : list A) :
  occurrences x (y :: l) = (if decide (y = x) then 1 else 0) + occurrences x l.
Proof.
  unfold occurrences. rewrite filter_cons.
  destruct (decide (y = x)); simpl length; lia.
Qed.

Lemma occurrences_app {A} `{EqDecision A} (x : A) (l k : list A) :
  occurrences x (l ++ k) = occurrences x l + occurrences x k.
Proof. unfold occurrences. rewrite filter_app, length_app. lia. Qed.

Lemma occurrences_insert {A} `{EqDecision A} (x y z : A) (l : list A) (i : nat) :
  l !! i = Some y ->
  occurrences x (<[i := z]> l) =
  occurrences x l - (if decide (y = x) then 1 else 0) + (if decide (z = x) then 1 else 0).
Proof.
  revert i. induction l as [| a l IH]; intros [| i] Hi; try discriminate.
  - injection Hi as ->. simpl. rewrite !occurrences_cons.
    destruct (decide (y = x)), (decide (z = x)); lia.
  - simpl in *. rewrite !occurrences_cons, (IH i Hi).
    destruct (decide (a = x)), (decide (y = x)), (decide (z = x)); lia.
Qed.

Lemma same_handle (p q : pointer) :
  (if decide (Some (mk p) = Some (mk q)) then 1 else 0) = same p q.
Proof.
  unfold same. destruct (decide (p = q)) as [-> | Hne].
  - rewrite decide_True by reflexivity. reflexivity.
  - rewrite decide_False by congruence. reflexivity.
Qed.

Lemma same_nullptr (r : pointer) : is_proper r = true -> same nullptr r = 0.
Proof.
  intros Hr. unfold same. destruct (decide (nullptr = r)) as [<- | _]; [| reflexivity].
  rewrite is_proper_nullptr in Hr. discriminate.
Qed.

(** The calls of [_release] and [_addRef] that concern the font face [r]. *)
Lemma occurrences_release_calls (q r : pointer) :
  is_proper r = true ->
  occurrences (Release r) (release_calls q) = same q r /\
  occurrences (AddRef r) (release_calls q) = 0.
Proof.
  intros Hr. unfold release_calls, same.
  destruct (decide (q = r)) as [-> | Hne].
  - rewrite Hr. split; rewrite occurrences_cons, occurrences_nil;
      (destruct (decide _) as [e | e];
       [try discriminate e | try (exfalso; apply e; reflexivity)]); lia.
  - destruct (is_proper q); [| split; reflexivity].
    split; rewrite occurrences_cons, occurrences_nil;
      (destruct (decide _) as [e | e]; [try discriminate e; try congruence |]); lia.
Qed.

Lemma occurrences_addRef_calls (q r : pointer) :
  is_proper r = true ->
  occurrences (AddRef r) (addRef_calls q) = same q r /\
  occurrences (Release r) (addRef_calls q) = 0.
Proof.
  intros Hr. unfold addRef_calls, same.
  destruct (decide (q = r)) as [-> | Hne].
  - rewrite Hr. split; rewrite occurrences_cons, occurrences_nil;
      (destruct (decide _) as [e | e];
       [try discriminate e | try (exfalso; apply e; reflexivity)]); lia.
  - destruct (is_proper q); [| split; reflexivity].
    split; rewrite occurrences_cons, occurrences_nil;
      (destruct (decide _) as [e | e]; [try discriminate e; try congruence |]); lia.
Qed.

Lemma outstanding_release (fs fs' : list (option t)) (cs : list RefCall) (q r : pointer) :
  is_proper r = true ->
  outstanding (mk_World fs' (cs ++ release_calls q)) r =
  outstanding (mk_World fs cs) r - same q r.
Proof.
  intros Hr. unfold outstanding; simpl. rewrite !occurrences_app.
  destruct (occurrences_release_calls q r Hr) as [-> ->]. lia.
Qed.

Lemma outstanding_addRef (fs fs' : list (option t)) (cs : list RefCall) (q r : pointer) :
  is_proper r = true ->
  outstanding (mk_World fs' (cs ++ addRef_calls q)) r =
  outstanding (mk_World fs cs) r + same q r.
Proof.
  intros Hr. unfold outstanding; simpl. rewrite !occurrences_app.
  destruct (occurrences_addRef_calls q r Hr) as [-> ->]. lia.
Qed.

Lemma holders_new (fs : list (option t)) (cs : list RefCall) (q r : pointer) :
  holders (mk_World (fs ++ [Some (mk q)]) cs) r = occurrences (Some (mk r)) fs + same q r.
Proof.
  unfold holders; simpl. rewrite occurrences_app, occurrences_cons, occurrences_nil.
  rewrite same_handle. lia.
Qed.

Lemma holders_store (w : World) (cs : list RefCall) (i : nat) (p q r : pointer) :
  stored w i = Some p ->
  holders (mk_World (<[i := Some (mk q)]> (faces w)) cs) r =
  holders w r - same p r + same q r.
Proof.
  intros Hp%stored_Some. unfold holders; simpl.
  rewrite (occurrences_insert _ _ _ _ _ Hp), !same_handle. reflexivity.
Qed.

Lemma holders_end (w : World) (cs : list RefCall) (i : nat) (p r : pointer) :
  stored w i = Some p ->
  holders (mk_World (<[i := None]> (faces w)) cs) r = holders w r - same p r.
Proof.
  intros Hp%stored_Some. unfold holders; simpl.
  rewrite (occurrences_insert _ _ _ _ _ Hp), same_handle.
  destruct (decide (None = Some (mk r))) as [e | _]; [discriminate e | lia].
Qed.

(** Per operation: for a real font face [r], the references outstanding
    on [r] and the handles holding [r] change by the same amount, except
    for a reference that the operation takes over from, or hands to, its
    caller. *)
Ltac rew_world L :=
  let Hh := fresh "Hh" in
  pose proof L as Hh; cbn [faces calls] in Hh; rewrite Hh; clear Hh.

Lemma balance_step (o : op) (w w' : World) (r : pointer) :
  alive w o -> supported o -> is_proper r = true ->
  run o w = Ok (tt, w') ->
  outstanding w' r - holders w' r = outstanding w r - holders w r - adopted w o r.
Proof.
  intros Ha Hs Hr Hrun.
  destruct w as [fs cs].
  destruct o as [ | p | p | p | other | other | this other
                | this other | this p | this | this ];
    cbn [adopted]; cbn [run] in Hrun.
  - ok_inv Hrun. rewrite holders_new, (same_nullptr r Hr).
    unfold outstanding, holders; simpl. lia.
  - rewrite (bind_Ok _ _ _ _ _ (FontFace_ptr_Ok p _)) in Hrun. ok_inv Hrun.
    cbn [faces calls]. rewrite holders_new, (outstanding_addRef fs _ cs p r Hr).
    unfold holders; simpl. lia.
  - unfold FontFace_com_ptr_copy in Hrun.
    rewrite (bind_Ok _ _ _ _ _ (FontFace_ptr_Ok p _)) in Hrun. ok_inv Hrun.
    cbn [faces calls]. rewrite holders_new, (outstanding_addRef fs _ cs p r Hr).
    unfold holders; simpl. lia.
  - ok_inv Hrun. rewrite holders_new. unfold outstanding, holders; simpl. lia.
  - destruct (alive_1 _ _ other Ha) as [q Hq]; [in_list |].
    rewrite (bind_Ok _ _ _ _ _ (FontFace_copy_Ok _ _ _ Hq)) in Hrun. ok_inv Hrun.
    cbn [faces calls]. rewrite holders_new, (outstanding_addRef fs _ cs q r Hr).
    unfold holders; simpl. lia.
  - destruct (alive_1 _ _ other Ha) as [q Hq]; [in_list |].
    rewrite (bind_Ok _ _ _ _ _ (FontFace_move_Ok _ _ _ Hq)) in Hrun. ok_inv Hrun.
    cbn [faces calls]. rewrite holders_new.
    pose proof (holders_store (mk_World fs cs) cs other q nullptr r Hq) as Hh.
    unfold holders in Hh; simpl in Hh. rewrite Hh, (same_nullptr r Hr).
    unfold outstanding, holders; simpl. lia.
  - destruct (alive_1 _ _ this Ha) as [p Hp]; [in_list |].
    destruct (alive_1 _ _ other Ha) as [q Hq]; [in_list |].
    rewrite (assign_copy_Ok _ _ _ _ _ Hp Hq) in Hrun. ok_inv Hrun.
    cbn [faces calls].
    rew_world (holders_store (mk_World fs cs)
                 (cs ++ release_calls p ++ addRef_calls q) this p q r Hp).
    rewrite app_assoc, (outstanding_addRef fs _ _ q r Hr),
            (outstanding_release fs fs cs p r Hr). lia.
  - destruct (alive_1 _ _ this Ha) as [p Hp]; [in_list |].
    destruct (alive_1 _ _ other Ha) as [q Hq]; [in_list |].
    rewrite (assign_move_Ok _ _ _ _ _ Hp Hq) in Hrun. ok_inv Hrun.
    cbn [supported] in Hs.
    set (w1 := mk_World (<[other := Some (mk nullptr)]> fs) cs).
    assert (Hp1 : stored w1 this = Some p).
    { assert (Hne : other <> this) by congruence.
      exact (eq_trans (stored_insert_ne (mk_World fs cs) other this nullptr cs Hne) Hp). }
    rewrite (holders_store w1 _ this p q r Hp1).
    unfold w1.
    pose proof (holders_store (mk_World fs cs) cs other q nullptr r Hq) as Hh.
    cbn [faces calls] in Hh. rewrite Hh.
    rewrite (outstanding_release fs _ cs p r Hr), (same_nullptr r Hr). lia.
  - destruct (alive_1 _ _ this Ha) as [q Hq]; [in_list |].
    rewrite (attach_Ok _ p _ _ Hq) in Hrun. ok_inv Hrun.
    cbn [faces calls].
    rew_world (holders_store (mk_World fs cs) (cs ++ release_calls q) this q p r Hq).
    rewrite (outstanding_release fs _ cs q r Hr). lia.
  - destruct (alive_1 _ _ this Ha) as [q Hq]; [in_list |].
    rewrite (bind_Ok _ _ _ _ _ (detach_Ok _ _ _ Hq)) in Hrun. ok_inv Hrun.
    rew_world (holders_store (mk_World fs cs) cs this q nullptr r Hq).
    rewrite (held_stored _ _ _ Hq), (same_nullptr r Hr).
    unfold outstanding; simpl. lia.
  - destruct (alive_1 _ _ this Ha) as [q Hq]; [in_list |].
    rewrite (destroy_Ok _ _ _ Hq) in Hrun. ok_inv Hrun.
    cbn [faces calls].
    rew_world (holders_end (mk_World fs cs) (cs ++ release_calls q) this q r Hq).
    rewrite (outstanding_release fs _ cs q r Hr). lia.
Qed.


(** An operation that returns had live operands. *)
Lemma bind_Undefined {S A B} (m : M S A) (k : A -> M S B) (s : S) :
  m s = Undefined -> (m ≫= k) s = Undefined.
Proof. intros E. unfold mbind, M_bind, bind. rewrite E. reflexivity. Qed.

Lemma load_dead (w : World) (i : nat) : stored w i = None -> load i w = Undefined.
Proof.
  unfold stored, load. destruct (faces w !! i) as [[f |] |]; congruence.
Qed.

Lemma _release_dead (w : World) (i : nat) :
  stored w i = None -> _release i w = Undefined.
Proof.
  intros E. unfold _release, is_proper_font.
  apply bind_Undefined, bind_Undefined, load_dead, E.
Qed.

Lemma detach_dead (w : World) (i : nat) :
  stored w i = None -> detach i w = Undefined.
Proof. intros E. unfold detach. apply bind_Undefined, load_dead, E. Qed.

Lemma get_dead (w : World) (i : nat) :
  stored w i = None -> get i w = Undefined.
Proof. intros E. unfold get. apply bind_Undefined, load_dead, E. Qed.

Lemma run_alive (o : op) (w w' : World) : run o w = Ok (tt, w') -> alive w o.
Proof.
  intros Hrun. unfold alive.
  destruct o as [ | p | p | p | other | other | this other
                | this other | this p | this | this ];
    cbn [operands]; cbn [run] in Hrun;
    repeat apply Forall_cons_2; try apply Forall_nil_2.
  - destruct (stored w other) as [q |] eqn:E; [eauto |].
    unfold FontFace_copy in Hrun.
    rewrite (bind_Undefined _ _ _ (bind_Undefined _ _ _ (get_dead _ _ E))) in Hrun.
    discriminate.
  - destruct (stored w other) as [q |] eqn:E; [eauto |].
    unfold FontFace_move in Hrun.
    rewrite (bind_Undefined _ _ _ (bind_Undefined _ _ _ (detach_dead _ _ E))) in Hrun.
    discriminate.
  - destruct (stored w this) as [q |] eqn:E; [eauto |].
    unfold assign_copy in Hrun.
    rewrite (bind_Undefined _ _ _ (_release_dead _ _ E)) in Hrun. discriminate.
  - destruct (stored w this) as [p |] eqn:Ep.
    2:{ unfold assign_copy in Hrun.
        rewrite (bind_Undefined _ _ _ (_release_dead _ _ Ep)) in Hrun. discriminate. }
    destruct (stored w other) as [q |] eqn:E; [eauto |].
    unfold assign_copy in Hrun.
    rewrite (bind_Ok _ _ _ _ _ (_release_Ok _ _ _ Ep)) in Hrun.
    rewrite (bind_Undefined _ _ _
               (get_dead (mk_World (faces w) (calls w ++ release_calls p)) _ E)) in Hrun.
    discriminate.
  - destruct (stored w this) as [q |] eqn:E; [eauto |].
    unfold assign_move in Hrun.
    rewrite (bind_Undefined _ _ _ (_release_dead _ _ E)) in Hrun. discriminate.
  - destruct (stored w this) as [p |] eqn:Ep.
    2:{ unfold assign_move in Hrun.
        rewrite (bind_Undefined _ _ _ (_release_dead _ _ Ep)) in Hrun. discriminate. }
    destruct (stored w other) as [q |] eqn:E; [eauto |].
    unfold assign_move in Hrun.
    rewrite (bind_Ok _ _ _ _ _ (_release_Ok _ _ _ Ep)) in Hrun.
    rewrite (bind_Undefined _ _ _
               (detach_dead (mk_World (faces w) (calls w ++ release_calls p)) _ E)) in Hrun.
    discriminate.
  - destruct (stored w this) as [q |] eqn:E; [eauto |].
    unfold attach in Hrun.
    rewrite (bind_Undefined _ _ _ (_release_dead _ _ E)) in Hrun. discriminate.
  - destruct (stored w this) as [q |] eqn:E; [eauto |].
    rewrite (bind_Undefined _ _ _ (detach_dead _ _ E)) in Hrun. discriminate.
  - destruct (stored w this) as [q |] eqn:E; [eauto |].
    unfold destroy in Hrun.
    rewrite (bind_Undefined _ _ _ (_release_dead _ _ E)) in Hrun. discriminate.
Qed.

Lemma internal_supported (o : op) : internal o -> supported o.
Proof. destruct o; simpl; tauto. Qed.

Lemma internal_adopted (o : op) (w : World) (r : pointer) :
  internal o -> adopted w o r = 0.
Proof. destruct o; simpl; tauto. Qed.

Lemma balance_run_all (os : list op) (w w' : World) (r : pointer) :
  Forall internal os -> is_proper r = true ->
  run_all os w = Ok (tt, w') ->
  outstanding w' r - holders w' r = outstanding w r - holders w r.
Proof.
  intros Hi Hr. revert w. induction Hi as [| o os Ho _ IH]; intros w Hrun.
  - cbn [run_all] in Hrun. ok_inv Hrun. reflexivity.
  - cbn [run_all] in Hrun.
    apply bind_Ok_inv in Hrun. destruct Hrun as ([] & w1 & Ho1 & Hrest).
    rewrite (IH _ Hrest).
    rewrite (balance_step o w w1 r (run_alive _ _ _ Ho1) (internal_supported _ Ho) Hr Ho1).
    rewrite (internal_adopted o w r Ho). lia.
Qed.

(** X5: Every member function keeps the books: for a real font face [r]
    (one above the soft-font sentinel), the number of [AddRef] calls not yet
    matched by a [Release], minus the number of live handles that store
    [r], changes only when a raw pointer crosses the boundary of the class:
    [attach] and the constructor from an expiring [com_ptr] take over a
    reference the caller already holds, [detach] hands one out. All other
    members (constructors, copy and move, assignment between two distinct
    handles, the destructor) leave the difference as it is. *)
Theorem references_follow_holders (o : op) (w w' : World) (r : pointer) :
  alive w o -> supported o -> is_proper r = true ->
  run o w = Ok (tt, w') ->
  outstanding w' r - holders w' r = outstanding w r - holders w r - adopted w o r.
Proof. apply balance_step. Qed.

(** X6: A program that creates, copies, moves, assigns (never moving a
    handle onto itself) and destroys handles, and never goes through
    [attach], [detach] or an expiring [com_ptr], holds at every moment
    exactly one reference per live handle on every real font face: nothing
    leaks and nothing is released twice. *)
Theorem internal_use_balances_references (os : list op) (w : World) (r : pointer) :
  Forall internal os -> is_proper r = true ->
  run_all os World0 = Ok (tt, w) ->
  outstanding w r = holders w r.
Proof.
  intros Hi Hr Hrun.
  pose proof (balance_run_all os World0 w r Hi Hr Hrun) as Hb.
  change (outstanding World0 r) with 0 in Hb.
  change (holders World0 r) with 0 in Hb. lia.
Qed.

(** X7: [detach] followed by [attach] of the pointer it returned puts the
    handle back as it was, and makes no reference-count call. *)
Theorem detach_attach_round_trip (this : nat) (p : pointer) (w : World) :
  stored w this = Some p ->
  (q ← detach this; attach this q) w = Ok (tt, w).
Proof.
  intros Hp. step (detach_Ok _ _ _ Hp).
  rewrite (attach_Ok this p nullptr
             (mk_World (<[this := Some (mk nullptr)]> (faces w)) (calls w))
             (stored_insert_eq w this p nullptr (calls w) Hp)).
  cbn [faces calls]. unfold release_calls. rewrite is_proper_nullptr, app_nil_r.
  rewrite list_insert_insert_eq, list_insert_id by (apply stored_Some, Hp).
  destruct w; reflexivity.
Qed.

(** X8: Moving a handle, into a new one or onto another one, hands the
    pointer over as it is: the target stores what the source stored, the
    source is left null, and no [AddRef] is made. Move assignment releases
    what the target stored before, and nothing else. *)
Theorem move_transfers_the_reference (this other : nat) (p q : pointer) (w : World) :
  stored w this = Some p -> stored w other = Some q -> this <> other ->
  (exists w', FontFace_move other w = Ok (length (faces w), w') /\
              stored w' (length (faces w)) = Some q /\
              stored w' other = Some nullptr /\
              calls w' = calls w) /\
  (exists w', assign_move this other w = Ok (tt, w') /\
              stored w' this = Some q /\
              stored w' other = Some nullptr /\
              calls w' = calls w ++ release_calls p).
Proof.
  intros Hp Hq Hne.
  assert (Ho : (other < length (faces w))%nat).
  { apply stored_Some in Hq. eapply lookup_lt_Some, Hq. }
  assert (Ht : (this < length (faces w))%nat).
  { apply stored_Some in Hp. eapply lookup_lt_Some, Hp. }
  split.
  - eexists. split; [apply (FontFace_move_Ok _ _ _ Hq) |].
    unfold stored; cbn [faces calls]. repeat split.
    + rewrite lookup_app_r by (rewrite length_insert; lia).
      rewrite length_insert, Nat.sub_diag. reflexivity.
    + rewrite lookup_app_l by (rewrite length_insert; lia).
      rewrite list_lookup_insert_eq by lia. reflexivity.
  - eexists. split; [apply (assign_move_Ok _ _ _ _ _ Hp Hq) |].
    unfold stored; cbn [faces calls]. repeat split.
    + rewrite list_lookup_insert_eq by (rewrite length_insert; lia). reflexivity.
    + rewrite list_lookup_insert_ne by congruence.
      rewrite list_lookup_insert_eq by lia. reflexivity.
Qed.

(** X9: Move-assigning a handle to itself is not a no-op: the handle keeps
    its pointer, but a real font face has been released once, so the handle
    now stores a pointer it holds no reference for. *)
Theorem self_move_assignment_drops_a_reference (this : nat) (p : pointer) (w : World) :
  stored w this = Some p -> is_proper p = true ->
  exists w', assign_move this this w = Ok (tt, w') /\
             faces w' = faces w /\
             calls w' = calls w ++ [Release p] /\
             outstanding w' p - holders w' p = outstanding w p - holders w p - 1.
Proof.
  intros Hp Hr. eexists. split; [apply (assign_move_Ok _ _ _ _ _ Hp Hp) |].
  cbn [faces calls].
  assert (Hf : <[this := Some (mk p)]> (<[this := Some (mk nullptr)]> (faces w)) = faces w).
  { rewrite list_insert_insert_eq. apply list_insert_id, stored_Some, Hp. }
  rewrite Hf. unfold release_calls. rewrite Hr. repeat split.
  unfold outstanding, holders; cbn [faces calls].
  rewrite !occurrences_app, !occurrences_cons, !occurrences_nil.
  destruct (decide (Release p = AddRef p)) as [e | _]; [discriminate e |].
  destruct (decide (Release p = Release p)) as [_ | n]; [lia | congruence].
Qed.

(** X10: Copy assignment releases before it acquires: assigning a handle on
    a real font face to itself leaves the handle as it is and makes the
    calls [Release] and [AddRef] on it, in this order, so the count of the
    font face passes through one less on the way. *)
Theorem self_copy_assignment_releases_first (this : nat) (p : pointer) (w : World) :
  stored w this = Some p -> is_proper p = true ->
  assign_copy this this w = Ok (tt, mk_World (faces w) (calls w ++ [Release p; AddRef p])).
Proof.
  intros Hp Hr. rewrite (assign_copy_Ok _ _ _ _ _ Hp Hp).
  unfold release_calls, addRef_calls. rewrite Hr.
  rewrite list_insert_id by (apply stored_Some, Hp). reflexivity.
Qed.

End RefCountFacts.

Lemma references_follow_holders_witness :
  let w := FontFace.mk_World [Some (FontFace.mk 64%N); Some (FontFace.mk 0%N)] [] in
  let w' := FontFace.mk_World [Some (FontFace.mk 64%N); Some (FontFace.mk 0%N)]
                              [FontFace.Release 64%N] in
  RefCount.outstanding w' 64%N - RefCount.holders w' 64%N =
  RefCount.outstanding w 64%N - RefCount.holders w 64%N
  - RefCount.adopted w (FontFace.Attach 0 64%N) 64%N.
Proof.
  intros w w'.
  apply (references_follow_holders (H := x64) (FontFace.Attach 0 64%N) w w' 64%N).
  - unfold FontFace.alive; simpl. repeat constructor. eexists; reflexivity.
  - exact I.
  - reflexivity.
  - reflexivity.
Defined.

Lemma internal_use_balances_references_witness :
  let w := FontFace.mk_World
             [Some (FontFace.mk 0%N); None; Some (FontFace.mk 64%N)]
             [FontFace.AddRef 64%N; FontFace.AddRef 64%N; FontFace.Release 64%N] in
  RefCount.outstanding w 64%N = RefCount.holders w 64%N.
Proof.
  intros w.
  apply (internal_use_balances_references (H := x64)
           [FontFace.FromPtr 64%N; FontFace.Copy 0; FontFace.Default;
            FontFace.AssignMove 2 0; FontFace.Destroy 1] w 64%N).
  - repeat constructor. simpl. discriminate.
  - reflexivity.
  - reflexivity.
Defined.

Lemma detach_attach_round_trip_witness :
  let w := FontFace.mk_World [Some (FontFace.mk 64%N)] [FontFace.AddRef 64%N] in
  (q ← FontFace.detach 0; FontFace.attach (H := x64) 0 q) w = Ok (tt, w).
Proof.
  intros w. apply (detach_attach_round_trip (H := x64) 0%nat 64%N w). reflexivity.
Defined.

Lemma move_transfers_the_reference_witness :
  let w := FontFace.mk_World [Some (FontFace.mk 64%N); Some (FontFace.mk 128%N)]
                             [FontFace.AddRef 64%N; FontFace.AddRef 128%N] in
  (exists w', FontFace.FontFace_move 1 w = Ok (length (FontFace.faces w), w') /\
              FontFace.stored w' (length (FontFace.faces w)) = Some 128%N /\
              FontFace.stored w' 1 = Some nullptr /\
              FontFace.calls w' = FontFace.calls w) /\
  (exists w', FontFace.assign_move (H := x64) 0 1 w = Ok (tt, w') /\
              FontFace.stored w' 0 = Some 128%N /\
              FontFace.stored w' 1 = Some nullptr /\
              FontFace.calls w' = FontFace.calls w ++ FontFace.release_calls (H := x64) 64%N).
Proof.
  intros w.
  apply (move_transfers_the_reference (H := x64) 0%nat 1%nat 64%N 128%N w);
    [reflexivity | reflexivity | discriminate].
Defined.

Lemma self_move_assignment_drops_a_reference_witness :
  let w := FontFace.mk_World [Some (FontFace.mk 64%N)] [FontFace.AddRef 64%N] in
  exists w', FontFace.assign_move (H := x64) 0 0 w = Ok (tt, w') /\
             FontFace.faces w' = FontFace.faces w /\
             FontFace.calls w' = FontFace.calls w ++ [FontFace.Release 64%N] /\
             RefCount.outstanding w' 64%N - RefCount.holders w' 64%N =
             RefCount.outstanding w 64%N - RefCount.holders w 64%N - 1.
Proof.
  intros w.
  apply (self_move_assignment_drops_a_reference (H := x64) 0%nat 64%N w);
    reflexivity.
Defined.

Lemma self_copy_assignment_releases_first_witness :
  let w := FontFace.mk_World [Some (FontFace.mk 64%N)] [FontFace.AddRef 64%N] in
  FontFace.assign_copy (H := x64) 0 0 w =
  Ok (tt, FontFace.mk_World (FontFace.faces w)
            (FontFace.calls w ++ [FontFace.Release 64%N; FontFace.AddRef 64%N])).
Proof.
  intros w.
  apply (self_copy_assignment_releases_first (H := x64) 0%nat 64%N w); reflexivity.
Defined.

(* --------------------------------------------------------------------- *)
(** *** [Buffer]: construction of [size] elements, and destruction *)
(* --------------------------------------------------------------------- *)

Section BufferLifeCycle.
Context {T : Type} `{Element T}.
Variable Alignment : N.
Import Buffer.

Abbreviation World := (Buffer.World T).
Abbreviation Block := (Buffer.Block T).

(** [allocate] of a non-zero size when the store has the bytes it is
    asked for: the byte count [size * sizeof(T)] as [size_t] computes it. *)
Lemma allocate_bytes_Ok (w : World) (n : N) :
  n <> 0%N ->
  let nb := Z.to_N (wrap_u size_t_bits (Z.of_N n * Zpos sizeof)) in
  (nb <= avail w)%N ->
  Buffer.allocate Alignment n w =
  Ok (slot (length (heap w)) 0,
      mk_World (objs w)
        (heap w ++ [Some (mk_Block nb (new_alignment Alignment)
                            (replicate (N.to_nat (nb / Npos sizeof)) None))])
        (avail w - nb)%N (trace w)).
Proof.
  intros Hn nb Hroom. unfold Buffer.allocate, new_alignment.
  replace (n =? 0)%N with false by (symmetry; apply N.eqb_neq; exact Hn).
  fold nb. apply N.leb_le in Hroom.
  destruct (Alignment <=? STDCPP_DEFAULT_NEW_ALIGNMENT)%N;
    unfold operator_new; rewrite Hroom; reflexivity.
Qed.

Lemma allocate_bytes_Throw (w : World) (n : N) :
  n <> 0%N ->
  (avail w < Z.to_N (wrap_u size_t_bits (Z.of_N n * Zpos sizeof)))%N ->
  Buffer.allocate Alignment n w = Throw.
Proof.
  intros Hn Hroom. unfold Buffer.allocate.
  replace (n =? 0)%N with false by (symmetry; apply N.eqb_neq; exact Hn).
  apply N.leb_gt in Hroom.
  destruct (Alignment <=? STDCPP_DEFAULT_NEW_ALIGNMENT)%N;
    unfold operator_new; rewrite Hroom; reflexivity.
Qed.

(** [Buffer(size)] with a byte count that fits [size_t] and a store that
    has the bytes: every slot of the new block holds what
    default-initialisation leaves there. *)
Lemma Buffer_size_Ok (w : World) (n : N) :
  n <> 0%N ->
  Z.of_N n * Zpos sizeof < 2 ^ size_t_bits ->
  (n * Npos sizeof <= avail w)%N ->
  Buffer_size Alignment n w =
  Ok (length (objs w),
      mk_World (objs w ++ [Some (mk (slot (length (heap w)) 0) n)])
        (heap w ++ [Some (mk_Block (n * Npos sizeof) (new_alignment Alignment)
                            (replicate (N.to_nat n) default_init))])
        (avail w - n * Npos sizeof)%N (trace w)).
Proof.
  intros Hn Hfit Hroom. unfold Buffer_size.
  rewrite (bind_Ok _ _ _ _ _ (allocate_Ok Alignment w _ Hn Hfit Hroom)).
  set (B0 := mk_Block (n * Npos sizeof) (new_alignment Alignment)
               (replicate (N.to_nat n) None)).
  set (w1 := mk_World (objs w) (heap w ++ [Some B0])
               (avail w - n * Npos sizeof)%N (trace w)).
  set (d := slot (length (heap w)) 0).
  rewrite (bind_Ok _ _ w1 (set_objs (fun os => os ++ [Some (mk d n)]) w1)
             (length (objs w))) by reflexivity.
  set (w2 := set_objs (fun os => os ++ [Some (mk d n)]) w1).
  assert (Hb2 : heap w2 !! length (heap w) = Some (Some B0)).
  { unfold w2, w1; simpl. rewrite lookup_app_r by lia. rewrite Nat.sub_diag. reflexivity. }
  unfold uninitialized_default_construct_n.
  destruct default_init as [v |].
  - rewrite (bind_Ok _ _ w2
               (set_heap (<[length (heap w) :=
                              Some (mk_Block (bytes B0) (align B0)
                                      (replicate (N.to_nat n) (Some v)))]>) w2)
               tt).
    + unfold w2, w1, set_heap, set_objs; simpl.
      rewrite insert_app_r_alt by lia. rewrite Nat.sub_diag. reflexivity.
    + apply put_cells_whole; [exact Hb2 | |].
      * destruct (N.to_nat n) eqn:E; [lia | discriminate].
      * unfold B0; simpl. rewrite !length_replicate. reflexivity.
  - rewrite (bind_Ok _ _ w2 w2 tt) by reflexivity. reflexivity.
Qed.

Lemma Buffer_size_Throw (w : World) (n : N) :
  Z.of_N n * Zpos sizeof < 2 ^ size_t_bits ->
  (avail w < n * Npos sizeof)%N ->
  Buffer_size Alignment n w = Throw.
Proof.
  intros Hfit Hroom. unfold Buffer_size, Buffer.allocate.
  assert (Hn : n <> 0%N) by lia.
  replace (n =? 0)%N with false by (symmetry; apply N.eqb_neq; exact Hn).
  assert (Hbytes : Z.to_N (wrap_u size_t_bits (Z.of_N n * Z.pos sizeof))
                   = (n * Npos sizeof)%N).
  { unfold wrap_u. rewrite Z.mod_small by lia. lia. }
  rewrite Hbytes.
  apply N.leb_gt in Hroom.
  destruct (Alignment <=? STDCPP_DEFAULT_NEW_ALIGNMENT)%N;
    unfold mbind, M_bind, bind, operator_new; rewrite Hroom; reflexivity.
Qed.

(** Writing more elements than the block has slots. *)
Lemma put_cells_overrun (w : World) (b : nat) (i : N) (B : Block) (cs : list (option T)) :
  heap w !! b = Some (Some B) ->
  cs <> [] ->
  (length (cells B) < N.to_nat i + length cs)%nat ->
  put_cells (slot b i) cs w = Undefined.
Proof.
  intros Hb Hne Hlen. unfold put_cells. destruct cs as [| c cs]; [congruence |].
  rewrite Hb. destruct (decide _) as [Hle | _]; [lia | reflexivity].
Qed.

(** X11: [Buffer(size)] returns a buffer of [size] elements, taking
    [size * sizeof(T)] bytes from the store and ending no element; it throws
    [std::bad_alloc], before any object exists, when the store does not have
    the bytes. For a class type every element is default-constructed, and
    iteration and [operator[]] read the default value. For a trivial type
    ([u32], a pointer) nothing is written: the [size] slots of the block
    hold no value. *)
Theorem Buffer_size_default_initialises (w : World) (n : N) :
  Z.of_N n * Zpos sizeof < 2 ^ size_t_bits ->
  ((n * Npos sizeof <= avail w)%N ->
   exists this w',
     Buffer_size Alignment n w = Ok (this, w') /\
     size this w' = Ok (n, w') /\
     avail w' = (avail w - n * Npos sizeof)%N /\ trace w' = trace w /\
     (forall v : T, default_init = Some v ->
        (forall fuel, (N.to_nat n <= fuel)%nat ->
           iterate fuel this w' = Ok (replicate (N.to_nat n) v, w')) /\
        (forall i, (i < n)%N -> operator_index this i w' = Ok (v, w'))) /\
     (default_init = None -> n <> 0%N ->
        exists (blk : nat) (B : Block),
          data this w' = Ok (slot blk 0, w') /\
          heap w' !! blk = Some (Some B) /\
          cells B = replicate (N.to_nat n) None)) /\
  ((avail w < n * Npos sizeof)%N -> Buffer_size Alignment n w = Throw).
Proof.
  intros Hfit. split; [| apply Buffer_size_Throw; exact Hfit].
  intros Hroom. destruct (N.eq_dec n 0%N) as [-> | Hn].
  - rewrite Buffer_size_0. eexists _, _. split; [reflexivity |].
    set (w' := set_objs _ w).
    assert (Hobj : object w' (length (objs w)) = Some (mk null 0)) by apply object_fresh.
    split; [apply (size_Ok w' _ _ Hobj) |].
    split; [unfold w'; simpl; lia |]. split; [reflexivity |]. split.
    + intros v _. split.
      * intros fuel _. unfold iterate, begin, end_.
        rewrite (bind_Ok _ _ w' w' null) by (step (buf_load_Ok _ _ _ Hobj); reflexivity).
        rewrite (bind_Ok _ _ w' w' null) by (step (buf_load_Ok _ _ _ Hobj); reflexivity).
        destruct fuel; reflexivity.
      * intros i Hi. lia.
    + intros _ Hn. congruence.
  - rewrite (Buffer_size_Ok w n Hn Hfit Hroom). eexists _, _. split; [reflexivity |].
    set (B := mk_Block (n * Npos sizeof) (new_alignment Alignment)
                (replicate (N.to_nat n) default_init)).
    set (w' := mk_World _ _ _ _).
    assert (Hobj : object w' (length (objs w)) = Some (mk (slot (length (heap w)) 0) n)).
    { unfold w', object; simpl.
      rewrite lookup_app_r by lia. rewrite Nat.sub_diag. reflexivity. }
    assert (Hb : heap w' !! length (heap w) = Some (Some B)).
    { unfold w'; simpl. rewrite lookup_app_r by lia. rewrite Nat.sub_diag. reflexivity. }
    split; [apply (size_Ok w' _ _ Hobj) |].
    split; [reflexivity |]. split; [reflexivity |]. split.
    + intros v Hv.
      set (xs := replicate (N.to_nat n) v).
      assert (Hlen : length xs = N.to_nat n) by apply length_replicate.
      assert (Hobj' : object w' (length (objs w))
                      = Some (mk (slot (length (heap w)) 0) (N.of_nat (length xs)))).
      { rewrite Hlen, N2Nat.id. exact Hobj. }
      assert (Hc : cells B = Some <$> xs).
      { unfold B, xs; cbn [cells]. rewrite Hv. now rewrite fmap_replicate. }
      split.
      * intros fuel Hf. apply (iterate_Ok w' _ _ B xs fuel Hobj' Hb Hc). lia.
      * intros i Hi. rewrite <- (N2Nat.id i).
        apply (operator_index_Ok w' _ _ B xs (N.to_nat i) v Hobj' Hb Hc).
        unfold xs. apply lookup_replicate_2. lia.
    + intros Hv _. exists (length (heap w)), B.
      split; [apply (data_Ok w' _ _ Hobj) |]. split; [exact Hb |].
      unfold B; cbn [cells]. rewrite Hv. reflexivity.
Qed.

(** X12: no check guards the multiplication in [allocate]. When
    [size * sizeof(T)] does not fit [size_t] the store is asked for the
    wrapped byte count, which is too small for [size] elements. If the
    store does not have even that, the constructor throws. Otherwise, for a
    trivial element type, [Buffer(size)] returns a buffer that reports
    [size()] elements over a block with fewer slots; for a class type the
    elements are constructed past the end of the block. *)
Theorem byte_count_overflow_is_unchecked (w : World) (n : N) :
  2 ^ size_t_bits <= Z.of_N n * Zpos sizeof ->
  let nb := Z.to_N (wrap_u size_t_bits (Z.of_N n * Zpos sizeof)) in
  let B := mk_Block nb (new_alignment Alignment)
             (replicate (N.to_nat (nb / Npos sizeof)) None) in
  (nb / Npos sizeof < n)%N /\
  ((avail w < nb)%N -> Buffer_size Alignment n w = Throw) /\
  ((nb <= avail w)%N ->
   (default_init = None ->
      Buffer_size Alignment n w =
      Ok (length (objs w),
          mk_World (objs w ++ [Some (mk (slot (length (heap w)) 0) n)])
                   (heap w ++ [Some B]) (avail w - nb)%N (trace w))) /\
   (forall v : T, default_init = Some v -> Buffer_size Alignment n w = Undefined)).
Proof.
  intros Hover nb B.
  assert (Hn : n <> 0%N) by (unfold size_t_bits in Hover; lia).
  assert (Hnb : (nb / Npos sizeof < n)%N).
  { apply N.Div0.div_lt_upper_bound.
    unfold nb, wrap_u.
    pose proof (Z.mod_pos_bound (Z.of_N n * Z.pos sizeof) (2 ^ size_t_bits)
                  ltac:(unfold size_t_bits; lia)) as Hm.
    lia. }
  split; [exact Hnb |]. split.
  - intros Hroom. unfold Buffer_size.
    unfold mbind, M_bind, bind.
    rewrite (allocate_bytes_Throw w n Hn Hroom). reflexivity.
  - intros Hroom. unfold Buffer_size.
    rewrite (bind_Ok _ _ _ _ _ (allocate_bytes_Ok w n Hn Hroom)).
    fold nb. fold B.
    set (w1 := mk_World (objs w) (heap w ++ [Some B]) (avail w - nb)%N (trace w)).
    rewrite (bind_Ok _ _ w1
               (set_objs (fun os => os ++ [Some (mk (slot (length (heap w)) 0) n)]) w1)
               (length (objs w))) by reflexivity.
    unfold uninitialized_default_construct_n. split.
    + intros ->. reflexivity.
    + intros v ->. apply bind_Undefined.
      apply (put_cells_overrun _ _ _ B).
      * unfold w1; cbn [heap set_objs]. rewrite lookup_app_r by lia.
        rewrite Nat.sub_diag. reflexivity.
      * destruct (N.to_nat n) eqn:E; [lia | discriminate].
      * unfold B; cbn [cells]. rewrite !length_replicate. lia.
Qed.

(** X13: A buffer made by [Buffer(size)] and destroyed again leaves the store
    as it found it: the destructor destroys the [size] elements, first to
    last, frees the block once, and the bytes are available again. *)
Theorem construct_destroy_round_trip (w : World) (n : N) :
  n <> 0%N ->
  Z.of_N n * Zpos sizeof < 2 ^ size_t_bits ->
  (n * Npos sizeof <= avail w)%N ->
  (this ← Buffer_size Alignment n; Buffer_destroy Alignment this) w =
  Ok (tt, mk_World (objs w ++ [None]) (heap w ++ [None]) (avail w)
            (trace w ++
             ((fun k => Destroyed (length (heap w)) (0 + N.of_nat k)%N)
                <$> seq 0 (N.to_nat n)) ++
             [Freed (length (heap w))])).
Proof.
  intros Hn Hfit Hroom.
  rewrite (bind_Ok _ _ _ _ _ (Buffer_size_Ok w n Hn Hfit Hroom)).
  set (B := mk_Block (n * Npos sizeof) (new_alignment Alignment)
              (replicate (N.to_nat n) default_init)).
  set (w1 := mk_World _ _ _ _).
  set (this := length (objs w)). set (blk := length (heap w)).
  assert (Hobj : object w1 this = Some (mk (slot blk 0) n)).
  { unfold w1, object; simpl. rewrite lookup_app_r by (unfold this; lia).
    unfold this. rewrite Nat.sub_diag. reflexivity. }
  assert (Hb : heap w1 !! blk = Some (Some B)).
  { unfold w1; simpl. rewrite lookup_app_r by (unfold blk; lia).
    unfold blk. rewrite Nat.sub_diag. reflexivity. }
  assert (Hc : constructed B n).
  { unfold constructed, B; cbn [cells]. destruct default_init as [v |]; [| exact I].
    exists (replicate (N.to_nat n) v).
    split; [now rewrite fmap_replicate | apply length_replicate]. }
  unfold Buffer_destroy, Buffer.destroy.
  rewrite (bind_Ok _ _ w1
    (mk_World (objs w1) (<[blk := None]> (heap w1)) (avail w1 + bytes B)%N
       (trace w1 ++ ((fun k => Destroyed blk (0 + N.of_nat k)%N) <$> seq 0 (N.to_nat n))
        ++ [Freed blk])) tt).
  - rewrite (buf_end_lifetime_Ok _ this (mk (slot blk 0) n)) by exact Hobj.
    unfold set_objs, w1, B; cbn [objs heap avail trace bytes].
    rewrite insert_app_r_alt by (unfold this; lia).
    rewrite insert_app_r_alt by (unfold blk; lia).
    unfold this, blk. rewrite !Nat.sub_diag. cbn [insert list_insert].
    do 3 f_equal. lia.
  - rewrite (bind_Ok _ _ _ _ _ (buf_load_Ok _ _ _ Hobj)). cbn [_data _size].
    apply (destroy_block Alignment w1 blk B n Hb eq_refl Hc Hn).
Qed.

Lemma object_objs_eq (w w' : World) (i : nat) :
  objs w' = objs w -> object w' i = object w i.
Proof. intros E. unfold object. rewrite E. reflexivity. Qed.

(** Reading through a pointer into a block that has been given back. *)
Lemma read_n_freed (w : World) (blk : nat) (i n : N) :
  heap w !! blk = Some None -> n <> 0%N -> read_n (slot blk i) n w = Undefined.
Proof.
  intros Hb Hn. unfold read_n, cells_at.
  destruct (decide (N.to_nat n = 0%nat)) as [E | _]; [lia |].
  rewrite Hb. reflexivity.
Qed.

Lemma operator_delete_freed (w : World) (blk : nat) (i : N) (a : option N) :
  heap w !! blk = Some None -> operator_delete (slot blk i) a w = Undefined.
Proof. intros Hb. unfold operator_delete. rewrite Hb. reflexivity. Qed.

(** X14: In every state reached without self-assignment, the destructor and
    both moves of live buffers return: no element is destroyed twice, no
    block is freed twice, nothing is read after it was freed. *)
Theorem destructor_and_moves_are_safe (w : World) :
  reachable_supported Alignment w ->
  (forall (this : nat) (b : t), object w this = Some b ->
     exists w', Buffer_destroy Alignment this w = Ok (tt, w') /\
                object w' this = None) /\
  (forall (this other : nat) (b0 b : t),
     this <> other -> object w this = Some b0 -> object w other = Some b ->
     exists w', assign_move Alignment this other w = Ok (tt, w') /\
                object w' this = Some b /\ object w' other = Some (mk null 0)) /\
  (forall (other : nat) (b : t), object w other = Some b ->
     exists this w', Buffer_move other w = Ok (this, w') /\
                     object w' this = Some b /\ object w' other = Some (mk null 0)).
Proof.
  intros Hr. pose proof (reachable_supported_exclusive Alignment w Hr) as [Hown _].
  split; [| split].
  - intros this b Hobj.
    destruct (destroy_owned Alignment w this b Hobj (Hown _ _ Hobj)) as (w1 & Hd & Ho & _).
    assert (Hobj1 : object w1 this = Some b)
      by (rewrite (object_objs_eq w w1 this Ho); exact Hobj).
    eexists. split.
    + unfold Buffer_destroy. rewrite (bind_Ok _ _ _ _ _ Hd).
      apply (buf_end_lifetime_Ok w1 this b Hobj1).
    + unfold object, set_objs; cbn [objs].
      rewrite list_lookup_insert_eq; [reflexivity |].
      apply (object_lt w1 this b Hobj1).
  - intros this other b0 b Hne Hobj0 Hobj.
    destruct (destroy_owned Alignment w this b0 Hobj0 (Hown _ _ Hobj0)) as (w1 & Hd & Ho & _).
    eexists. split; [apply (buf_assign_move_Ok Alignment w w1 this other b0 b Hobj0 Hobj Hd Ho) |].
    pose proof (object_lt w this b0 Hobj0) as Hlt0.
    pose proof (object_lt w other b Hobj) as Hlt.
    unfold object, set_objs; cbn [objs]. rewrite Ho. split.
    + rewrite list_lookup_insert_eq; [reflexivity |]. rewrite length_insert. exact Hlt0.
    + rewrite list_lookup_insert_ne by exact Hne.
      rewrite list_lookup_insert_eq; [reflexivity | exact Hlt].
  - intros other b Hobj. pose proof (object_lt w other b Hobj) as Hlt.
    eexists _, _. split; [apply (Buffer_move_Ok w other b Hobj) |].
    unfold object, set_objs; cbn [objs]. split.
    + rewrite lookup_app_r by (rewrite length_insert; lia).
      rewrite length_insert, Nat.sub_diag. reflexivity.
    + rewrite lookup_app_l by (rewrite length_insert; lia).
      rewrite list_lookup_insert_eq; [reflexivity | exact Hlt].
Qed.

(** X15: for a class element type (one with a default constructor, as
    [ShapedRow]), in every state reached without self-assignment each live
    buffer can be read in full: iterating from [begin()] to [end()] visits
    [size()] elements, and [operator[]] at an index below [size()] returns
    the element the iteration visits at that position. *)
Theorem class_type_buffers_can_be_read (w : World) (this : nat) (b : t) (v : T) :
  default_init = Some v ->
  reachable_supported Alignment w -> object w this = Some b ->
  exists xs : list T,
    length xs = N.to_nat (_size b) /\
    (forall fuel, (length xs <= fuel)%nat -> iterate fuel this w = Ok (xs, w)) /\
    (forall i x, xs !! i = Some x -> operator_index this (N.of_nat i) w = Ok (x, w)).
Proof.
  intros Hv Hr Hobj.
  pose proof (reachable_supported_exclusive Alignment w Hr) as [Hown _].
  specialize (Hown _ _ Hobj). destruct b as [d n]. unfold owns in Hown.
  cbn [_data _size] in *. destruct d as [| blk i].
  - subst n. exists []. split; [reflexivity |]. split.
    + intros fuel _. unfold iterate, begin, end_.
      rewrite (bind_Ok _ _ w w null) by (step (buf_load_Ok _ _ _ Hobj); reflexivity).
      rewrite (bind_Ok _ _ w w null) by (step (buf_load_Ok _ _ _ Hobj); reflexivity).
      destruct fuel; reflexivity.
    + intros i x Hx. discriminate Hx.
  - destruct Hown as (-> & Hn & B & Hb & _ & Hc).
    unfold constructed in Hc. rewrite Hv in Hc. destruct Hc as (xs & Hc & Hlen).
    assert (En : n = N.of_nat (length xs)) by lia. subst n.
    exists xs. split; [lia |]. split.
    + intros fuel Hf. apply (iterate_Ok w this blk B xs fuel Hobj Hb Hc Hf).
    + intros i x Hx. apply (operator_index_Ok w this blk B xs i x Hobj Hb Hc Hx).
Qed.

(** X16: Move-assigning a non-empty buffer to itself frees its storage and
    leaves the buffer with the same pointer and size: the buffer dangles.
    Reading its first element, and its destructor, are then undefined. *)
Theorem self_move_assignment_leaves_dangling (w : World) (this : nat) (b : t) :
  object w this = Some b -> owns Alignment w b -> _size b <> 0%N ->
  exists w',
    assign_move Alignment this this w = Ok (tt, w') /\
    object w' this = Some b /\
    operator_index this 0 w' = Undefined /\
    Buffer_destroy Alignment this w' = Undefined.
Proof.
  intros Hobj Hown Hn.
  destruct (destroy_owned Alignment w this b Hobj Hown) as (w1 & Hd & Ho & Hshape).
  pose proof (object_lt w this b Hobj) as Hlt.
  destruct b as [d n]. cbn [_data _size] in *.
  destruct d as [| blk i]; [unfold owns in Hown; cbn in Hown; congruence |].
  destruct Hshape as [Hheap _].
  pose proof (owns_block_lt Alignment w _ blk i Hown eq_refl) as Hblk.
  assert (Hi : i = 0%N) by (unfold owns in Hown; cbn in Hown; tauto). subst i.
  eexists. split; [apply (buf_assign_move_Ok Alignment w w1 this this _ _ Hobj Hobj Hd Ho) |].
  set (w' := set_objs _ w1).
  assert (Hobj' : object w' this = Some (mk (slot blk 0) n)).
  { unfold w', object, set_objs; cbn [objs]. rewrite Ho.
    rewrite list_lookup_insert_eq; [reflexivity |]. rewrite length_insert. exact Hlt. }
  assert (Hfreed : heap w' !! blk = Some None).
  { unfold w', set_objs; cbn [heap]. rewrite Hheap.
    apply list_lookup_insert_eq. exact Hblk. }
  split; [exact Hobj' |]. split.
  - unfold operator_index. step (buf_load_Ok _ _ _ Hobj').
    replace (0 <? n)%N with true by (symmetry; apply N.ltb_lt; lia).
    unfold read. apply bind_Undefined, read_n_freed; [exact Hfreed | discriminate].
  - unfold Buffer_destroy, Buffer.destroy. apply bind_Undefined.
    rewrite (bind_Ok _ _ _ _ _ (buf_load_Ok _ _ _ Hobj')). cbn [_data _size].
    unfold destroy_n. destruct default_init as [v |].
    + do 3 apply bind_Undefined. apply read_n_freed; [exact Hfreed | exact Hn].
    + rewrite (bind_Ok _ _ w'
                 (log ((fun k => Destroyed blk (0 + N.of_nat k)%N)
                         <$> seq 0 (N.to_nat n)) w') tt)
        by (rewrite (bind_Ok _ _ w' w' tt) by reflexivity; reflexivity).
      unfold Buffer.deallocate.
      destruct (Alignment <=? STDCPP_DEFAULT_NEW_ALIGNMENT)%N;
        apply operator_delete_freed; exact Hfreed.
Qed.

(** X17: Moving a buffer out into a new one and move-assigning it back puts
    the buffer back as it was and leaves the new one empty; the store is
    not touched. *)
Theorem move_out_and_back_restores (w : World) (this : nat) (b : t) :
  object w this = Some b ->
  (tmp ← Buffer_move this; assign_move Alignment this tmp) w =
  Ok (tt, set_objs (fun os => os ++ [Some (mk null 0)]) w).
Proof.
  intros Hobj. pose proof (object_lt w this b Hobj) as Hlt.
  rewrite (bind_Ok _ _ _ _ _ (Buffer_move_Ok w this b Hobj)).
  set (w1 := set_objs _ w). set (tmp := length (objs w)).
  assert (Hthis : object w1 this = Some (mk null 0)).
  { unfold w1, object, set_objs; cbn [objs].
    rewrite lookup_app_l by (rewrite length_insert; lia).
    rewrite list_lookup_insert_eq; [reflexivity | exact Hlt]. }
  assert (Htmp : object w1 tmp = Some b).
  { unfold w1, object, set_objs, tmp; cbn [objs].
    rewrite lookup_app_r by (rewrite length_insert; lia).
    rewrite length_insert, Nat.sub_diag. reflexivity. }
  destruct (destroy_owned Alignment w1 this (mk null 0) Hthis eq_refl) as (w2 & Hd & _ & ->).
  rewrite (buf_assign_move_Ok Alignment w1 w1 this tmp _ _ Hthis Htmp Hd eq_refl).
  unfold w1, set_objs, tmp; cbn [objs heap avail trace]. do 2 f_equal.
  apply object_Some in Hobj.
  f_equal.
  rewrite insert_app_r_alt by (rewrite length_insert; lia).
  rewrite length_insert, Nat.sub_diag. cbn [insert list_insert].
  rewrite insert_app_l by (rewrite length_insert; lia).
  rewrite list_insert_insert_eq, list_insert_id by exact Hobj. reflexivity.
Qed.

End BufferLifeCycle.

(** Two rows: the constructor makes two default rows. *)
Example Buffer_size_ShapedRow_2 :
  (this ← Buffer.Buffer_size (H := ShapedRow_Element) 8 2; Buffer.iterate 2 this)
    (Buffer.mk_World [] [] 1024 []) =
  Ok ([ShapedRow_default; ShapedRow_default],
      Buffer.mk_World [Some (Buffer.mk (Buffer.slot 0 0) 2)]
        [Some (Buffer.mk_Block 320 None [Some ShapedRow_default; Some ShapedRow_default])]
        704 []).
Proof. reflexivity. Qed.

Lemma Buffer_size_default_initialises_witness :
  let w := Buffer.mk_World (T := u32) [] [] 1024 [] in
  Z.of_N 2 * Zpos sizeof < 2 ^ size_t_bits /\
  (2 * Npos sizeof <= Buffer.avail w)%N /\
  exists this w',
    Buffer.Buffer_size 4 2 w = Ok (this, w') /\
    Buffer.size this w' = Ok (2%N, w') /\
    Buffer.avail w' = (Buffer.avail w - 2 * Npos sizeof)%N /\
    Buffer.trace w' = Buffer.trace w /\
    (forall v : u32, default_init = Some v ->
       (forall fuel, (N.to_nat 2 <= fuel)%nat ->
          Buffer.iterate fuel this w' = Ok (replicate (N.to_nat 2) v, w')) /\
       (forall i, (i < 2)%N -> Buffer.operator_index this i w' = Ok (v, w'))) /\
    (default_init = None -> 2%N <> 0%N ->
       exists (blk : nat) (B : Buffer.Block u32),
         Buffer.data this w' = Ok (Buffer.slot blk 0, w') /\
         Buffer.heap w' !! blk = Some (Some B) /\
         Buffer.cells B = replicate (N.to_nat 2) None).
Proof.
  cbv zeta.
  set (w := Buffer.mk_World (T := u32) [] [] 1024 []).
  assert (Hfit : Z.of_N 2 * Zpos sizeof < 2 ^ size_t_bits) by reflexivity.
  assert (Hroom : (2 * Npos sizeof <= Buffer.avail w)%N) by (simpl; lia).
  split; [exact Hfit | split; [exact Hroom |]].
  exact (proj1 (Buffer_size_default_initialises 4 w 2 Hfit) Hroom).
Defined.

Lemma byte_count_overflow_is_unchecked_witness :
  let w := Buffer.mk_World (T := u32) [] [] 1024 [] in
  let n := 4611686018427387905%N in
  2 ^ size_t_bits <= Z.of_N n * Zpos sizeof /\
  Buffer.Buffer_size 4 n w =
  Ok (0%nat,
      Buffer.mk_World [Some (Buffer.mk (Buffer.slot 0 0) n)]
        [Some (Buffer.mk_Block 4 None [None])] 1020 []).
Proof.
  cbv zeta.
  assert (Hover : 2 ^ size_t_bits <= Z.of_N 4611686018427387905 * Zpos sizeof)
    by (unfold size_t_bits; simpl; lia).
  split; [exact Hover |].
  apply (byte_count_overflow_is_unchecked 4
           (Buffer.mk_World (T := u32) [] [] 1024 []) _ Hover).
  - vm_compute. discriminate.
  - reflexivity.
Defined.

Lemma construct_destroy_round_trip_witness :
  let w := Buffer.mk_World (T := u32) [] [] 1024 [] in
  (this ← Buffer.Buffer_size 4 2; Buffer.Buffer_destroy 4 this) w =
  Ok (tt, Buffer.mk_World (T := u32) [None] [None] 1024
            [Buffer.Destroyed 0 0; Buffer.Destroyed 0 1; Buffer.Freed 0]).
Proof.
  cbv zeta.
  apply (construct_destroy_round_trip 4 (Buffer.mk_World (T := u32) [] [] 1024 []) 2).
  - discriminate.
  - reflexivity.
  - simpl; lia.
Defined.

Lemma destructor_and_moves_are_safe_witness :
  let w0 := Buffer.mk_World (T := u32) [] [] 1024 [] in
  let w := Buffer.mk_World (T := u32) [Some (Buffer.mk (Buffer.slot 0 0) 2)]
             [Some (Buffer.mk_Block 8 None [None; None])] 1016 [] in
  Buffer.reachable_supported 4 w /\
  exists w', Buffer.Buffer_destroy 4 0 w = Ok (tt, w') /\ Buffer.object w' 0 = None.
Proof.
  cbv zeta.
  set (w0 := Buffer.mk_World (T := u32) [] [] 1024 []).
  set (w := Buffer.mk_World (T := u32) [Some (Buffer.mk (Buffer.slot 0 0) 2)]
             [Some (Buffer.mk_Block 8 None [None; None])] 1016 []).
  assert (Hr : Buffer.reachable_supported 4 w).
  { apply (Buffer.supported_step 4 (Buffer.Size 2) w0 w).
    - apply Buffer.supported_start. reflexivity.
    - exact I.
    - reflexivity. }
  split; [exact Hr |].
  exact (proj1 (destructor_and_moves_are_safe 4 w Hr) 0%nat _ eq_refl).
Defined.

Lemma class_type_buffers_can_be_read_witness :
  let w0 := Buffer.mk_World (T := ShapedRow) [] [] 1024 [] in
  let w := Buffer.mk_World (T := ShapedRow) [Some (Buffer.mk (Buffer.slot 0 0) 2)]
             [Some (Buffer.mk_Block 320 None
                      [Some ShapedRow_default; Some ShapedRow_default])] 704 [] in
  Buffer.reachable_supported (H := ShapedRow_Element) 8 w /\
  exists xs : list ShapedRow,
    length xs = N.to_nat 2 /\
    (forall fuel, (length xs <= fuel)%nat -> Buffer.iterate fuel 0 w = Ok (xs, w)) /\
    (forall i x, xs !! i = Some x -> Buffer.operator_index 0 (N.of_nat i) w = Ok (x, w)).
Proof.
  cbv zeta.
  set (w0 := Buffer.mk_World (T := ShapedRow) [] [] 1024 []).
  set (w := Buffer.mk_World (T := ShapedRow) [Some (Buffer.mk (Buffer.slot 0 0) 2)]
             [Some (Buffer.mk_Block 320 None
                      [Some ShapedRow_default; Some ShapedRow_default])] 704 []).
  assert (Hr : Buffer.reachable_supported (H := ShapedRow_Element) 8 w).
  { apply (Buffer.supported_step (H := ShapedRow_Element) 8 (Buffer.Size 2) w0 w).
    - apply Buffer.supported_start. reflexivity.
    - exact I.
    - reflexivity. }
  split; [exact Hr |].
  exact (class_type_buffers_can_be_read (H := ShapedRow_Element) 8 w 0%nat
           (Buffer.mk (Buffer.slot 0 0) 2) ShapedRow_default eq_refl Hr eq_refl).
Defined.

Lemma self_move_assignment_leaves_dangling_witness :
  let w := Buffer.mk_World (T := u32) [Some (Buffer.mk (Buffer.slot 0 0) 2)]
             [Some (Buffer.mk_Block 8 None [Some 0; Some 0])] 1016 [] in
  let b := Buffer.mk (Buffer.slot 0 0) 2 in
  Buffer.owns 4 w b /\
  exists w',
    Buffer.assign_move 4 0 0 w = Ok (tt, w') /\
    Buffer.object w' 0 = Some b /\
    Buffer.operator_index 0 0 w' = Undefined /\
    Buffer.Buffer_destroy 4 0 w' = Undefined.
Proof.
  cbv zeta.
  set (w := Buffer.mk_World (T := u32) [Some (Buffer.mk (Buffer.slot 0 0) 2)]
             [Some (Buffer.mk_Block 8 None [Some 0; Some 0])] 1016 []).
  assert (Hown : Buffer.owns 4 w (Buffer.mk (Buffer.slot 0 0) 2)).
  { split; [reflexivity |]. split; [discriminate |].
    exists (Buffer.mk_Block 8 None [Some 0; Some 0]).
    repeat split. }
  split; [exact Hown |].
  apply (self_move_assignment_leaves_dangling 4 w 0%nat _ eq_refl Hown). discriminate.
Defined.

Lemma move_out_and_back_restores_witness :
  let w := Buffer.mk_World (T := u32) [Some (Buffer.mk (Buffer.slot 0 0) 2)]
             [Some (Buffer.mk_Block 8 None [Some 0; Some 0])] 1016 [] in
  (tmp ← Buffer.Buffer_move 0; Buffer.assign_move 4 0 tmp) w =
  Ok (tt, Buffer.set_objs (fun os => os ++ [Some (Buffer.mk Buffer.null 0)]) w).
Proof.
  cbv zeta.
  apply (move_out_and_back_restores 4 _ 0%nat (Buffer.mk (Buffer.slot 0 0) 2)).
  reflexivity.
Defined.

(* --------------------------------------------------------------------- *)
(** *** [ShapedRow::clear]: the font faces let go, and the dirty interval *)
(* --------------------------------------------------------------------- *)

Section ShapedRowRelease.
Context `{Platform}.
Import FontFace RefCount.

Lemma release_calls_count (q p : pointer) :
  occurrences (Release p) (release_calls q) =
  (if is_proper p then same q p else 0) /\
  occurrences (AddRef p) (release_calls q) = 0.
Proof.
  unfold release_calls, same. destruct (is_proper q) eqn:Eq.
  - rewrite !occurrences_cons, !occurrences_nil.
    destruct (decide (Release q = AddRef p)) as [e | _]; [discriminate e |].
    split; [| reflexivity].
    destruct (decide (q = p)) as [-> | Hne].
    + rewrite Eq. destruct (decide (Release p = Release p)); [reflexivity | congruence].
    + destruct (decide (Release q = Release p)) as [e | _]; [congruence |].
      destruct (is_proper p); reflexivity.
  - rewrite !occurrences_nil. split; [| reflexivity].
    destruct (decide (q = p)) as [-> | _]; [rewrite Eq |]; destruct (is_proper p); reflexivity.
Qed.

(** X18: Clearing a row gives back exactly the references its mappings held:
    [Release] is called once per mapping on a real font face, on that
    face; mappings on the null pointer or on the soft-font sentinel cause
    no call; [AddRef] is never called; and a row that has been cleared
    holds nothing that a second [clear] could release. *)
Theorem clear_releases_what_the_row_held (y cellHeight : u16) (r : ShapedRow)
    (p : pointer) :
  occurrences (Release p) (clear y cellHeight r).2 =
    (if is_proper p
     then occurrences p (map (fun m => _ptr (fontFace m)) (mappings r))
     else 0) /\
  occurrences (AddRef p) (clear y cellHeight r).2 = 0 /\
  (forall y' cellHeight' : u16,
     (clear y' cellHeight' (clear y cellHeight r).1).2 = []).
Proof.
  unfold clear; cbn [fst snd mappings]. split; [| split; [| reflexivity]].
  - induction (mappings r) as [| m ms IH]; cbn [flat_map map].
    + rewrite !occurrences_nil. destruct (is_proper p); reflexivity.
    + rewrite occurrences_app, occurrences_cons, IH.
      rewrite (proj1 (release_calls_count (_ptr (fontFace m)) p)). unfold same.
      destruct (is_proper p); reflexivity.
  - induction (mappings r) as [| m ms IH]; cbn [flat_map].
    + reflexivity.
    + rewrite occurrences_app, IH.
      rewrite (proj2 (release_calls_count (_ptr (fontFace m)) p)). reflexivity.
Qed.

(** X19: As long as the pixel coordinates fit the 32-bit coordinate type, the
    dirty intervals of the rows tile the screen: the interval of row [y]
    is [cellHeight] pixels high, never inverted, and ends where the
    interval of row [y + 1] begins. *)
Theorem clear_dirty_intervals_tile (y cellHeight : u16) (r r' : ShapedRow) :
  is_u16 y -> is_u16 (y + 1) -> is_u16 cellHeight ->
  (y + 2) * cellHeight <= i32_max ->
  let a := (clear y cellHeight r).1 in
  let b := (clear (y + 1) cellHeight r').1 in
  dirtyTop a <= dirtyBottom a /\
  dirtyBottom a - dirtyTop a = cellHeight /\
  dirtyBottom a = dirtyTop b.
Proof.
  intros Hy Hy1 Hh Hfit. cbv zeta.
  unfold is_u16, u16_max in Hy, Hy1, Hh. unfold i32_max in Hfit.
  unfold clear; cbn [fst dirtyTop dirtyBottom].
  rewrite (wrap_s_id (y * cellHeight)) by (unfold is_i32, i32_min, i32_max; nia).
  rewrite (wrap_s_id (y * cellHeight + cellHeight))
    by (unfold is_i32, i32_min, i32_max; nia).
  rewrite (wrap_s_id ((y + 1) * cellHeight))
    by (unfold is_i32, i32_min, i32_max; nia).
  repeat split; lia.
Qed.

End ShapedRowRelease.

Lemma clear_dirty_intervals_tile_witness :
  let a := (@clear x64 3 20 ShapedRow_default).1 in
  let b := (@clear x64 (3 + 1) 20 ShapedRow_default).1 in
  dirtyTop a <= dirtyBottom a /\
  dirtyBottom a - dirtyTop a = 20 /\
  dirtyBottom a = dirtyTop b.
Proof.
  apply (@clear_dirty_intervals_tile x64 3 20 ShapedRow_default ShapedRow_default);
    unfold is_u16, u16_max, i32_max; lia.
Defined.

(* --------------------------------------------------------------------- *)
(** *** [rect<f32>]: emptiness in the presence of NaN *)
(* --------------------------------------------------------------------- *)

(** X20: On [f32r] the two tests are never both true, whatever the
    coordinates; a rectangle that tests as non-empty has no NaN
    coordinate; and a rectangle with a NaN among [left], [right] and one
    among [top], [bottom] tests as neither empty nor non-empty. *)
Theorem rect_f32_empty_excludes_non_empty (r : f32r) :
  empty r && non_empty r = false /\
  non_empty r && (f32_is_nan (left r) || f32_is_nan (top r) ||
                  f32_is_nan (right r) || f32_is_nan (bottom r)) = false /\
  (f32_is_nan (left r) || f32_is_nan (right r)) &&
  (f32_is_nan (top r) || f32_is_nan (bottom r)) &&
  (empty r || non_empty r) = false.
Proof.
  unfold empty, non_empty, op_ge, op_lt, f32_Ordered, f32_ge, f32_lt.
  rewrite !Z_ge_is_not_lt.
  destruct (f32_is_nan (left r)), (f32_is_nan (top r)),
           (f32_is_nan (right r)), (f32_is_nan (bottom r));
    cbn [negb orb andb];
    destruct (f32_key (left r) <? f32_key (right r)),
             (f32_key (top r) <? f32_key (bottom r)); repeat split.
Qed.
